(** * ChainFlow sequential timer: shallow embedding and verified properties

    The development follows the layout of the application:
    - [Types]          the records and enumerations of [types.ts];
    - [Js]             the few JavaScript built-ins the code relies on
                       (string trimming, truthiness, [atob]);
    - [GeminiService]  [services/geminiService.ts]: time-out, retry, the
                       speech and transcription calls;
    - [AudioUtils]     [services/audioUtils.ts]: PCM decoding;
    - [RunMode]        [components/RunMode.tsx]: the sequencing engine, as
                       a state record and one function per synchronous
                       segment of the component's handlers;
    - [App]            [App.tsx]: the start guard;
    - [Spec], [Obs], [Sample]  reference definitions, the observations the
                       statements are phrased with, and sample inputs.

    Asynchronous functions are cut at their [await]s: a function of the
    component runs up to its first suspension point and parks an [Await];
    [settle] resumes it with the outcome of the promise. Events from the
    page (clicks, interval firings, settled promises, the dismissal
    timeout) drive the state through [step].

    Numbers are JavaScript numbers restricted to integers and modelled by
    [Z]; indices and identifiers are [nat]. Strings are sequences of code
    units below 256. *)

From Stdlib Require Import ZArith QArith String Ascii.
From stdpp Require Import base option list strings pretty gmap.

Open Scope Z_scope.

(** Outcome of an awaited promise. *)
Inductive Settled (T : Type) : Type :=
| Fulfilled (value : T)
| Rejected (reason : string).
Arguments Fulfilled {T} value.
Arguments Rejected {T} reason.

(* ================================================================= *)
(** ** types.ts *)

Module Types.

Record TimerStep := {
  id : string;
  name : string;
  durationSeconds : Z
}.

Inductive AlarmType := bell | digital | chime | gong.

(** [alarmVolume] is read through [settings.alarmVolume ?? 0.8]; the field
    is optional in routines saved by older versions. *)
Record ChainSettings := {
  alarmSound : AlarmType;
  alarmVolume : option Q;
  bufferSeconds : Z
}.

Inductive AppStatus := SETUP | RUNNING | FINISHED.

Inductive TimerPhase :=
| PREPARING_AUDIO
| ANNOUNCING
| COUNTDOWN
| BUFFER
| COMPLETION_ANNOUNCEMENT
| COMPLETED.

#[export] Instance TimerPhase_eq_dec : EqDecision TimerPhase.
Proof. solve_decision. Defined.

#[export] Instance AppStatus_eq_dec : EqDecision AppStatus.
Proof. solve_decision. Defined.

End Types.
Export Types.

(* ================================================================= *)
(** ** JavaScript built-ins *)

Module Js.

Definition code (c : ascii) : Z := Z.of_N (N_of_ascii c).

(** White space and line terminators removed by [String.prototype.trim],
    among code units below 256. *)
Definition isWhiteSpace (c : ascii) : bool :=
  let n := code c in
  ((9 <=? n) && (n <=? 13)) || (n =? 32) || (n =? 160).

Fixpoint trimStart (s : string) : string :=
  match s with
  | EmptyString => EmptyString
  | String c r => if isWhiteSpace c then trimStart r else s
  end.

Fixpoint trimEnd (s : string) : string :=
  match s with
  | EmptyString => EmptyString
  | String c r =>
      match trimEnd r with
      | EmptyString => if isWhiteSpace c then EmptyString else String c EmptyString
      | r' => String c r'
      end
  end.

Definition trim (s : string) : string := trimEnd (trimStart s).

(** [v || d] on a possibly undefined string: the empty string is falsy. *)
Definition or_else (v : option string) (d : string) : string :=
  match v with
  | Some EmptyString | None => d
  | Some s => s
  end.

(** A possibly undefined string seen through a truthiness test: [None]
    when [!v] holds, the string otherwise. *)
Definition truthy (v : option string) : option string :=
  match v with
  | Some EmptyString | None => None
  | Some s => Some s
  end.

Definition quote : string := String (ascii_of_nat 34) EmptyString.

(** *** [atob]: forgiving base64 decoding *)

Definition isAsciiWhitespace (c : ascii) : bool :=
  let n := code c in
  (n =? 9) || (n =? 10) || (n =? 12) || (n =? 13) || (n =? 32).

Definition sextet (c : ascii) : option Z :=
  let n := code c in
  if (65 <=? n) && (n <=? 90) then Some (n - 65)
  else if (97 <=? n) && (n <=? 122) then Some (n - 97 + 26)
  else if (48 <=? n) && (n <=? 57) then Some (n - 48 + 52)
  else if n =? 43 then Some 62
  else if n =? 47 then Some 63
  else None.

Definition isPad (c : ascii) : bool := code c =? 61.

(** When the length is a multiple of four, one or two trailing [=] are
    dropped. *)
Definition stripPadding (data : list ascii) : list ascii :=
  if (Z.of_nat (length data) mod 4 =? 0) then
    match reverse data with
    | p1 :: p2 :: r =>
        if isPad p1 then (if isPad p2 then reverse r else reverse (p2 :: r))
        else data
    | _ => data
    end
  else data.

Fixpoint sextets (data : list ascii) : option (list Z) :=
  match data with
  | [] => Some []
  | c :: r =>
      match sextet c, sextets r with
      | Some v, Some vs => Some (v :: vs)
      | _, _ => None
      end
  end.

Fixpoint octets (vs : list Z) : list Z :=
  match vs with
  | a :: b :: c :: d :: r =>
      let n := a * 262144 + b * 4096 + c * 64 + d in
      (n / 65536) :: ((n / 256) mod 256) :: (n mod 256) :: octets r
  | [a; b; c] =>
      let n := (a * 4096 + b * 64 + c) / 4 in
      [n / 256; n mod 256]
  | [a; b] => [(a * 64 + b) / 16]
  | _ => []
  end.

(** [None] stands for the [InvalidCharacterError] exception. The result is
    the binary string, one code unit in [0, 255] per byte. *)
Definition atob (s : string) : option (list Z) :=
  let data := filter (fun c => isAsciiWhitespace c = false) (list_ascii_of_string s) in
  let data := stripPadding data in
  if (Z.of_nat (length data) mod 4 =? 1) then None
  else octets <$> sextets data.

End Js.

(* ================================================================= *)
(** ** services/geminiService.ts *)

Module GeminiService.

(** What the code reads from a [GenerateContentResponse]:
    [candidates?.[0]?.content?.parts?.[0]?.inlineData?.data] and [text]. *)
Record GenerateContentResponse := {
  inlineData : option string;
  text : option string
}.

(** The behaviour of one pending network promise: it settles after some
    milliseconds, or never does. *)
Inductive Pending (T : Type) : Type :=
| Settles (afterMs : Z) (outcome : Settled T)
| Hangs.
Arguments Settles {T} afterMs outcome.
Arguments Hangs {T}.

Inductive Request :=
| SpeechRequest (model prompt voiceName : string)
| TranscribeRequest (model mimeType data prompt : string).

(** [ai.models.generateContent]: the environment decides how the [n]-th
    attempt of a request behaves. *)
Definition Gemini := Request -> nat -> Pending GenerateContentResponse.

(** [Promise.race] of the promise against a rejecting timer. *)
Definition withTimeout {T} (promise : Pending T) (ms : Z) (errorMessage : string)
  : Settled T :=
  match promise with
  | Settles t outcome => if t <? ms then outcome else Rejected errorMessage
  | Hangs => Rejected errorMessage
  end.

(** What a [retry] loop did, in order. *)
Inductive RetryStep :=
| Attempt (n : nat)
| Backoff (delayMs : Z).

(** [retry(fn, retries, delay)]; [attempt] numbers the calls of [fn]. The
    result carries the log of attempts and waits. *)
Fixpoint retry {T} (fn : nat -> Settled T) (retries : nat) (delay : Z) (attempt : nat)
  : Settled T * list RetryStep :=
  match fn attempt with
  | Fulfilled v => (Fulfilled v, [Attempt attempt])
  | Rejected error =>
      match retries with
      | O => (Rejected error, [Attempt attempt])
      | S retries' =>
          let '(r, log) := retry fn retries' (delay * 2) (S attempt) in
          (r, Attempt attempt :: Backoff delay :: log)
      end
  end.

Definition TIMEOUT_MS : Z := 60000.

(** The local [timeString] of [generateTimerAnnouncement]. [Math.floor] of
    the quotient is [Z.div]; [%] takes the sign of the dividend, [Z.rem]. *)
Definition timeString (durationSeconds : Z) : string :=
  let minutes := durationSeconds / 60 in
  let seconds := Z.rem durationSeconds 60 in
  let timeString := EmptyString in
  let timeString :=
    if 0 <? minutes
    then timeString +:+ pretty minutes +:+ " minute" +:+ (if minutes =? 1 then EmptyString else "s")
    else timeString in
  let timeString :=
    if (0 <? minutes) && (0 <? seconds) then timeString +:+ " and " else timeString in
  let timeString :=
    if 0 <? seconds
    then timeString +:+ pretty seconds +:+ " second" +:+ (if seconds =? 1 then EmptyString else "s")
    else timeString in
  if String.eqb timeString EmptyString then "0 seconds" else timeString.

Definition timerPrompt (taskName : string) (durationSeconds : Z) : string :=
  "Say enthusiastically and clearly: " +:+ Js.quote +:+ "Begin " +:+ taskName
    +:+ " for " +:+ timeString durationSeconds +:+ "." +:+ Js.quote.

Definition completionPrompt : string :=
  "Say cheerfully and encouragingly: " +:+ Js.quote
    +:+ "All done! You have completed your sequence." +:+ Js.quote.

Definition speechRequest (prompt : string) : Request :=
  SpeechRequest "gemini-2.5-flash-preview-tts" prompt "Kore".

Definition timerApiCall (ai : Gemini) (taskName : string) (durationSeconds : Z)
  (n : nat) : Settled string :=
  match withTimeout (ai (speechRequest (timerPrompt taskName durationSeconds)) n)
          TIMEOUT_MS "Audio generation timed out" with
  | Rejected e => Rejected e
  | Fulfilled response =>
      match Js.truthy (inlineData response) with
      | None => Rejected "No audio data received from Gemini"
      | Some base64Audio => Fulfilled base64Audio
      end
  end.

Definition generateTimerAnnouncement (ai : Gemini) (taskName : string)
  (durationSeconds : Z) : Settled string * list RetryStep :=
  retry (timerApiCall ai taskName durationSeconds) 3 1000 0.

Definition completionApiCall (ai : Gemini) (n : nat) : Settled string :=
  match withTimeout (ai (speechRequest completionPrompt) n)
          TIMEOUT_MS "Completion audio timed out" with
  | Rejected e => Rejected e
  | Fulfilled response =>
      match Js.truthy (inlineData response) with
      | None => Rejected "No audio data"
      | Some base64Audio => Fulfilled base64Audio
      end
  end.

Definition generateCompletionAnnouncement (ai : Gemini)
  : Settled string * list RetryStep :=
  retry (completionApiCall ai) 3 1000 0.

Definition transcribePrompt : string :=
  "Transcribe the following audio into a short, concise task name. Return ONLY the text of the task name, no punctuation.".

Definition transcribeRequest (base64Audio mimeType : string) : Request :=
  TranscribeRequest "gemini-2.5-flash" mimeType base64Audio transcribePrompt.

Definition transcribeApiCall (ai : Gemini) (base64Audio mimeType : string)
  (n : nat) : Settled string :=
  match withTimeout (ai (transcribeRequest base64Audio mimeType) n)
          15000 "Transcription timed out" with
  | Rejected e => Rejected e
  | Fulfilled response => Fulfilled (Js.or_else (Js.trim <$> text response) EmptyString)
  end.

Definition transcribeAudio (ai : Gemini) (base64Audio mimeType : string)
  : Settled string * list RetryStep :=
  retry (transcribeApiCall ai base64Audio mimeType) 2 500 0.

End GeminiService.

(* ================================================================= *)
(** ** services/audioUtils.ts *)

Module AudioUtils.

Record AudioBuffer := {
  numberOfChannels : Z;
  sampleRate : Z;
  channelData : list Q
}.

(** [new Uint8Array(safeLen)] filled from the first [safeLen] code units;
    a store into a [Uint8Array] keeps the value modulo 256. *)
Definition uint8Array (binaryString : list Z) (safeLen : nat) : list Z :=
  (fun c => c mod 256) <$> take safeLen binaryString.

(** One element of [new Int16Array(bytes.buffer)]: two bytes, low byte
    first, read as a two's complement 16-bit integer. *)
Definition int16 (lo hi : Z) : Z :=
  let u := lo + 256 * hi in
  if u <? 32768 then u else u - 65536.

Fixpoint int16Array (bytes : list Z) : list Z :=
  match bytes with
  | lo :: hi :: rest => int16 lo hi :: int16Array rest
  | _ => []
  end.

(** [ctx.createBuffer(numChannels, frameCount, sampleRate)]: the Web Audio
    interface refuses a buffer without frames ([NotSupportedError]). *)
Definition createBuffer (numChannels : Z) (frameCount : nat) (rate : Z)
  : option AudioBuffer :=
  match frameCount with
  | O => None
  | _ => Some {| numberOfChannels := numChannels;
                 sampleRate := rate;
                 channelData := replicate frameCount 0%Q |}
  end.

Definition safeLen (len : nat) : nat :=
  if (len mod 2 =? 0)%nat then len else (len - 1)%nat.

Definition dataInt16 (binaryString : list Z) : list Z :=
  int16Array (uint8Array binaryString (safeLen (length binaryString))).

(** The samples written by the loop [channelData[i] = dataInt16[i] / 32768.0].
    The quotient of a 16-bit integer by a power of two is exact in the
    32-bit floats of the channel, so a rational models it. *)
Definition samples (binaryString : list Z) : list Q :=
  (fun v => v # 32768) <$> dataInt16 binaryString.

(** The body of [decodeGeminiAudio] after the [atob] call. *)
Definition decodeBinary (binaryString : list Z) : Settled AudioBuffer :=
  let frameCount := length (dataInt16 binaryString) in
  match createBuffer 1 frameCount 24000 with
  | None => Rejected "NotSupportedError"
  | Some buffer =>
      Fulfilled {| numberOfChannels := numberOfChannels buffer;
                   sampleRate := sampleRate buffer;
                   channelData := samples binaryString |}
  end.

Definition decodeGeminiAudio (base64String : string) : Settled AudioBuffer :=
  match Js.atob base64String with
  | None => Rejected "InvalidCharacterError"
  | Some binaryString => decodeBinary binaryString
  end.

(** Total sounding time of [playAlarm], in milliseconds. *)
Definition alarmDurationMs (type : AlarmType) : Z :=
  match type with
  | digital => 600
  | chime => 1500
  | gong => 2500
  | bell => 2000
  end.

End AudioUtils.

(* ================================================================= *)
(** ** components/RunMode.tsx *)

Module RunMode.
Import AudioUtils.

(** The completion callbacks handed to [startTimer]. *)
Inductive Callback :=
| StepComplete (index myOpId : nat)
    (* () => handleStepComplete(index, myOpId) *)
| BufferElapsed (nextIndex myOpId : nat)
    (* () => { if (opIdRef.current === myOpId) runSequence(nextIndex) } *)
| Resumed (phase : TimerPhase) (currentIndex : nat).
    (* the closure built by togglePause over the rendered phase and index *)

(** A live [setInterval] registration made by [startTimer]. *)
Record Interval := {
  tickOpId : nat;
  onComplete : Callback
}.

(** The points at which an asynchronous function of the component is
    suspended, with the variables its continuation closes over. *)
Inductive Await :=
| StepSpeech (index myOpId : nat)
| StepPlayback (index myOpId source : nat)
| CompletionSpeech (myOpId : nat)
| CompletionPlayback (myOpId source : nat)
| AlarmDone (completedIndex myOpId : nat)
| PreloadSpeech (targetIndex : nat).

#[export] Instance Await_eq_dec : EqDecision Await.
Proof. solve_decision. Defined.

(** Calls that leave the component, in the order they are made. *)
Inductive Effect :=
| CallTimerAnnouncement (taskName : string) (durationSeconds : Z)
| CallCompletionAnnouncement
| CallDecode (base64 : string)
| CallPlayBuffer (source : nat) (buffer : AudioBuffer) (volume : Q)
| CallPlayAlarm (type : AlarmType) (volume : Q).

Record State := {
  (* React state *)
  currentIndex : nat;
  phase : TimerPhase;
  remainingSeconds : Z;
  isPaused : bool;
  errorMessage : option string;
  (* refs *)
  opIdRef : nat;
  audioStopRef : option nat;
  intervalRef : option nat;
  audioCache : gmap nat AudioBuffer;
  (* the page around the component *)
  dismissTimer : option Z;
  sources : list nat;
  nextSource : nat;
  intervals : gmap nat Interval;
  nextInterval : nat;
  pending : list Await;
  calls : list Effect
}.

Definition set_currentIndex (v : nat) (st : State) : State :=
  {| currentIndex := v; phase := phase st;
     remainingSeconds := remainingSeconds st; isPaused := isPaused st;
     errorMessage := errorMessage st; opIdRef := opIdRef st;
     audioStopRef := audioStopRef st; intervalRef := intervalRef st;
     audioCache := audioCache st; dismissTimer := dismissTimer st;
     sources := sources st; nextSource := nextSource st;
     intervals := intervals st; nextInterval := nextInterval st;
     pending := pending st; calls := calls st |}.

Definition set_phase (v : TimerPhase) (st : State) : State :=
  {| currentIndex := currentIndex st; phase := v;
     remainingSeconds := remainingSeconds st; isPaused := isPaused st;
     errorMessage := errorMessage st; opIdRef := opIdRef st;
     audioStopRef := audioStopRef st; intervalRef := intervalRef st;
     audioCache := audioCache st; dismissTimer := dismissTimer st;
     sources := sources st; nextSource := nextSource st;
     intervals := intervals st; nextInterval := nextInterval st;
     pending := pending st; calls := calls st |}.

Definition set_remainingSeconds (v : Z) (st : State) : State :=
  {| currentIndex := currentIndex st; phase := phase st;
     remainingSeconds := v; isPaused := isPaused st;
     errorMessage := errorMessage st; opIdRef := opIdRef st;
     audioStopRef := audioStopRef st; intervalRef := intervalRef st;
     audioCache := audioCache st; dismissTimer := dismissTimer st;
     sources := sources st; nextSource := nextSource st;
     intervals := intervals st; nextInterval := nextInterval st;
     pending := pending st; calls := calls st |}.

Definition set_isPaused (v : bool) (st : State) : State :=
  {| currentIndex := currentIndex st; phase := phase st;
     remainingSeconds := remainingSeconds st; isPaused := v;
     errorMessage := errorMessage st; opIdRef := opIdRef st;
     audioStopRef := audioStopRef st; intervalRef := intervalRef st;
     audioCache := audioCache st; dismissTimer := dismissTimer st;
     sources := sources st; nextSource := nextSource st;
     intervals := intervals st; nextInterval := nextInterval st;
     pending := pending st; calls := calls st |}.

Definition set_errorMessage (v : option string) (st : State) : State :=
  {| currentIndex := currentIndex st; phase := phase st;
     remainingSeconds := remainingSeconds st; isPaused := isPaused st;
     errorMessage := v; opIdRef := opIdRef st;
     audioStopRef := audioStopRef st; intervalRef := intervalRef st;
     audioCache := audioCache st; dismissTimer := dismissTimer st;
     sources := sources st; nextSource := nextSource st;
     intervals := intervals st; nextInterval := nextInterval st;
     pending := pending st; calls := calls st |}.

Definition set_opIdRef (v : nat) (st : State) : State :=
  {| currentIndex := currentIndex st; phase := phase st;
     remainingSeconds := remainingSeconds st; isPaused := isPaused st;
     errorMessage := errorMessage st; opIdRef := v;
     audioStopRef := audioStopRef st; intervalRef := intervalRef st;
     audioCache := audioCache st; dismissTimer := dismissTimer st;
     sources := sources st; nextSource := nextSource st;
     intervals := intervals st; nextInterval := nextInterval st;
     pending := pending st; calls := calls st |}.

Definition set_audioStopRef (v : option nat) (st : State) : State :=
  {| currentIndex := currentIndex st; phase := phase st;
     remainingSeconds := remainingSeconds st; isPaused := isPaused st;
     errorMessage := errorMessage st; opIdRef := opIdRef st;
     audioStopRef := v; intervalRef := intervalRef st;
     audioCache := audioCache st; dismissTimer := dismissTimer st;
     sources := sources st; nextSource := nextSource st;
     intervals := intervals st; nextInterval := nextInterval st;
     pending := pending st; calls := calls st |}.

Definition set_intervalRef (v : option nat) (st : State) : State :=
  {| currentIndex := currentIndex st; phase := phase st;
     remainingSeconds := remainingSeconds st; isPaused := isPaused st;
     errorMessage := errorMessage st; opIdRef := opIdRef st;
     audioStopRef := audioStopRef st; intervalRef := v;
     audioCache := audioCache st; dismissTimer := dismissTimer st;
     sources := sources st; nextSource := nextSource st;
     intervals := intervals st; nextInterval := nextInterval st;
     pending := pending st; calls := calls st |}.

Definition set_audioCache (v : gmap nat AudioBuffer) (st : State) : State :=
  {| currentIndex := currentIndex st; phase := phase st;
     remainingSeconds := remainingSeconds st; isPaused := isPaused st;
     errorMessage := errorMessage st; opIdRef := opIdRef st;
     audioStopRef := audioStopRef st; intervalRef := intervalRef st;
     audioCache := v; dismissTimer := dismissTimer st;
     sources := sources st; nextSource := nextSource st;
     intervals := intervals st; nextInterval := nextInterval st;
     pending := pending st; calls := calls st |}.

Definition set_dismissTimer (v : option Z) (st : State) : State :=
  {| currentIndex := currentIndex st; phase := phase st;
     remainingSeconds := remainingSeconds st; isPaused := isPaused st;
     errorMessage := errorMessage st; opIdRef := opIdRef st;
     audioStopRef := audioStopRef st; intervalRef := intervalRef st;
     audioCache := audioCache st; dismissTimer := v; sources := sources st;
     nextSource := nextSource st; intervals := intervals st;
     nextInterval := nextInterval st; pending := pending st;
     calls := calls st |}.

Definition set_sources (v : list nat) (st : State) : State :=
  {| currentIndex := currentIndex st; phase := phase st;
     remainingSeconds := remainingSeconds st; isPaused := isPaused st;
     errorMessage := errorMessage st; opIdRef := opIdRef st;
     audioStopRef := audioStopRef st; intervalRef := intervalRef st;
     audioCache := audioCache st; dismissTimer := dismissTimer st;
     sources := v; nextSource := nextSource st; intervals := intervals st;
     nextInterval := nextInterval st; pending := pending st;
     calls := calls st |}.

Definition set_nextSource (v : nat) (st : State) : State :=
  {| currentIndex := currentIndex st; phase := phase st;
     remainingSeconds := remainingSeconds st; isPaused := isPaused st;
     errorMessage := errorMessage st; opIdRef := opIdRef st;
     audioStopRef := audioStopRef st; intervalRef := intervalRef st;
     audioCache := audioCache st; dismissTimer := dismissTimer st;
     sources := sources st; nextSource := v; intervals := intervals st;
     nextInterval := nextInterval st; pending := pending st;
     calls := calls st |}.

Definition set_intervals (v : gmap nat Interval) (st : State) : State :=
  {| currentIndex := currentIndex st; phase := phase st;
     remainingSeconds := remainingSeconds st; isPaused := isPaused st;
     errorMessage := errorMessage st; opIdRef := opIdRef st;
     audioStopRef := audioStopRef st; intervalRef := intervalRef st;
     audioCache := audioCache st; dismissTimer := dismissTimer st;
     sources := sources st; nextSource := nextSource st; intervals := v;
     nextInterval := nextInterval st; pending := pending st;
     calls := calls st |}.

Definition set_nextInterval (v : nat) (st : State) : State :=
  {| currentIndex := currentIndex st; phase := phase st;
     remainingSeconds := remainingSeconds st; isPaused := isPaused st;
     errorMessage := errorMessage st; opIdRef := opIdRef st;
     audioStopRef := audioStopRef st; intervalRef := intervalRef st;
     audioCache := audioCache st; dismissTimer := dismissTimer st;
     sources := sources st; nextSource := nextSource st;
     intervals := intervals st; nextInterval := v; pending := pending st;
     calls := calls st |}.

Definition set_pending (v : list Await) (st : State) : State :=
  {| currentIndex := currentIndex st; phase := phase st;
     remainingSeconds := remainingSeconds st; isPaused := isPaused st;
     errorMessage := errorMessage st; opIdRef := opIdRef st;
     audioStopRef := audioStopRef st; intervalRef := intervalRef st;
     audioCache := audioCache st; dismissTimer := dismissTimer st;
     sources := sources st; nextSource := nextSource st;
     intervals := intervals st; nextInterval := nextInterval st;
     pending := v; calls := calls st |}.

Definition set_calls (v : list Effect) (st : State) : State :=
  {| currentIndex := currentIndex st; phase := phase st;
     remainingSeconds := remainingSeconds st; isPaused := isPaused st;
     errorMessage := errorMessage st; opIdRef := opIdRef st;
     audioStopRef := audioStopRef st; intervalRef := intervalRef st;
     audioCache := audioCache st; dismissTimer := dismissTimer st;
     sources := sources st; nextSource := nextSource st;
     intervals := intervals st; nextInterval := nextInterval st;
     pending := pending st; calls := v |}.

Definition log (e : Effect) (st : State) : State :=
  set_calls (calls st ++ [e]) st.

(** [await]: the continuation is parked until the promise settles. *)
Definition await (a : Await) (st : State) : State :=
  set_pending (pending st ++ [a]) st.

Fixpoint remove_first (a : Await) (l : list Await) : list Await :=
  match l with
  | [] => []
  | b :: r => if decide (a = b) then r else b :: remove_first a r
  end.

(** The state of a freshly rendered component. *)
Definition initial : State :=
  {| currentIndex := 0; phase := PREPARING_AUDIO; remainingSeconds := 0;
     isPaused := false; errorMessage := None; opIdRef := 0;
     audioStopRef := None; intervalRef := None; audioCache := ∅;
     dismissTimer := None; sources := []; nextSource := 1;
     intervals := ∅; nextInterval := 1; pending := []; calls := [] |}.

(** [window.clearInterval(id)] *)
Definition clearInterval (i : nat) (st : State) : State :=
  set_intervals (delete i (intervals st)) st.

(** The [stop] handle returned by [playAudioBuffer]: silences the source
    (and resolves [done]; the parked continuation runs afterwards). *)
Definition stop (source : nat) (st : State) : State :=
  set_sources (filter (fun s => s ≠ source) (sources st)) st.

(** [setErrorMessage] together with the effect that depends on
    [errorMessage]: a change of value cancels the pending dismissal and,
    for a message, arms a new one of 5000 ms. *)
Definition setErrorMessage (v : option string) (st : State) : State :=
  if decide (errorMessage st = v) then st
  else
    set_dismissTimer (match Js.truthy v with Some _ => Some 5000 | None => None end)
      (set_errorMessage v st).

(** The dismissal timer fires: [setErrorMessage(null)]. *)
Definition dismiss (st : State) : State :=
  match dismissTimer st with
  | Some _ => setErrorMessage None (set_dismissTimer None st)
  | None => st
  end.

Definition stopEverything (st : State) : State :=
  let st :=
    match audioStopRef st with
    | Some source => set_audioStopRef None (stop source st)
    | None => st
    end in
  match intervalRef st with
  | Some i => set_intervalRef None (clearInterval i st)
  | None => st
  end.

Definition cleanup (st : State) : State :=
  let st := stopEverything st in
  set_opIdRef (S (opIdRef st)) st.

(** [playAudioBuffer(buffer, volume)]: starts a new source and returns
    its identity, which stands for the pair of [done] and [stop]. *)
Definition playAudioBuffer (buffer : AudioBuffer) (volume : Q) (st : State)
  : nat * State :=
  let source := nextSource st in
  (source,
   log (CallPlayBuffer source buffer volume)
     (set_nextSource (S source) (set_sources (sources st ++ [source]) st))).

Definition startTimer (duration : Z) (myOpId : nat) (onComplete : Callback)
  (st : State) : State :=
  let st := set_remainingSeconds duration st in
  let st :=
    match intervalRef st with
    | Some i => clearInterval i st
    | None => st
    end in
  let i := nextInterval st in
  set_intervalRef (Some i)
    (set_nextInterval (S i)
       (set_intervals (<[i := {| tickOpId := myOpId; onComplete := onComplete |}]>
                         (intervals st)) st)).

Section Component.

Variable timers : list TimerStep.
Variable settings : ChainSettings.

Definition totalSteps : nat := length timers.

(** [settings.alarmVolume ?? 0.8] *)
Definition volume : Q := default (8 # 10)%Q (alarmVolume settings).

(** *** Pre-loading *)

(** [preloadNextAudio(targetIndex)] up to its first [await]. *)
Definition preloadNextAudio (targetIndex : nat) (st : State) : State :=
  if decide (is_Some (audioCache st !! targetIndex)) then st
  else if decide (targetIndex = length timers) then
    await (PreloadSpeech targetIndex) (log CallCompletionAnnouncement st)
  else if decide (targetIndex < length timers)%nat then
    match timers !! targetIndex with
    | Some step =>
        await (PreloadSpeech targetIndex)
          (log (CallTimerAnnouncement (name step) (durationSeconds step)) st)
    | None => st
    end
  else st.

(** The rest of [preloadNextAudio], once the speech call has settled. A
    rejection, of the call or of the decoding, is caught and only logged
    to the console. *)
Definition preloadSettled (targetIndex : nat) (r : Settled string) (st : State)
  : State :=
  match r with
  | Rejected _ => st
  | Fulfilled base64 =>
      let st := log (CallDecode base64) st in
      match decodeGeminiAudio base64 with
      | Rejected _ => st
      | Fulfilled buffer =>
          set_audioCache (<[targetIndex := buffer]> (audioCache st)) st
      end
  end.

(** *** Core logic *)

(** [handleStepComplete] up to the [await] of the alarm. *)
Definition handleStepComplete (completedIndex myOpId : nat) (st : State) : State :=
  if decide (opIdRef st ≠ myOpId) then st
  else
    await (AlarmDone completedIndex myOpId)
      (log (CallPlayAlarm (alarmSound settings) volume) st).

(** The end of the completion branch of [runSequence]. *)
Definition finish (myOpId : nat) (st : State) : State :=
  if decide (opIdRef st = myOpId) then set_phase COMPLETED st else st.

(** Completion branch, from the test that follows the cache lookup. *)
Definition playCompletion (myOpId : nat) (buffer : AudioBuffer) (st : State)
  : State :=
  if decide (opIdRef st ≠ myOpId) then st
  else
    let '(source, st) := playAudioBuffer buffer volume st in
    let st := set_audioStopRef (Some source) st in
    await (CompletionPlayback myOpId source) st.

(** Step branch, from the test that follows the cache lookup. *)
Definition announce (index myOpId : nat) (buffer : AudioBuffer) (st : State)
  : State :=
  if decide (opIdRef st ≠ myOpId) then st
  else
    let st := set_phase ANNOUNCING st in
    let '(source, st) := playAudioBuffer buffer volume st in
    let st := set_audioStopRef (Some source) st in
    await (StepPlayback index myOpId source) st.

(** The [catch] clause of the step branch. *)
Definition startSilently (index myOpId : nat) (st : State) : State :=
  if decide (opIdRef st = myOpId) then
    match timers !! index with
    | Some step =>
        let st := setErrorMessage (Some "Audio unavailable - starting silently.") st in
        let st := set_phase COUNTDOWN st in
        let st := startTimer (durationSeconds step) myOpId (StepComplete index myOpId) st in
        preloadNextAudio (index + 1) st
    | None => st
    end
  else st.

(** [runSequence(index)] up to its first [await]. *)
Definition runSequence (index : nat) (st : State) : State :=
  let myOpId := S (opIdRef st) in
  let st := set_opIdRef myOpId st in
  let st := stopEverything st in
  let st := setErrorMessage None st in
  let st := set_isPaused false st in
  if decide (length timers ≤ index)%nat then
    let st := set_phase COMPLETION_ANNOUNCEMENT st in
    match audioCache st !! index with
    | None => await (CompletionSpeech myOpId) (log CallCompletionAnnouncement st)
    | Some buffer => playCompletion myOpId buffer st
    end
  else
    match timers !! index with
    | Some step =>
        let st := set_currentIndex index st in
        let st := set_phase PREPARING_AUDIO st in
        match audioCache st !! index with
        | None =>
            await (StepSpeech index myOpId)
              (log (CallTimerAnnouncement (name step) (durationSeconds step)) st)
        | Some buffer => announce index myOpId buffer st
        end
    | None => st
    end.

(** The continuation of each suspension point. [r] is the outcome of the
    speech call for the three speech awaits; the playback promise only
    ever resolves, and the outcome of the alarm is ignored by the code.
    When a playback continuation runs its source is silent, having ended
    or been stopped. *)
Definition resume (a : Await) (r : Settled string) (st : State) : State :=
  match a with
  | StepSpeech index myOpId =>
      match r with
      | Rejected _ => startSilently index myOpId st
      | Fulfilled base64 =>
          if decide (opIdRef st ≠ myOpId) then st
          else
            let st := log (CallDecode base64) st in
            match decodeGeminiAudio base64 with
            | Rejected _ => startSilently index myOpId st
            | Fulfilled buffer =>
                let st := set_audioCache (<[index := buffer]> (audioCache st)) st in
                announce index myOpId buffer st
            end
      end
  | StepPlayback index myOpId source =>
      let st := stop source st in
      if decide (opIdRef st ≠ myOpId) then st
      else
        match timers !! index with
        | Some step =>
            let st := set_audioStopRef None st in
            let st := set_phase COUNTDOWN st in
            let st := startTimer (durationSeconds step) myOpId
                        (StepComplete index myOpId) st in
            preloadNextAudio (index + 1) st
        | None => st
        end
  | CompletionSpeech myOpId =>
      match r with
      | Rejected _ => finish myOpId st
      | Fulfilled base64 =>
          if decide (opIdRef st ≠ myOpId) then st
          else
            let st := log (CallDecode base64) st in
            match decodeGeminiAudio base64 with
            | Rejected _ => finish myOpId st
            | Fulfilled buffer => playCompletion myOpId buffer st
            end
      end
  | CompletionPlayback myOpId source =>
      finish myOpId (stop source st)
  | AlarmDone completedIndex myOpId =>
      if decide (opIdRef st ≠ myOpId) then st
      else
        let nextIndex := (completedIndex + 1)%nat in
        if decide ((nextIndex < totalSteps)%nat ∧ 0 < bufferSeconds settings) then
          let st := set_phase BUFFER st in
          let st := set_currentIndex nextIndex st in
          startTimer (bufferSeconds settings) myOpId
            (BufferElapsed nextIndex myOpId) st
        else runSequence nextIndex st
  | PreloadSpeech targetIndex => preloadSettled targetIndex r st
  end.

(** A parked continuation is resumed once, when its promise settles. *)
Definition settle (a : Await) (r : Settled string) (st : State) : State :=
  if decide (a ∈ pending st) then
    resume a r (set_pending (remove_first a (pending st)) st)
  else st.

(** Calling a completion callback. *)
Definition fire (cb : Callback) (st : State) : State :=
  match cb with
  | StepComplete index myOpId => handleStepComplete index myOpId st
  | BufferElapsed nextIndex myOpId =>
      if decide (opIdRef st = myOpId) then runSequence nextIndex st else st
  | Resumed ph idx =>
      if decide (ph = BUFFER) then runSequence idx st
      else handleStepComplete idx (opIdRef st) st
  end.

(** One firing of the interval callback registered by [startTimer]. *)
Definition tick (i : nat) (st : State) : State :=
  match intervals st !! i with
  | None => st
  | Some iv =>
      if decide (opIdRef st ≠ tickOpId iv) then
        match intervalRef st with
        | Some j => clearInterval j st
        | None => st
        end
      else
        let prev := remainingSeconds st in
        if prev <=? 1 then
          let st :=
            match intervalRef st with
            | Some j => clearInterval j st
            | None => st
            end in
          let st := fire (onComplete iv) st in
          set_remainingSeconds 0 st
        else set_remainingSeconds (prev - 1) st
  end.

(** *** User actions *)

(** The mount effect: [runSequence(0)]. *)
Definition mount : State := runSequence 0 initial.

Definition handleSkip (st : State) : State :=
  runSequence (currentIndex st + 1) st.

Definition togglePause (st : State) : State :=
  if decide (phase st ≠ COUNTDOWN ∧ phase st ≠ BUFFER) then st
  else if isPaused st then
    let st := set_isPaused false st in
    startTimer (remainingSeconds st) (opIdRef st)
      (Resumed (phase st) (currentIndex st)) st
  else
    let st := set_isPaused true st in
    match intervalRef st with
    | Some i => clearInterval i st
    | None => st
    end.

(** What can happen to a mounted component. The skip button is not
    rendered in the [COMPLETED] view. *)
Inductive Event :=
| ClickSkip
| ClickPause
| Unmount
| Tick (interval : nat)
| Settle (a : Await) (r : Settled string)
| DismissTimeout.

Definition step (st : State) (e : Event) : State :=
  match e with
  | ClickSkip => if decide (phase st = COMPLETED) then st else handleSkip st
  | ClickPause => togglePause st
  | Unmount => cleanup st
  | Tick i => tick i st
  | Settle a r => settle a r st
  | DismissTimeout => dismiss st
  end.

Definition run (es : list Event) (st : State) : State := foldl step st es.

End Component.

End RunMode.

(* ================================================================= *)
(** ** App.tsx *)

Module App.

Record State := {
  timers : list TimerStep;
  status : AppStatus;
  settings : ChainSettings
}.

Definition initial : State :=
  {| timers := [];
     status := SETUP;
     settings := {| alarmSound := bell; alarmVolume := Some (8 # 10)%Q;
                    bufferSeconds := 0 |} |}.

Definition setStatus (v : AppStatus) (app : State) : State :=
  {| timers := timers app; status := v; settings := settings app |}.

Definition handleStart (app : State) : State :=
  if decide (0 < length (timers app))%nat then setStatus RUNNING app else app.

Definition handleExit (app : State) : State := setStatus SETUP app.

End App.

(* ================================================================= *)
(** ** Reference definitions

    Written from the specification's wording, to be compared with the
    embedded code. *)

Module Spec.

(** A count followed by its unit, the unit in the plural unless the
    count is one. *)
Definition quantity (n : Z) (unit : string) : string :=
  pretty n +:+ " " +:+ unit +:+ (if n =? 1 then EmptyString else "s").

(** Human-readable duration: minutes and seconds joined by "and", a part
    being left out when it is zero, and "0 seconds" for zero. *)
Definition phrase (durationSeconds : Z) : string :=
  let m := durationSeconds / 60 in
  let s := durationSeconds mod 60 in
  if m =? 0 then quantity s "second"
  else if s =? 0 then quantity m "minute"
  else quantity m "minute" +:+ " and " +:+ quantity s "second".

(** A string without text: nothing but white space. *)
Fixpoint blank (s : string) : bool :=
  match s with
  | EmptyString => true
  | String c r => Js.isWhiteSpace c && blank r
  end.

End Spec.

(** ** Observations used in the statements *)

Module Obs.
Import GeminiService AudioUtils RunMode.

(** The first [k] attempts of the step-announcement call all fail. *)
Definition fails_first (k : nat) (ai : Gemini) (taskName : string)
  (durationSeconds : Z) : Prop :=
  ∀ n, (n < k)%nat → ∃ e, timerApiCall ai taskName durationSeconds n = Rejected e.

(** [k] failures in a row make the synthesis function reject. *)
Definition surfaces_after (k : nat) : Prop :=
  ∀ ai taskName durationSeconds,
    fails_first k ai taskName durationSeconds →
    ∃ e, (generateTimerAnnouncement ai taskName durationSeconds).1 = Rejected e.

(** The model answers the [n]-th transcription attempt in time, without
    text or with white space only. *)
Definition answers_empty (ai : Gemini) (base64Audio mimeType : string) (n : nat)
  : Prop :=
  ∃ t response,
    ai (transcribeRequest base64Audio mimeType) n = Settles t (Fulfilled response)
    ∧ t < 15000
    ∧ match text response with None => True | Some s => Spec.blank s = true end.

(** An empty transcription makes [transcribeAudio] reject. *)
Definition empty_result_rejects : Prop :=
  ∀ ai base64Audio mimeType,
    answers_empty ai base64Audio mimeType 0 →
    ∃ e, (transcribeAudio ai base64Audio mimeType).1 = Rejected e.

Definition isAttempt (s : RetryStep) : bool :=
  match s with Attempt _ => true | Backoff _ => false end.

Definition attempts (log : list RetryStep) : nat :=
  length (filter (fun s => isAttempt s = true) log).

Definition isSpeechCall (e : Effect) : bool :=
  match e with
  | CallTimerAnnouncement _ _ | CallCompletionAnnouncement => true
  | _ => false
  end.

Definition isDecodeCall (e : Effect) : bool :=
  match e with CallDecode _ => true | _ => false end.

Definition isPlayCall (e : Effect) : bool :=
  match e with CallPlayBuffer _ _ _ => true | _ => false end.

Definition speechCalls (st : State) : nat :=
  length (filter (fun e => isSpeechCall e = true) (calls st)).

Definition decodeCalls (st : State) : nat :=
  length (filter (fun e => isDecodeCall e = true) (calls st)).

Definition playCalls (st : State) : nat :=
  length (filter (fun e => isPlayCall e = true) (calls st)).

(** The generation under which the interval held by [intervalRef] ticks,
    and its completion callback. *)
Definition ticking (st : State) : option Interval :=
  i ← intervalRef st; intervals st !! i.

(** Pausing and resuming a ticking state restarts the tick source under
    a generation above the one the tick source had before the pause. *)
Definition resume_bumps_generation (st : State) : Prop :=
  ∃ before after,
    tickOpId <$> ticking st = Some before
    ∧ tickOpId <$> ticking (togglePause (togglePause st)) = Some after
    ∧ (before < after)%nat.

(** The error notice and its dismissal timer agree. *)
Definition notice_ok (st : State) : Prop :=
  dismissTimer st =
    match Js.truthy (errorMessage st) with Some _ => Some 5000 | None => None end.

(** A failure while preparing a step's announcement: the speech call
    rejects, or its payload does not decode. *)
Definition preparation_fails (r : Settled string) : Prop :=
  match r with
  | Rejected _ => True
  | Fulfilled base64 => ∃ e, decodeGeminiAudio base64 = Rejected e
  end.

End Obs.

(** ** Sample inputs *)

Module Sample.
Import GeminiService AudioUtils RunMode.

Definition plank : TimerStep := {| id := "a"; name := "Plank"; durationSeconds := 90 |}.
Definition stretch : TimerStep := {| id := "b"; name := "Stretch"; durationSeconds := 45 |}.
Definition sprint : TimerStep := {| id := "c"; name := "Sprint"; durationSeconds := 60 |}.

Definition timers : list TimerStep := [plank; stretch; sprint].

Definition settings : ChainSettings :=
  {| alarmSound := bell; alarmVolume := Some (8 # 10)%Q; bufferSeconds := 5 |}.

Definition audio : GenerateContentResponse :=
  {| inlineData := Some "AAD/fw=="; text := None |}.

(** A service that fails three times, then answers. *)
Definition flaky : Gemini :=
  fun _ n => if (n <? 3)%nat then Settles 120 (Rejected "503") else Settles 800 (Fulfilled audio).

(** A service that never answers. *)
Definition down : Gemini := fun _ _ => Hangs.

(** A service that answers a transcription with white space only. *)
Definition silent : Gemini :=
  fun _ _ => Settles 900 (Fulfilled {| inlineData := None; text := Some "  " |}).

(** The first step counting down, its announcement having failed. *)
Definition counting : State :=
  settle timers settings (StepSpeech 0 1) (Rejected "503") (mount timers settings).

(** The first step's alarm sounding, the countdown having run out. *)
Definition ringing : State :=
  run timers settings (replicate 90 (Tick 1)) counting.

End Sample.

(** ** What holds in every state the engine reaches *)

Module Reach.
Import AudioUtils RunMode.

(** What a parked continuation may be: the generation it was started under
    is not ahead of the counter, and the index it will write to the cache
    is within the step list (the completion clip sits at its length). *)
Definition await_ok (timers : list TimerStep) (opId : nat) (a : Await) : Prop :=
  match a with
  | StepSpeech index g => (index < length timers)%nat ∧ (g ≤ opId)%nat
  | StepPlayback _ g _ | CompletionSpeech g | CompletionPlayback g _
  | AlarmDone _ g => (g ≤ opId)%nat
  | PreloadSpeech targetIndex => (targetIndex ≤ length timers)%nat
  end.

(** Every registered interval is the one held by [intervalRef] and ticks
    under the current generation. *)
Definition ticker_ok (st : State) : Prop :=
  ∀ j iv, intervals st !! j = Some iv →
    intervalRef st = Some j ∧ tickOpId iv = opIdRef st.

Definition pending_ok (timers : list TimerStep) (st : State) : Prop :=
  ∀ a, a ∈ pending st → await_ok timers (opIdRef st) a.

(** The index shown is that of a step of the list. *)
Definition index_ok (timers : list TimerStep) (st : State) : Prop :=
  (currentIndex st < length timers)%nat ∨ currentIndex st = 0%nat.

(** The cache holds step indices and the completion sentinel only. *)
Definition cache_ok (timers : list TimerStep) (st : State) : Prop :=
  ∀ i, is_Some (audioCache st !! i) → (i ≤ length timers)%nat.

Definition durations_nonneg (timers : list TimerStep) (settings : ChainSettings)
  : Prop :=
  Forall (fun step => 0 <= durationSeconds step) timers ∧ 0 <= bufferSeconds settings.

Definition Good (timers : list TimerStep) (settings : ChainSettings) (st : State)
  : Prop :=
  ticker_ok st ∧ pending_ok timers st ∧ index_ok timers st ∧ cache_ok timers st
  ∧ (durations_nonneg timers settings → 0 <= remainingSeconds st).

(** [st'] is [st] up to what [Good] does not read, and up to further
    parked continuations that are in order. *)
Definition quiet (timers : list TimerStep) (st st' : State) : Prop :=
  intervals st' = intervals st ∧ intervalRef st' = intervalRef st
  ∧ opIdRef st' = opIdRef st ∧ currentIndex st' = currentIndex st
  ∧ audioCache st' = audioCache st ∧ remainingSeconds st' = remainingSeconds st
  ∧ (∀ a, a ∈ pending st' → a ∈ pending st ∨ await_ok timers (opIdRef st) a).

(** The states of a mounted component. *)
Definition reachable (timers : list TimerStep) (settings : ChainSettings)
  (st : State) : Prop :=
  ∃ es, st = run timers settings es (mount timers settings).

(** The generation a continuation of the sequencing path was started
    under; the prefetch path carries none. *)
Definition generation (a : Await) : option nat :=
  match a with
  | StepSpeech _ g | StepPlayback _ g _ | CompletionSpeech g
  | CompletionPlayback g _ | AlarmDone _ g => Some g
  | PreloadSpeech _ => None
  end.

(** Events that can still occur once the component is unmounted: interval
    firings and settled promises. The buttons are gone, and the dismissal
    timeout is cancelled by the cleanup of its effect. *)
Definition after_exit (e : Event) : Prop :=
  match e with
  | Tick _ | Settle _ _ => True
  | ClickSkip | ClickPause | Unmount | DismissTimeout => False
  end.

(** [st'] shows what [st] showed and has started nothing: the only calls
    added decode speech that was already requested. *)
Definition frozen (st st' : State) : Prop :=
  phase st' = phase st ∧ currentIndex st' = currentIndex st
  ∧ remainingSeconds st' = remainingSeconds st ∧ isPaused st' = isPaused st
  ∧ errorMessage st' = errorMessage st ∧ opIdRef st' = opIdRef st
  ∧ intervals st' = intervals st ∧ intervalRef st' = intervalRef st
  ∧ audioStopRef st' = audioStopRef st
  ∧ (∀ source, source ∈ sources st' → source ∈ sources st)
  ∧ (∀ a, a ∈ pending st' → a ∈ pending st)
  ∧ (∀ e, e ∈ calls st' → e ∈ calls st ∨ Obs.isDecodeCall e = true).

(** Nothing is left to run: no interval is registered and every parked
    continuation of the sequencing path belongs to a superseded
    generation. *)
Definition superseded (st : State) : Prop :=
  intervals st = ∅
  ∧ ∀ a g, a ∈ pending st → generation a = Some g → (g < opIdRef st)%nat.

(** A continuation of the sequencing path that waits for speech or for
    the end of a playback, under generation [opId]. *)
Definition live_seq (opId : nat) (a : Await) : Prop :=
  match a with
  | StepSpeech _ g | CompletionSpeech g | StepPlayback _ g _
  | CompletionPlayback g _ => g = opId
  | AlarmDone _ _ | PreloadSpeech _ => False
  end.

#[export] Instance live_seq_dec opId a : Decision (live_seq opId a).
Proof. destruct a; simpl; apply _. Defined.






End Reach.

(** ** Reading a retry log *)

Module RetryLog.
Import GeminiService.

(** The attempts made, by number, and the waits between them, in order. *)
Definition attempted (log : list RetryStep) : list nat :=
  omap (fun s => match s with Attempt n => Some n | Backoff _ => None end) log.

Definition waits (log : list RetryStep) : list Z :=
  omap (fun s => match s with Backoff d => Some d | Attempt _ => None end) log.

Definition total_wait (log : list RetryStep) : Z := foldr Z.add 0 (waits log).

(** White space at either end of a string. *)
Definition leading_space (s : string) : bool :=
  match s with
  | EmptyString => false
  | String c _ => Js.isWhiteSpace c
  end.

Fixpoint trailing_space (s : string) : bool :=
  match s with
  | EmptyString => false
  | String c EmptyString => Js.isWhiteSpace c
  | String _ r => trailing_space r
  end.

End RetryLog.

(* ================================================================= *)
(** ** TimerSetup (App.tsx) *)

(** [parseInt] with no radix argument. Leading white space is skipped, a
    sign is read, a [0x] prefix selects base 16, and the longest run of
    digits is the value; [None] stands for [NaN]. The value is exact here;
    the engine's is the nearest double, the same below 2^53. *)
Module JsNumber.

Definition digit (radix : Z) (c : ascii) : option Z :=
  let n := Js.code c in
  let v :=
    if (48 <=? n) && (n <=? 57) then Some (n - 48)
    else if (97 <=? n) && (n <=? 122) then Some (n - 97 + 10)
    else if (65 <=? n) && (n <=? 90) then Some (n - 65 + 10)
    else None in
  match v with
  | Some d => if d <? radix then Some d else None
  | None => None
  end.

Fixpoint digits (radix acc : Z) (s : string) : Z :=
  match s with
  | EmptyString => acc
  | String c r =>
      match digit radix c with
      | Some d => digits radix (acc * radix + d) r
      | None => acc
      end
  end.

Definition parseInt (s : string) : option Z :=
  let s := Js.trimStart s in
  let '(sign, s) :=
    match s with
    | String c r =>
        if Js.code c =? 45 then (-1, r)
        else if Js.code c =? 43 then (1, r)
        else (1, s)
    | EmptyString => (1, s)
    end in
  let '(radix, s) :=
    match s with
    | String c0 (String c1 r) =>
        if (Js.code c0 =? 48) && ((Js.code c1 =? 120) || (Js.code c1 =? 88))
        then (16, r) else (10, s)
    | _ => (10, s)
    end in
  match s with
  | EmptyString => None
  | String c _ =>
      match digit radix c with
      | Some _ => Some (sign * digits radix 0 s)
      | None => None
      end
  end.

(** [parseInt(s) || 0]: [NaN] and zero are falsy. *)
Definition parseIntOr0 (s : string) : Z := default 0 (parseInt s).

End JsNumber.

Module TimerSetup.

Record SavedChain := {
  name : string;
  timers : list TimerStep;
  settings : option ChainSettings;
  createdAt : Z
}.

(** The state the handlers read and write: the step list and the settings
    owned by [App], the form fields, the saved routines, and the value kept
    in local storage under [STORAGE_KEY], which is represented by the list
    it serialises ([None] when the key is absent). *)
Record State := {
  app : App.State;
  newName : string;
  newMinutes : string;
  newSeconds : string;
  showLoadModal : bool;
  showSaveInput : bool;
  saveName : string;
  savedChains : list SavedChain;
  storage : option (list SavedChain)
}.

Definition setTimers (v : list TimerStep) (f : State) : State :=
  {| app := {| App.timers := v; App.status := App.status (app f);
               App.settings := App.settings (app f) |};
     newName := newName f; newMinutes := newMinutes f; newSeconds := newSeconds f;
     showLoadModal := showLoadModal f; showSaveInput := showSaveInput f;
     saveName := saveName f; savedChains := savedChains f; storage := storage f |}.

Definition setSettings (v : ChainSettings) (f : State) : State :=
  {| app := {| App.timers := App.timers (app f); App.status := App.status (app f);
               App.settings := v |};
     newName := newName f; newMinutes := newMinutes f; newSeconds := newSeconds f;
     showLoadModal := showLoadModal f; showSaveInput := showSaveInput f;
     saveName := saveName f; savedChains := savedChains f; storage := storage f |}.

Definition setNewFields (n m s : string) (f : State) : State :=
  {| app := app f; newName := n; newMinutes := m; newSeconds := s;
     showLoadModal := showLoadModal f; showSaveInput := showSaveInput f;
     saveName := saveName f; savedChains := savedChains f; storage := storage f |}.

Definition setSaveName (v : string) (f : State) : State :=
  {| app := app f; newName := newName f; newMinutes := newMinutes f;
     newSeconds := newSeconds f; showLoadModal := showLoadModal f;
     showSaveInput := showSaveInput f; saveName := v;
     savedChains := savedChains f; storage := storage f |}.

Definition setShowSaveInput (v : bool) (f : State) : State :=
  {| app := app f; newName := newName f; newMinutes := newMinutes f;
     newSeconds := newSeconds f; showLoadModal := showLoadModal f;
     showSaveInput := v; saveName := saveName f;
     savedChains := savedChains f; storage := storage f |}.

Definition setShowLoadModal (v : bool) (f : State) : State :=
  {| app := app f; newName := newName f; newMinutes := newMinutes f;
     newSeconds := newSeconds f; showLoadModal := v;
     showSaveInput := showSaveInput f; saveName := saveName f;
     savedChains := savedChains f; storage := storage f |}.

Definition setSavedChains (v : list SavedChain) (f : State) : State :=
  {| app := app f; newName := newName f; newMinutes := newMinutes f;
     newSeconds := newSeconds f; showLoadModal := showLoadModal f;
     showSaveInput := showSaveInput f; saveName := saveName f;
     savedChains := v; storage := storage f |}.

(** [localStorage.setItem(STORAGE_KEY, JSON.stringify(v))] *)
Definition setItem (v : list SavedChain) (f : State) : State :=
  {| app := app f; newName := newName f; newMinutes := newMinutes f;
     newSeconds := newSeconds f; showLoadModal := showLoadModal f;
     showSaveInput := showSaveInput f; saveName := saveName f;
     savedChains := savedChains f; storage := Some v |}.

(** The component as first rendered over the state of [App], followed by
    the mount effect that reads the saved routines back. *)
Definition mount (a : App.State) (stored : option (list SavedChain)) : State :=
  let f := {| app := a; newName := EmptyString; newMinutes := "0"; newSeconds := "0";
              showLoadModal := false; showSaveInput := false;
              saveName := EmptyString; savedChains := []; storage := stored |} in
  match stored with
  | Some loaded => setSavedChains loaded f
  | None => f
  end.

(** [uuid] is what [crypto.randomUUID()] returns. *)
Definition addTimer (uuid : string) (f : State) : State :=
  if decide (Js.trim (newName f) = EmptyString) then f
  else
    let duration :=
      JsNumber.parseIntOr0 (newMinutes f) * 60 + JsNumber.parseIntOr0 (newSeconds f) in
    if duration <=? 0 then f
    else
      let newTimer :=
        {| id := uuid; Types.name := newName f; durationSeconds := duration |} in
      setNewFields EmptyString "0" "0"
        (setTimers (App.timers (app f) ++ [newTimer]) f).

Definition removeTimer (id : string) (f : State) : State :=
  setTimers (filter (fun t => Types.id t ≠ id) (App.timers (app f))) f.

Definition duplicateTimer (uuid : string) (timer : TimerStep) (f : State) : State :=
  let newTimer :=
    {| id := uuid; Types.name := Types.name timer;
       durationSeconds := durationSeconds timer |} in
  setTimers (App.timers (app f) ++ [newTimer]) f.

(** The buffer field of the settings panel:
    [Math.max(0, parseInt(e.target.value) || 0)]. *)
Definition setBufferSeconds (value : string) (f : State) : State :=
  let prev := App.settings (app f) in
  setSettings {| alarmSound := alarmSound prev; alarmVolume := alarmVolume prev;
                 bufferSeconds := Z.max 0 (JsNumber.parseIntOr0 value) |} f.

Definition setAlarmSound (sound : AlarmType) (f : State) : State :=
  let prev := App.settings (app f) in
  setSettings {| alarmSound := sound; alarmVolume := alarmVolume prev;
                 bufferSeconds := bufferSeconds prev |} f.

(** [confirmed] is the answer to the overwrite dialog, should it be shown;
    [now] is [Date.now()]. *)
Definition handleSave (confirmed : bool) (now : Z) (f : State) : State :=
  if decide (Js.trim (saveName f) = EmptyString ∨ length (App.timers (app f)) = 0%nat)
  then f
  else
    let newChain :=
      {| name := Js.trim (saveName f); timers := App.timers (app f);
         settings := Some (App.settings (app f)); createdAt := now |} in
    let finish updatedChains :=
      setShowSaveInput false
        (setSaveName EmptyString
           (setItem updatedChains (setSavedChains updatedChains f))) in
    match list_find (fun c => name c = Js.trim (saveName f)) (savedChains f) with
    | Some (existingIndex, _) =>
        if confirmed then finish (<[existingIndex := newChain]> (savedChains f))
        else f
    | None => finish (savedChains f ++ [newChain])
    end.

Definition defaultSettings : ChainSettings :=
  {| alarmSound := bell; alarmVolume := Some (8 # 10)%Q; bufferSeconds := 0 |}.

Definition handleLoad (chain : SavedChain) (f : State) : State :=
  setShowLoadModal false
    (setSettings (default defaultSettings (settings chain))
       (setTimers (timers chain) f)).

Definition handleDeleteChain (chainName : string) (confirmed : bool) (f : State)
  : State :=
  if confirmed then
    let updated := filter (fun c => name c ≠ chainName) (savedChains f) in
    setItem updated (setSavedChains updated f)
  else f.

(** What the user can do in the setup view. The copy and remove buttons
    belong to a listed step, the load and delete buttons to a listed
    routine. *)
Inductive Action :=
| TypeStep (stepName minutes seconds : string)
| TypeSaveName (routine : string)
| TypeBuffer (value : string)
| PickAlarm (sound : AlarmType)
| SubmitStep (uuid : string)
| Remove (k : nat)
| Duplicate (uuid : string) (k : nat)
| Save (confirmed : bool) (now : Z)
| Load (k : nat)
| Delete (k : nat) (confirmed : bool).

Definition act (f : State) (a : Action) : State :=
  match a with
  | TypeStep n m s => setNewFields n m s f
  | TypeSaveName v => setSaveName v f
  | TypeBuffer v => setBufferSeconds v f
  | PickAlarm sound => setAlarmSound sound f
  | SubmitStep uuid => addTimer uuid f
  | Remove k =>
      match App.timers (app f) !! k with
      | Some timer => removeTimer (id timer) f
      | None => f
      end
  | Duplicate uuid k =>
      match App.timers (app f) !! k with
      | Some timer => duplicateTimer uuid timer f
      | None => f
      end
  | Save confirmed now => handleSave confirmed now f
  | Load k =>
      match savedChains f !! k with
      | Some chain => handleLoad chain f
      | None => f
      end
  | Delete k confirmed =>
      match savedChains f !! k with
      | Some chain => handleDeleteChain (name chain) confirmed f
      | None => f
      end
  end.

Definition session (actions : list Action) (f : State) : State := foldl act f actions.

(** *** What the setup view keeps *)

(** A step as the form makes them: a name with some text, a positive
    duration. *)
Definition step_ok (t : TimerStep) : Prop :=
  Js.trim (Types.name t) ≠ EmptyString ∧ 0 < durationSeconds t.

(** A saved routine as the save handler makes them. *)
Definition chain_ok (c : SavedChain) : Prop :=
  name c ≠ EmptyString ∧ timers c ≠ [] ∧ Forall step_ok (timers c)
  ∧ match settings c with
    | Some s => 0 <= bufferSeconds s
    | None => True
    end.

Definition chains_ok (l : list SavedChain) : Prop :=
  Forall chain_ok l ∧ NoDup (name <$> l).

Definition setup_ok (f : State) : Prop :=
  Forall step_ok (App.timers (app f))
  ∧ 0 <= bufferSeconds (App.settings (app f))
  ∧ chains_ok (savedChains f)
  ∧ savedChains f = default [] (storage f).

End TimerSetup.

Module SampleSetup.

Definition typed : TimerSetup.State :=
  TimerSetup.setNewFields " Wash dishes" "2" "30"
    (TimerSetup.mount App.initial None).

Definition spoken : GeminiService.Gemini :=
  fun _ _ =>
    GeminiService.Settles 900
      (Fulfilled {| GeminiService.inlineData := None;
                    GeminiService.text := Some "  Wash dishes " |}).

End SampleSetup.

(* ================================================================= *)
(** * Properties *)

Import GeminiService AudioUtils.

(** ** Strings *)

#[local] Arguments String.append !_ _ / : simpl nomatch.

Lemma append_assoc (a b c : string) : (a +:+ b) +:+ c = a +:+ (b +:+ c).
Proof. induction a as [|x a IH]; simpl; [reflexivity | now rewrite IH]. Qed.

Lemma append_nonempty (a : string) (x : ascii) (b : string) :
  String.eqb (a +:+ String x b) EmptyString = false.
Proof. destruct a; reflexivity. Qed.

Lemma trimStart_blank (s : string) : Spec.blank s = true → Js.trimStart s = EmptyString.
Proof.
  induction s as [|c r IH]; simpl; [reflexivity |].
  intros [Hc Hr]%andb_prop. rewrite Hc. auto.
Qed.

Lemma trim_blank (s : string) : Spec.blank s = true → Js.trim s = EmptyString.
Proof. intros H. unfold Js.trim. now rewrite trimStart_blank. Qed.

(** ** Duration phrases *)

Lemma timeString_minutes_only (d : Z) :
  0 < d / 60 → Z.rem d 60 = 0 →
  timeString d = Spec.quantity (d / 60) "minute".
Proof.
  intros Hm Hs. unfold timeString, Spec.quantity. rewrite Hs.
  apply Z.ltb_lt in Hm. rewrite Hm. simpl.
  now rewrite append_nonempty.
Qed.

Lemma timeString_seconds_only (d : Z) :
  d / 60 <= 0 → 0 < Z.rem d 60 →
  timeString d = Spec.quantity (Z.rem d 60) "second".
Proof.
  intros Hm Hs. unfold timeString, Spec.quantity.
  apply Z.ltb_ge in Hm. apply Z.ltb_lt in Hs. rewrite Hm, Hs. simpl.
  now rewrite append_nonempty.
Qed.

Lemma timeString_both (d : Z) :
  0 < d / 60 → 0 < Z.rem d 60 →
  timeString d =
    Spec.quantity (d / 60) "minute" +:+ " and " +:+ Spec.quantity (Z.rem d 60) "second".
Proof.
  intros Hm Hs. unfold timeString, Spec.quantity.
  apply Z.ltb_lt in Hm. apply Z.ltb_lt in Hs. rewrite Hm, Hs. simpl.
  rewrite !append_assoc. simpl. rewrite !append_assoc. simpl.
  now rewrite append_nonempty.
Qed.

Lemma timeString_neither (d : Z) :
  d / 60 <= 0 → Z.rem d 60 <= 0 → timeString d = "0 seconds".
Proof.
  intros Hm Hs. unfold timeString.
  apply Z.ltb_ge in Hm. apply Z.ltb_ge in Hs. now rewrite Hm, Hs.
Qed.

(** C6. For every non-negative number of seconds the phrase put into the
    step-announcement prompt is the pluralisation-correct English phrase of
    the specification; 0, 45, 60 and 90 seconds give "0 seconds",
    "45 seconds", "1 minute" and "1 minute and 30 seconds". *)
Theorem timeString_phrase (taskName : string) (d : Z) :
  0 <= d →
  timeString d = Spec.phrase d
  ∧ timerPrompt taskName d =
      "Say enthusiastically and clearly: " +:+ Js.quote +:+ "Begin " +:+ taskName
        +:+ " for " +:+ Spec.phrase d +:+ "." +:+ Js.quote
  ∧ timeString 0 = "0 seconds"
  ∧ timeString 45 = "45 seconds"
  ∧ timeString 60 = "1 minute"
  ∧ timeString 90 = "1 minute and 30 seconds".
Proof.
  intros Hd.
  assert (Hphrase : timeString d = Spec.phrase d).
  { assert (Hrem : Z.rem d 60 = d mod 60) by (apply Z.rem_mod_nonneg; lia).
    assert (Hm : 0 <= d / 60) by (apply Z.div_pos; lia).
    assert (Hs : 0 <= d mod 60 < 60) by (apply Z.mod_pos_bound; lia).
    unfold Spec.phrase.
    destruct (Z.eqb_spec (d / 60) 0) as [Hm0|Hm0].
    - destruct (Z.eq_dec (d mod 60) 0) as [Hs0|Hs0].
      + rewrite timeString_neither by lia. now rewrite Hs0.
      + rewrite timeString_seconds_only by lia. now rewrite Hrem.
    - destruct (Z.eqb_spec (d mod 60) 0) as [Hs0|Hs0].
      + now rewrite timeString_minutes_only by lia.
      + rewrite timeString_both by lia. now rewrite Hrem. }
  split; [exact Hphrase |].
  split; [unfold timerPrompt; now rewrite Hphrase |].
  repeat split; reflexivity.
Qed.

Lemma timeString_phrase_witness :
  timeString 150 = "2 minutes and 30 seconds".
Proof.
  rewrite (proj1 (timeString_phrase "Plank" 150 ltac:(lia))). reflexivity.
Defined.

(** ** Retry *)

Section Retry.
Context {T : Type}.
Implicit Types (fn : nat → Settled T).

Lemma retry_all_fail fn retries delay attempt :
  (∀ n, (attempt ≤ n ≤ attempt + retries)%nat → ∃ e, fn n = Rejected e) →
  ∃ e, (retry fn retries delay attempt).1 = Rejected e.
Proof.
  revert delay attempt.
  induction retries as [|r IH]; intros delay attempt Hall; simpl.
  - destruct (Hall attempt ltac:(lia)) as [e ->]. eauto.
  - destruct (Hall attempt ltac:(lia)) as [e ->].
    destruct (IH (delay * 2) (S attempt)) as [e' He'].
    { intros n Hn. apply Hall. lia. }
    destruct (retry fn r (delay * 2) (S attempt)) as [res l]. simpl in *. eauto.
Qed.

Lemma retry_rejected fn retries delay attempt e :
  (retry fn retries delay attempt).1 = Rejected e →
  ∀ n, (attempt ≤ n ≤ attempt + retries)%nat → ∃ e', fn n = Rejected e'.
Proof.
  revert delay attempt.
  induction retries as [|r IH]; intros delay attempt Hrej n Hn; simpl in Hrej.
  - assert (n = attempt) as -> by lia.
    destruct (fn attempt); simpl in Hrej; [discriminate | eauto].
  - destruct (fn attempt) as [v|e0] eqn:Hfn; simpl in Hrej; [discriminate |].
    destruct (decide (n = attempt)) as [->|Hne]; [eauto |].
    destruct (retry fn r (delay * 2) (S attempt)) as [res l] eqn:Hr.
    simpl in Hrej. apply (IH (delay * 2) (S attempt)); [now rewrite Hr | lia].
Qed.

Lemma retry_first_success fn retries delay attempt v :
  fn attempt = Fulfilled v →
  retry fn retries delay attempt = (Fulfilled v, [Attempt attempt]).
Proof. intros H. destruct retries; simpl; now rewrite H. Qed.

Lemma retry_attempts_le fn retries delay attempt :
  (Obs.attempts (retry fn retries delay attempt).2 ≤ S retries)%nat.
Proof.
  revert delay attempt.
  induction retries as [|r IH]; intros delay attempt; simpl.
  - destruct (fn attempt); simpl; unfold Obs.attempts; simpl; lia.
  - destruct (fn attempt); [unfold Obs.attempts; simpl; lia |].
    specialize (IH (delay * 2) (S attempt)).
    destruct (retry fn r (delay * 2) (S attempt)) as [res l]. simpl in *.
    unfold Obs.attempts in *. rewrite !filter_cons. simpl.
    repeat case_decide; simpl; try congruence; lia.
Qed.

End Retry.

Lemma four_failures_log ai taskName d :
  Obs.fails_first 4 ai taskName d →
  ∃ e, generateTimerAnnouncement ai taskName d =
         (Rejected e,
          [Attempt 0; Backoff 1000; Attempt 1; Backoff 2000; Attempt 2;
           Backoff 4000; Attempt 3]).
Proof.
  intros H. unfold generateTimerAnnouncement. simpl.
  destruct (H 0%nat ltac:(lia)) as [e0 ->].
  destruct (H 1%nat ltac:(lia)) as [e1 ->].
  destruct (H 2%nat ltac:(lia)) as [e2 ->].
  destruct (H 3%nat ltac:(lia)) as [e3 ->].
  eauto.
Qed.

(** ** Transcription *)

Lemma transcribeApiCall_rejected ai base64Audio mimeType n e :
  transcribeApiCall ai base64Audio mimeType n = Rejected e ↔
  withTimeout (ai (transcribeRequest base64Audio mimeType) n) 15000
    "Transcription timed out" = Rejected e.
Proof.
  unfold transcribeApiCall.
  destruct (withTimeout _ _ _); split; intros H; congruence.
Qed.

Lemma transcribeApiCall_empty ai base64Audio mimeType n :
  Obs.answers_empty ai base64Audio mimeType n →
  transcribeApiCall ai base64Audio mimeType n = Fulfilled EmptyString.
Proof.
  intros (t & response & Hai & Ht & Htext).
  unfold transcribeApiCall, withTimeout. rewrite Hai.
  apply Z.ltb_lt in Ht. rewrite Ht.
  destruct (text response) as [s|]; simpl; [| reflexivity].
  now rewrite trim_blank.
Qed.

(** C5, as stated, fails: a transcription that comes back as white space
    only is returned as the empty string. *)
Lemma transcribeAudio_empty_resolves : ¬ Obs.empty_result_rejects.
Proof.
  intros H.
  destruct (H Sample.silent "UklGRg==" "audio/webm") as [e He].
  - exists 900, {| inlineData := None; text := Some "  " |}.
    split; [reflexivity | split; [lia | reflexivity]].
  - vm_compute in He. discriminate.
Qed.

(** C5, amended. [transcribeAudio] rejects exactly when the first attempt
    and both retries fail or time out; when an attempt is answered without
    text, or with white space only, it resolves with the empty string. *)
Theorem transcribeAudio_outcomes ai base64Audio mimeType :
  ((∃ e, (transcribeAudio ai base64Audio mimeType).1 = Rejected e) ↔
   (∀ n, (n < 3)%nat →
      ∃ e, withTimeout (ai (transcribeRequest base64Audio mimeType) n) 15000
             "Transcription timed out" = Rejected e))
  ∧ (Obs.answers_empty ai base64Audio mimeType 0 →
     transcribeAudio ai base64Audio mimeType = (Fulfilled EmptyString, [Attempt 0]))
  ∧ (Obs.attempts (transcribeAudio ai base64Audio mimeType).2 ≤ 3)%nat.
Proof.
  split; [split |split].
  - intros [e He] n Hn.
    destruct (retry_rejected _ _ _ _ _ He n ltac:(lia)) as [e' He'].
    exists e'. now apply transcribeApiCall_rejected.
  - intros Hall. apply retry_all_fail. intros n Hn.
    destruct (Hall n ltac:(lia)) as [e He].
    exists e. now apply transcribeApiCall_rejected.
  - intros Hempty. apply retry_first_success.
    now apply transcribeApiCall_empty.
  - apply retry_attempts_le.
Qed.

Lemma transcribeAudio_outcomes_witness :
  (∃ e, (transcribeAudio Sample.down "UklGRg==" "audio/webm").1 = Rejected e)
  ∧ transcribeAudio Sample.silent "UklGRg==" "audio/webm"
    = (Fulfilled EmptyString, [Attempt 0]).
Proof.
  split.
  - apply (proj1 (transcribeAudio_outcomes Sample.down "UklGRg==" "audio/webm")).
    intros n _. eexists. reflexivity.
  - apply (proj1 (proj2 (transcribeAudio_outcomes Sample.silent "UklGRg==" "audio/webm"))).
    exists 900, {| inlineData := None; text := Some "  " |}.
    split; [reflexivity | split; [lia | reflexivity]].
Defined.

(** ** PCM decoding *)

Lemma int16_range lo hi :
  0 <= lo < 256 → 0 <= hi < 256 →
  -32768 <= int16 lo hi < 32768 ∧ int16 lo hi mod 65536 = lo + 256 * hi.
Proof.
  intros Hlo Hhi. unfold int16.
  destruct (Z.ltb_spec (lo + 256 * hi) 32768).
  - split; [lia |]. apply Z.mod_small. lia.
  - split; [lia |].
    replace (lo + 256 * hi - 65536) with (lo + 256 * hi + (-1) * 65536) by lia.
    rewrite Z.mod_add by lia. apply Z.mod_small. lia.
Qed.

Lemma list_pair_ind {A} (P : list A → Prop) :
  P [] → (∀ x, P [x]) → (∀ x y l, P l → P (x :: y :: l)) → ∀ l, P l.
Proof.
  intros Hnil Hone Hstep.
  fix IH 1. intros [|x [|y l]]; [exact Hnil | apply Hone | apply Hstep, IH].
Qed.

Lemma int16Array_length bytes :
  length (int16Array bytes) = (length bytes / 2)%nat.
Proof.
  induction bytes as [| x | x y l IH] using list_pair_ind; [reflexivity.. |].
  cbn [int16Array length]. rewrite IH.
  replace (S (S (length l))) with (length l + 1 * 2)%nat by lia.
  rewrite Nat.div_add by lia. lia.
Qed.

Lemma int16Array_lookup bytes k lo hi :
  bytes !! (2 * k)%nat = Some lo → bytes !! (2 * k + 1)%nat = Some hi →
  int16Array bytes !! k = Some (int16 lo hi).
Proof.
  revert bytes. induction k as [|k IH]; intros [|x [|y l]] Hlo Hhi;
    simpl in *; try discriminate.
  - congruence.
  - replace (k + S (k + 0))%nat with (S (2 * k)) in Hlo by lia.
    replace (k + S (k + 0) + 1)%nat with (S (2 * k + 1)) in Hhi by lia.
    simpl in Hlo, Hhi. apply IH; assumption.
Qed.

Lemma safeLen_spec (len : nat) :
  safeLen len = (if Nat.even len then len else len - 1)%nat
  ∧ (safeLen len / 2 = len / 2)%nat ∧ (safeLen len ≤ len)%nat
  ∧ (∀ k, (2 * k + 1 < len)%nat → (2 * k + 1 < safeLen len)%nat).
Proof.
  unfold safeLen.
  destruct (Nat.even len) eqn:Heven.
  - apply Nat.even_spec in Heven as [m ->].
    replace (2 * m mod 2)%nat with 0%nat
      by (symmetry; rewrite Nat.mul_comm; apply Nat.Div0.mod_mul).
    simpl. repeat split; lia.
  - assert (Hodd : Nat.odd len = true) by (rewrite <- Nat.negb_even, Heven; reflexivity).
    apply Nat.odd_spec in Hodd as [m ->].
    replace ((2 * m + 1) mod 2)%nat with 1%nat.
    2:{ symmetry. rewrite Nat.add_comm, Nat.mul_comm, Nat.Div0.mod_add. reflexivity. }
    simpl Nat.eqb. cbv iota.
    replace (2 * m + 1 - 1)%nat with (m * 2)%nat by lia.
    rewrite Nat.div_mul by lia.
    replace (2 * m + 1)%nat with (1 + m * 2)%nat by lia.
    rewrite Nat.div_add by lia. simpl. repeat split; lia.
Qed.

Lemma safeLen_idem (len : nat) : safeLen (safeLen len) = safeLen len.
Proof.
  unfold safeLen.
  destruct (Nat.eqb_spec (len mod 2) 0) as [H0|H0].
  - rewrite <- Nat.eqb_eq in H0. now rewrite H0.
  - assert (H1 : ((len - 1) mod 2 = 0)%nat).
    { pose proof (Nat.div_mod_eq len 2). pose proof (Nat.mod_upper_bound len 2).
      pose proof (Nat.div_mod_eq (len - 1) 2).
      pose proof (Nat.mod_upper_bound (len - 1) 2). lia. }
    rewrite <- Nat.eqb_eq in H1. now rewrite H1.
Qed.

Lemma samples_range binaryString k q :
  samples binaryString !! k = Some q → (-1 <= q)%Q ∧ (q < 1)%Q.
Proof.
  unfold samples, dataInt16. rewrite list_lookup_fmap.
  destruct (int16Array _ !! k) as [v|] eqn:Hv; [| discriminate].
  intros [= <-].
  assert (Hrange : -32768 <= v < 32768).
  { revert k Hv. generalize (safeLen (length binaryString)). intros n.
    unfold uint8Array. generalize (take n binaryString). clear. intros l.
    induction l as [| x | x y l IH] using list_pair_ind; intros k Hv;
      try (destruct k; discriminate).
    destruct k as [|k]; simpl in Hv.
    - injection Hv as <-.
      apply int16_range; apply Z.mod_pos_bound; lia.
    - eapply IH, Hv. }
  unfold Qle, Qlt. simpl. lia.
Qed.

Lemma decodeBinary_prefix (a b : list Z) :
  length a = length b →
  take (safeLen (length a)) a = take (safeLen (length b)) b →
  decodeBinary a = decodeBinary b.
Proof.
  intros Hlen Htake.
  assert (Hdata : dataInt16 a = dataInt16 b).
  { unfold dataInt16, uint8Array. now rewrite Htake. }
  unfold decodeBinary, samples. now rewrite Hdata.
Qed.

(** C8. Decoding a payload whose binary string has length [L], with
    [2 <= L]: the first [L] bytes are read when [L] is even and the first
    [L - 1] when [L] is odd, so that a payload differing only in the
    trailing odd byte decodes to the same result; they are read as
    little-endian signed 16-bit samples, and the buffer handed back, mono
    at 24 kHz, holds [L / 2] samples, each the integer sample divided by
    32768, hence in [-1, 1). With [L < 2] there is no frame: the buffer is
    refused and the decoding rejects. *)
Theorem decode_pcm (base64String : string) (binaryString : list Z) :
  Js.atob base64String = Some binaryString →
  let L := length binaryString in
  safeLen L = (if Nat.even L then L else L - 1)%nat
  ∧ (∀ base64' binaryString',
       Js.atob base64' = Some binaryString' → length binaryString' = L →
       take (safeLen L) binaryString' = take (safeLen L) binaryString →
       decodeGeminiAudio base64' = decodeGeminiAudio base64String)
  ∧ ((2 ≤ L)%nat →
       ∃ buffer, decodeGeminiAudio base64String = Fulfilled buffer
         ∧ numberOfChannels buffer = 1 ∧ sampleRate buffer = 24000
         ∧ channelData buffer = samples (take (safeLen L) binaryString)
         ∧ length (channelData buffer) = (L / 2)%nat
         ∧ (∀ k lo hi,
              binaryString !! (2 * k)%nat = Some lo →
              binaryString !! (2 * k + 1)%nat = Some hi →
              channelData buffer !! k
              = Some (int16 (lo mod 256) (hi mod 256) # 32768)
              ∧ -32768 <= int16 (lo mod 256) (hi mod 256) < 32768
              ∧ int16 (lo mod 256) (hi mod 256) mod 65536
                = lo mod 256 + 256 * (hi mod 256))
         ∧ (∀ k q, channelData buffer !! k = Some q → (-1 <= q)%Q ∧ (q < 1)%Q))
  ∧ ((L < 2)%nat → decodeGeminiAudio base64String = Rejected "NotSupportedError").
Proof.
  intros Hatob L. subst L.
  destruct (safeLen_spec (length binaryString)) as (Heven & Hhalf & Hle & Hin).
  assert (Hlen : length (dataInt16 binaryString) = (length binaryString / 2)%nat).
  { unfold dataInt16, uint8Array.
    rewrite int16Array_length, length_fmap, length_take_le by exact Hle.
    exact Hhalf. }
  assert (Htake : samples binaryString
                  = samples (take (safeLen (length binaryString)) binaryString)).
  { unfold samples, dataInt16, uint8Array.
    rewrite length_take_le by exact Hle.
    assert (Hidem : safeLen (safeLen (length binaryString)) = safeLen (length binaryString))
      by apply safeLen_idem.
    rewrite Hidem, take_take, Nat.min_id. reflexivity. }
  split; [exact Heven |]. split; [| split].
  - intros base64' binaryString' Hatob' Hlen' Hprefix.
    unfold decodeGeminiAudio. rewrite Hatob, Hatob'.
    apply decodeBinary_prefix; [exact Hlen' |]. now rewrite Hlen'.
  - intros HL.
    assert (Hdecode : decodeGeminiAudio base64String
                      = Fulfilled {| numberOfChannels := 1; sampleRate := 24000;
                                     channelData := samples binaryString |}).
    { unfold decodeGeminiAudio. rewrite Hatob. unfold decodeBinary, createBuffer.
      rewrite Hlen. destruct (length binaryString / 2)%nat eqn:Hdiv; [| reflexivity].
      apply Nat.div_small_iff in Hdiv; lia. }
    eexists. split; [exact Hdecode |].
    cbn [numberOfChannels sampleRate channelData].
    split; [reflexivity |]. split; [reflexivity |]. split; [exact Htake |].
    split; [unfold samples; rewrite length_fmap; exact Hlen |]. split.
    + intros k lo hi Hlo Hhi.
      assert (Hk : (2 * k + 1 < length binaryString)%nat)
        by (eapply lookup_lt_Some; exact Hhi).
      specialize (Hin k Hk).
      split.
      * unfold samples, dataInt16, uint8Array. rewrite list_lookup_fmap.
        erewrite int16Array_lookup; [reflexivity | |].
        -- rewrite list_lookup_fmap, lookup_take_lt by lia. now rewrite Hlo.
        -- rewrite list_lookup_fmap, lookup_take_lt by lia. now rewrite Hhi.
      * apply int16_range; apply Z.mod_pos_bound; lia.
    + apply samples_range.
  - intros HL. unfold decodeGeminiAudio. rewrite Hatob.
    unfold decodeBinary, createBuffer. rewrite Hlen.
    rewrite Nat.div_small by exact HL. reflexivity.
Qed.

Lemma decode_pcm_witness :
  Js.atob "AAD/fwE=" = Some [0; 0; 255; 127; 1]
  ∧ ∃ buffer, decodeGeminiAudio "AAD/fwE=" = Fulfilled buffer
      ∧ channelData buffer !! 1%nat = Some (32767 # 32768)
      ∧ length (channelData buffer) = 2%nat.
Proof.
  split; [reflexivity |].
  destruct (decode_pcm "AAD/fwE=" [0; 0; 255; 127; 1] eq_refl)
    as (_ & _ & Hbuffer & _).
  destruct Hbuffer as (buffer & Hdecode & _ & _ & _ & Hlength & Hsample & _);
    [simpl; lia |].
  exists buffer. split; [exact Hdecode |].
  split; [exact (proj1 (Hsample 1%nat 255 127 eq_refl eq_refl)) | exact Hlength].
Defined.

(** A payload of a single byte holds no whole sample: no buffer comes
    back, the decoding rejects. *)
Lemma decode_single_byte_rejects :
  Js.atob "AA==" = Some [0]
  ∧ decodeGeminiAudio "AA==" = Rejected "NotSupportedError"
  ∧ ¬ ∃ buffer, decodeGeminiAudio "AA==" = Fulfilled buffer.
Proof.
  split; [reflexivity |]. split; [reflexivity |].
  intros [buffer Hbuffer]. discriminate Hbuffer.
Qed.

(** ** The start guard *)

(** C9. With an empty step list the start operation leaves the status
    where it was, [SETUP], and does not reach [RUNNING]; with a non-empty
    list it sets the status to [RUNNING]. *)
Theorem handleStart_guard (app : App.State) :
  (length (App.timers app) = 0%nat →
     App.handleStart app = app
     ∧ (App.status app = SETUP →
        App.status (App.handleStart app) = SETUP
        ∧ App.status (App.handleStart app) ≠ RUNNING))
  ∧ (length (App.timers app) ≠ 0%nat →
     App.status (App.handleStart app) = RUNNING
     ∧ App.timers (App.handleStart app) = App.timers app).
Proof.
  unfold App.handleStart. split; intros Hlen.
  - case_decide; [lia |]. split; [reflexivity |]. intros ->. split; [reflexivity | discriminate].
  - case_decide; [| lia]. split; reflexivity.
Qed.

Lemma handleStart_guard_witness :
  App.status (App.handleStart App.initial) = SETUP
  ∧ App.status
      (App.handleStart
         {| App.timers := Sample.timers; App.status := SETUP;
            App.settings := Sample.settings |}) = RUNNING.
Proof.
  split.
  - apply (proj1 (handleStart_guard App.initial)); reflexivity.
  - apply (proj2 (handleStart_guard
                    {| App.timers := Sample.timers; App.status := SETUP;
                       App.settings := Sample.settings |})).
    discriminate.
Defined.

(** ** The sequencing engine *)

Import RunMode.

Ltac unfold_engine :=
  unfold handleSkip, togglePause, cleanup, dismiss, runSequence, startSilently,
    announce, playCompletion, finish, handleStepComplete, preloadNextAudio,
    preloadSettled, startTimer, stopEverything, setErrorMessage,
    playAudioBuffer, clearInterval, stop, await, log in *.

Ltac engine_cases :=
  unfold_engine; repeat (case_decide || case_match); simplify_eq/=.

Lemma setErrorMessage_notice v st :
  Obs.notice_ok st → Obs.notice_ok (setErrorMessage v st).
Proof.
  unfold Obs.notice_ok, setErrorMessage. intros Hok.
  case_decide; [exact Hok | reflexivity].
Qed.

Lemma notice_frame st st' :
  errorMessage st' = errorMessage st → dismissTimer st' = dismissTimer st →
  Obs.notice_ok st → Obs.notice_ok st'.
Proof. unfold Obs.notice_ok. intros -> ->. auto. Qed.

(** *** The entry of [runSequence] *)

Lemma stopEverything_effect st :
  let st' := stopEverything st in
  audioStopRef st' = None ∧ intervalRef st' = None
  ∧ (∀ i, intervalRef st = Some i → intervals st' !! i = None)
  ∧ currentIndex st' = currentIndex st ∧ opIdRef st' = opIdRef st
  ∧ errorMessage st' = errorMessage st ∧ dismissTimer st' = dismissTimer st
  ∧ audioCache st' = audioCache st
  ∧ nextSource st' = nextSource st
  ∧ (∀ source, audioStopRef st = Some source → source ∉ sources st').
Proof.
  engine_cases; repeat split; try reflexivity; try assumption;
    try (intros i Hi; simplify_eq; apply lookup_delete_eq);
    intros source Hs; simplify_eq; rewrite list_elem_of_filter; tauto.
Qed.

Lemma entry_effect st :
  let st' := set_isPaused false
               (setErrorMessage None
                  (stopEverything (set_opIdRef (S (opIdRef st)) st))) in
  opIdRef st' = S (opIdRef st)
  ∧ currentIndex st' = currentIndex st
  ∧ isPaused st' = false
  ∧ audioStopRef st' = None ∧ intervalRef st' = None
  ∧ (∀ i, intervalRef st = Some i → intervals st' !! i = None)
  ∧ audioCache st' = audioCache st
  ∧ (Obs.notice_ok st → Obs.notice_ok st')
  ∧ nextSource st' = nextSource st
  ∧ (∀ source, audioStopRef st = Some source → source ∉ sources st').
Proof.
  pose proof (stopEverything_effect (set_opIdRef (S (opIdRef st)) st))
    as (Hstop & Hint & Hclr & Hidx & Hop & Hmsg & Htimer & Hcache & Hnext & Hsil).
  set (s := stopEverything _) in *.
  simpl in Hclr, Hidx, Hop, Hmsg, Htimer, Hcache, Hnext, Hsil.
  assert (Hok : Obs.notice_ok st → Obs.notice_ok (setErrorMessage None s)).
  { intros H. apply setErrorMessage_notice.
    unfold Obs.notice_ok in *. now rewrite Hmsg, Htimer. }
  unfold setErrorMessage in *. cbv zeta. case_decide; simpl; auto 12.
Qed.

(** Brings the state after the entry of [runSequence] into the context,
    as [s] with its properties [H]. *)
Ltac enter_runSequence st s H :=
  pose proof (entry_effect st) as H; cbv zeta in H;
  unfold handleSkip, runSequence; cbv zeta;
  set (s := set_isPaused false _) in *; clearbody s.

Ltac branch_cases :=
  unfold announce, playCompletion, playAudioBuffer, await, log;
  repeat (case_decide || case_match); simplify_eq/=.

(** *** Generations *)

Lemma runSequence_opIdRef timers settings index st :
  opIdRef (runSequence timers settings index st) = S (opIdRef st).
Proof.
  enter_runSequence st s H. destruct H as (Hop & _).
  branch_cases; assumption.
Qed.

Lemma togglePause_opIdRef st : opIdRef (togglePause st) = opIdRef st.
Proof. engine_cases; reflexivity. Qed.

Lemma cleanup_opIdRef st : opIdRef (cleanup st) = S (opIdRef st).
Proof. engine_cases; reflexivity. Qed.

Lemma startTimer_ticking duration myOpId cb st :
  Obs.ticking (startTimer duration myOpId cb st)
  = Some {| tickOpId := myOpId; onComplete := cb |}.
Proof.
  unfold Obs.ticking. engine_cases; apply lookup_insert_eq.
Qed.

(** C1, as stated, fails: after a pause and a resume the first step of the
    sample routine ticks under generation 1, the generation it ticked
    under before the pause. *)
Lemma resume_generation_not_fresh : ¬ Obs.resume_bumps_generation Sample.counting.
Proof.
  intros (before & after & Hbefore & Hafter & Hlt).
  vm_compute in Hbefore, Hafter. simplify_eq. lia.
Qed.

(** C1, amended. The generation counter strictly increases on a skip, on
    every call of the advancing operation and on teardown; pause and
    resume leave it unchanged. A resume from pause in Countdown or Buffer
    restarts the tick source from the retained seconds under the current
    generation, the same value as before the pause. *)
Theorem resume_keeps_generation timers settings st :
  isPaused st = true →
  phase st = COUNTDOWN ∨ phase st = BUFFER →
  let st' := togglePause st in
  opIdRef st' = opIdRef st
  ∧ isPaused st' = false
  ∧ phase st' = phase st
  ∧ remainingSeconds st' = remainingSeconds st
  ∧ Obs.ticking st' =
      Some {| tickOpId := opIdRef st;
              onComplete := Resumed (phase st) (currentIndex st) |}
  ∧ opIdRef (handleSkip timers settings st) = S (opIdRef st)
  ∧ (∀ index, opIdRef (runSequence timers settings index st) = S (opIdRef st))
  ∧ opIdRef (cleanup st) = S (opIdRef st)
  ∧ (∀ s, opIdRef (togglePause s) = opIdRef s).
Proof.
  intros Hpaused Hphase st'.
  assert (Hst' : st' = startTimer (remainingSeconds st) (opIdRef st)
                         (Resumed (phase st) (currentIndex st))
                         (set_isPaused false st)).
  { subst st'. unfold togglePause. rewrite Hpaused.
    case_decide as Hd; [| reflexivity]. destruct Hd, Hphase; congruence. }
  split; [apply togglePause_opIdRef |].
  split; [rewrite Hst'; engine_cases; reflexivity |].
  split; [rewrite Hst'; engine_cases; reflexivity |].
  split; [rewrite Hst'; engine_cases; reflexivity |].
  split; [rewrite Hst'; apply startTimer_ticking |].
  split; [apply runSequence_opIdRef |].
  split; [intros index; apply runSequence_opIdRef |].
  split; [apply cleanup_opIdRef | apply togglePause_opIdRef].
Qed.

Lemma resume_keeps_generation_witness :
  let paused := togglePause Sample.counting in
  opIdRef (togglePause paused) = 1%nat
  ∧ tickOpId <$> Obs.ticking (togglePause paused) = Some 1%nat
  ∧ opIdRef (handleSkip Sample.timers Sample.settings paused) = 2%nat.
Proof.
  intros paused.
  destruct (resume_keeps_generation Sample.timers Sample.settings paused)
    as (Hgen & _ & _ & _ & Htick & Hskip & _); [reflexivity | left; reflexivity |].
  split; [exact Hgen |]. split; [now rewrite Htick | exact Hskip].
Defined.

(** *** Skipping *)

Lemma runSequence_advances timers settings index st :
  let st' := runSequence timers settings index st in
  ((index < length timers)%nat →
     currentIndex st' = index
     ∧ (phase st' = PREPARING_AUDIO ∨ phase st' = ANNOUNCING))
  ∧ ((length timers ≤ index)%nat →
     currentIndex st' = currentIndex st ∧ phase st' = COMPLETION_ANNOUNCEMENT)
  ∧ (∀ i, intervalRef st = Some i → intervals st' !! i = None)
  ∧ Obs.ticking st' = None
  ∧ isPaused st' = false
  ∧ opIdRef st' = S (opIdRef st).
Proof.
  cbv zeta. unfold Obs.ticking.
  enter_runSequence st s H.
  destruct H as (Hop & Hidx & Hpaused & Hstop & Hint & Hclr & _).
  split; [| split; [| split; [| split; [| split]]]].
  - intros Hlt. destruct (lookup_lt_is_Some_2 timers _ Hlt) as [step Hstep].
    branch_cases; try lia; auto.
  - intros Hge. branch_cases; try lia; auto.
  - intros i Hi. specialize (Hclr i Hi). branch_cases; assumption.
  - branch_cases; rewrite Hint; reflexivity.
  - branch_cases; assumption.
  - branch_cases; assumption.
Qed.

(** A skip silences the announcement that was playing: the source behind
    the stop handle is no longer sounding afterwards. *)
Lemma handleSkip_silences timers settings st source :
  audioStopRef st = Some source → (source < nextSource st)%nat →
  source ∉ sources (handleSkip timers settings st).
Proof.
  intros Hstop Hfresh.
  enter_runSequence st s H.
  destruct H as (_ & _ & _ & _ & _ & _ & _ & _ & Hnext & Hsil).
  specialize (Hsil source Hstop).
  branch_cases; try assumption;
    rewrite elem_of_app, list_elem_of_singleton; intros [Hin | Heq];
    try contradiction; lia.
Qed.

Lemma handleSkip_advances timers settings st :
  let st' := handleSkip timers settings st in
  ((currentIndex st + 1 < length timers)%nat →
     currentIndex st' = (currentIndex st + 1)%nat
     ∧ (phase st' = PREPARING_AUDIO ∨ phase st' = ANNOUNCING))
  ∧ ((length timers ≤ currentIndex st + 1)%nat →
     currentIndex st' = currentIndex st ∧ phase st' = COMPLETION_ANNOUNCEMENT)
  ∧ (∀ i, intervalRef st = Some i → intervals st' !! i = None)
  ∧ Obs.ticking st' = None
  ∧ isPaused st' = false
  ∧ opIdRef st' = S (opIdRef st).
Proof. apply runSequence_advances. Qed.

Lemma settle_pending timers settings a r st :
  a ∈ pending st →
  settle timers settings a r st
  = resume timers settings a r (set_pending (remove_first a (pending st)) st).
Proof. intros Hin. unfold settle. now rewrite decide_True. Qed.

Lemma alarm_then_buffer timers settings i r st :
  (i + 1 < length timers)%nat → 0 < bufferSeconds settings →
  let st' := resume timers settings (AlarmDone i (opIdRef st)) r st in
  phase st' = BUFFER ∧ currentIndex st' = (i + 1)%nat
  ∧ remainingSeconds st' = bufferSeconds settings
  ∧ opIdRef st' = opIdRef st.
Proof.
  intros Hlt Hbuf. simpl. unfold totalSteps.
  rewrite decide_False by auto.
  rewrite decide_True by auto.
  engine_cases; auto.
Qed.

(** C2 at its failing input. When the alarm of step [i] is over and a rest
    interval begins, the run shows index [i + 1] in phase [BUFFER]; a skip
    pressed then starts step [i + 2] (or the completion announcement when
    there is none), so that step [i + 1] is passed over without any of its
    phases being entered. *)
Theorem skip_during_buffer_passes_over timers settings i r st :
  (i + 1 < length timers)%nat →
  0 < bufferSeconds settings →
  AlarmDone i (opIdRef st) ∈ pending st →
  let resting := settle timers settings (AlarmDone i (opIdRef st)) r st in
  let skipped := handleSkip timers settings resting in
  phase resting = BUFFER
  ∧ currentIndex resting = (i + 1)%nat
  ∧ ((i + 2 < length timers)%nat →
       currentIndex skipped = (i + 2)%nat
       ∧ (phase skipped = PREPARING_AUDIO ∨ phase skipped = ANNOUNCING))
  ∧ ((length timers ≤ i + 2)%nat → phase skipped = COMPLETION_ANNOUNCEMENT).
Proof.
  intros Hlt Hbuf Hin resting skipped.
  assert (Hrest : phase resting = BUFFER ∧ currentIndex resting = (i + 1)%nat).
  { subst resting. rewrite settle_pending by exact Hin.
    pose proof (alarm_then_buffer timers settings i r
                  (set_pending (remove_first (AlarmDone i (opIdRef st)) (pending st)) st)
                  Hlt Hbuf) as H.
    simpl in H. simpl. tauto. }
  destruct Hrest as [Hphase Hindex].
  pose proof (handleSkip_advances timers settings resting) as (Hstep & Hdone & _).
  fold skipped in Hstep, Hdone. rewrite Hindex in Hstep, Hdone.
  split; [exact Hphase |]. split; [exact Hindex |].
  replace (i + 2)%nat with (i + 1 + 1)%nat by lia.
  split.
  - exact Hstep.
  - intros H2. apply Hdone. exact H2.
Qed.

Lemma skip_during_buffer_passes_over_witness :
  let resting :=
    settle Sample.timers Sample.settings (AlarmDone 0 1) (Fulfilled EmptyString)
      Sample.ringing in
  phase resting = BUFFER
  ∧ currentIndex resting = 1%nat
  ∧ currentIndex (handleSkip Sample.timers Sample.settings resting) = 2%nat.
Proof.
  intros resting.
  destruct (skip_during_buffer_passes_over Sample.timers Sample.settings 0
              (Fulfilled EmptyString) Sample.ringing)
    as (Hphase & Hindex & Hskip & _).
  - simpl. lia.
  - reflexivity.
  - vm_compute. apply list_elem_of_In. simpl. auto.
  - split; [exact Hphase |]. split; [exact Hindex |].
    apply Hskip. simpl. lia.
Defined.

(** *** Calls made by the component *)

Lemma playCalls_log e st :
  Obs.isPlayCall e = false → Obs.playCalls (log e st) = Obs.playCalls st.
Proof.
  intros He. unfold Obs.playCalls, log. simpl.
  rewrite filter_app, filter_cons_False by (rewrite He; discriminate).
  rewrite filter_nil, app_nil_r. reflexivity.
Qed.

Lemma playCalls_await a st : Obs.playCalls (await a st) = Obs.playCalls st.
Proof. reflexivity. Qed.

Lemma speechCalls_log e st :
  Obs.speechCalls (log e st)
  = (Obs.speechCalls st + (if Obs.isSpeechCall e then 1 else 0))%nat.
Proof.
  unfold Obs.speechCalls, log. simpl.
  rewrite filter_app, length_app.
  destruct (Obs.isSpeechCall e) eqn:He.
  - rewrite filter_cons_True by (rewrite He; reflexivity). reflexivity.
  - rewrite filter_cons_False by (rewrite He; discriminate). reflexivity.
Qed.

Lemma decodeCalls_log e st :
  Obs.decodeCalls (log e st)
  = (Obs.decodeCalls st + (if Obs.isDecodeCall e then 1 else 0))%nat.
Proof.
  unfold Obs.decodeCalls, log. simpl.
  rewrite filter_app, length_app.
  destruct (Obs.isDecodeCall e) eqn:He.
  - rewrite filter_cons_True by (rewrite He; reflexivity). reflexivity.
  - rewrite filter_cons_False by (rewrite He; discriminate). reflexivity.
Qed.

(** *** Pre-loading *)

Lemma preloadNextAudio_frame timers targetIndex st :
  let st' := preloadNextAudio timers targetIndex st in
  currentIndex st' = currentIndex st ∧ phase st' = phase st
  ∧ remainingSeconds st' = remainingSeconds st ∧ isPaused st' = isPaused st
  ∧ errorMessage st' = errorMessage st ∧ dismissTimer st' = dismissTimer st
  ∧ opIdRef st' = opIdRef st ∧ audioStopRef st' = audioStopRef st
  ∧ intervalRef st' = intervalRef st ∧ intervals st' = intervals st
  ∧ sources st' = sources st ∧ audioCache st' = audioCache st
  ∧ Obs.playCalls st' = Obs.playCalls st.
Proof.
  unfold preloadNextAudio.
  repeat (case_decide || case_match); simpl;
    rewrite ?playCalls_await, ?playCalls_log by reflexivity;
    repeat split; reflexivity.
Qed.

(** C10. A prefetch for an index past the completion sentinel, or for an
    index already in the cache, returns at once: no call to the Speech
    Service, no decoding, and the cache, like the rest of the state, is
    left as it was. *)
Theorem preloadNextAudio_noop timers targetIndex st :
  (length timers < targetIndex)%nat ∨ is_Some (audioCache st !! targetIndex) →
  let st' := preloadNextAudio timers targetIndex st in
  st' = st
  ∧ audioCache st' = audioCache st
  ∧ calls st' = calls st
  ∧ Obs.speechCalls st' = Obs.speechCalls st
  ∧ Obs.decodeCalls st' = Obs.decodeCalls st.
Proof.
  intros Hcase st'.
  assert (Heq : st' = st).
  { subst st'. unfold preloadNextAudio.
    destruct Hcase as [Hpast | Hcached].
    - repeat case_decide; try reflexivity; lia.
    - rewrite decide_True by exact Hcached. reflexivity. }
  rewrite Heq. repeat split; reflexivity.
Qed.

Lemma preloadNextAudio_noop_witness :
  preloadNextAudio Sample.timers 4 Sample.counting = Sample.counting.
Proof.
  apply (preloadNextAudio_noop Sample.timers 4 Sample.counting).
  left. simpl. lia.
Defined.

Lemma remove_first_snoc a l : remove_first a (l ++ [a]) ≡ₚ l.
Proof.
  induction l as [|b l IH]; simpl.
  - now rewrite decide_True.
  - destruct (decide (a = b)) as [-> | Hne].
    + symmetry. apply Permutation_cons_append.
    + now rewrite IH.
Qed.

Lemma preloadNextAudio_miss timers i st :
  (i ≤ length timers)%nat → audioCache st !! i = None →
  ∃ e, Obs.isSpeechCall e = true ∧ Obs.isDecodeCall e = false
       ∧ preloadNextAudio timers i st = await (PreloadSpeech i) (log e st).
Proof.
  intros Hi Hmiss. unfold preloadNextAudio.
  rewrite decide_False by (rewrite Hmiss; apply is_Some_None).
  case_decide as Hlen.
  - exists CallCompletionAnnouncement. auto.
  - rewrite decide_True by lia.
    destruct (lookup_lt_is_Some_2 timers i ltac:(lia)) as [step Hstep].
    rewrite Hstep. eexists. split; [| split]; [| | reflexivity]; reflexivity.
Qed.

(** C7. For a valid index that is not yet cached, a prefetch asks for the
    speech and resolves when that call settles, whatever the outcome. When
    the call and the decoding succeed, the decoded buffer is in the cache,
    where a lookup finds it, and a second prefetch issued afterwards
    changes nothing: one speech call and one decoding in all. When the call
    or the decoding fails, the failure is swallowed: nothing is stored,
    nothing is shown, and a second prefetch asks for the speech again. For
    an index already cached the prefetch is a no-op from the start. *)
Theorem ensure_then_get timers settings i r st :
  (i ≤ length timers)%nat →
  let st1 := preloadNextAudio timers i st in
  let st2 := settle timers settings (PreloadSpeech i) r st1 in
  let st3 := preloadNextAudio timers i st2 in
  (audioCache st !! i = None →
     PreloadSpeech i ∈ pending st1
     ∧ pending st2 ≡ₚ pending st
     ∧ Obs.speechCalls st2 = S (Obs.speechCalls st)
     ∧ (∀ base64 buffer,
          r = Fulfilled base64 → decodeGeminiAudio base64 = Fulfilled buffer →
          audioCache st2 !! i = Some buffer
          ∧ st3 = st2
          ∧ Obs.speechCalls st3 = S (Obs.speechCalls st)
          ∧ Obs.decodeCalls st3 = S (Obs.decodeCalls st))
     ∧ (Obs.preparation_fails r →
          audioCache st2 = audioCache st
          ∧ errorMessage st2 = errorMessage st
          ∧ phase st2 = phase st
          ∧ PreloadSpeech i ∈ pending st3
          ∧ Obs.speechCalls st3 = S (S (Obs.speechCalls st))))
  ∧ (is_Some (audioCache st !! i) →
     st1 = st
     ∧ audioCache st1 !! i = audioCache st !! i
     ∧ preloadNextAudio timers i st1 = st1).
Proof.
  intros Hi st1 st2 st3. split.
  - intros Hmiss.
    destruct (preloadNextAudio_miss timers i st Hi Hmiss)
      as (e & Hspeech & Hnodecode & Hst1).
    fold st1 in Hst1.
    assert (Hpending : PreloadSpeech i ∈ pending st1).
    { rewrite Hst1. simpl. apply elem_of_app. right. apply list_elem_of_singleton.
      reflexivity. }
    assert (Hst2 : st2 =
      preloadSettled i r
        (set_pending (remove_first (PreloadSpeech i) (pending st1)) st1)).
    { subst st2. rewrite settle_pending by exact Hpending. reflexivity. }
    assert (Hparked : pending st2 = remove_first (PreloadSpeech i) (pending st1)
                      ∧ Obs.speechCalls st2 = S (Obs.speechCalls st)
                      ∧ errorMessage st2 = errorMessage st
                      ∧ phase st2 = phase st).
    { assert (Hcalls1 : Obs.speechCalls st1 = S (Obs.speechCalls st)).
      { rewrite Hst1. change (Obs.speechCalls (log e st) = S (Obs.speechCalls st)).
        rewrite speechCalls_log, Hspeech. lia. }
      assert (Hshown : errorMessage st1 = errorMessage st ∧ phase st1 = phase st)
        by (rewrite Hst1; split; reflexivity).
      destruct Hshown as [Herr1 Hphase1].
      rewrite Hst2. unfold preloadSettled.
      destruct r as [base64|]; [destruct (decodeGeminiAudio base64) |].
      - split; [reflexivity |]. split; [| split; assumption].
        change (Obs.speechCalls (log (CallDecode base64) st1) = S (Obs.speechCalls st)).
        rewrite speechCalls_log, Hcalls1. simpl. lia.
      - split; [reflexivity |]. split; [| split; assumption].
        change (Obs.speechCalls (log (CallDecode base64) st1) = S (Obs.speechCalls st)).
        rewrite speechCalls_log, Hcalls1. simpl. lia.
      - split; [reflexivity |]. split; [exact Hcalls1 | split; assumption]. }
    destruct Hparked as (Hp2 & Hcalls2 & Herr2 & Hphase2).
    split; [exact Hpending |].
    split; [rewrite Hp2, Hst1; simpl; apply remove_first_snoc |].
    split; [exact Hcalls2 |]. split.
    + intros base64 buffer -> Hdecode.
      assert (Hst2' : st2 =
        set_audioCache (<[i := buffer]> (audioCache st1))
          (log (CallDecode base64)
             (set_pending (remove_first (PreloadSpeech i) (pending st1)) st1))).
      { rewrite Hst2. unfold preloadSettled. rewrite Hdecode. reflexivity. }
      assert (Hhit : audioCache st2 !! i = Some buffer).
      { rewrite Hst2'. simpl. apply lookup_insert_eq. }
      assert (Hst3 : st3 = st2).
      { subst st3. unfold preloadNextAudio. rewrite decide_True; [reflexivity |].
        rewrite Hhit. eauto. }
      split; [exact Hhit |]. split; [exact Hst3 |].
      rewrite Hst3, Hst2', Hst1.
      change (Obs.speechCalls (log (CallDecode base64) (log e st)) = S (Obs.speechCalls st)
              ∧ Obs.decodeCalls (log (CallDecode base64) (log e st))
                = S (Obs.decodeCalls st)).
      rewrite !speechCalls_log, !decodeCalls_log, Hspeech, Hnodecode. simpl.
      split; lia.
    + intros Hfails.
      assert (Hcache : audioCache st2 = audioCache st).
      { rewrite Hst2, Hst1. unfold preloadSettled.
        destruct r as [base64|]; [| reflexivity].
        destruct Hfails as [err Herr]. rewrite Herr. reflexivity. }
      assert (Hmiss2 : audioCache st2 !! i = None) by (now rewrite Hcache).
      destruct (preloadNextAudio_miss timers i st2 Hi Hmiss2)
        as (e' & Hspeech' & _ & Hst3).
      fold st3 in Hst3.
      split; [exact Hcache |]. split; [exact Herr2 |]. split; [exact Hphase2 |].
      rewrite Hst3. split.
      * simpl. apply elem_of_app. right. now apply list_elem_of_singleton.
      * change (Obs.speechCalls (log e' st2) = S (S (Obs.speechCalls st))).
        rewrite speechCalls_log, Hspeech', Hcalls2. lia.
  - intros Hhit.
    assert (Hst1 : st1 = st).
    { subst st1. unfold preloadNextAudio. now rewrite decide_True. }
    split; [exact Hst1 |]. rewrite Hst1. split; [reflexivity |].
    unfold preloadNextAudio. now rewrite decide_True.
Qed.

Lemma ensure_then_get_witness :
  let st1 := preloadNextAudio Sample.timers 3 Sample.counting in
  let st2 := settle Sample.timers Sample.settings (PreloadSpeech 3)
               (Fulfilled "AAD/fw==") st1 in
  channelData <$> audioCache st2 !! 3%nat = Some [0 # 32768; 32767 # 32768]
  ∧ preloadNextAudio Sample.timers 3 st2 = st2.
Proof.
  intros st1 st2.
  destruct (ensure_then_get Sample.timers Sample.settings 3 (Fulfilled "AAD/fw==")
              Sample.counting)
    as [Hmiss _]; [simpl; lia |].
  destruct Hmiss as (_ & _ & _ & Hstored & _); [reflexivity |].
  destruct (Hstored "AAD/fw=="
              {| numberOfChannels := 1; sampleRate := 24000;
                 channelData := [0 # 32768; 32767 # 32768] |} eq_refl eq_refl)
    as (Hget & Hagain & _).
  fold st1 st2 in Hget, Hagain.
  split; [now rewrite Hget | exact Hagain].
Defined.

(** A prefetch whose speech call fails has resolved all the same: the
    cache has nothing for the index, and the next prefetch asks again, two
    speech calls for the two prefetches. *)
Lemma preload_failure_fetches_again :
  let st1 := preloadNextAudio Sample.timers 2 Sample.counting in
  let st2 := settle Sample.timers Sample.settings (PreloadSpeech 2)
               (Rejected "503") st1 in
  let st3 := preloadNextAudio Sample.timers 2 st2 in
  PreloadSpeech 2 ∈ pending st1
  ∧ (PreloadSpeech 2 ∉ pending st2)
  ∧ audioCache st2 !! 2%nat = None
  ∧ Obs.speechCalls st3 = S (S (Obs.speechCalls Sample.counting))
  ∧ ¬ (Obs.speechCalls st3 ≤ S (Obs.speechCalls Sample.counting))%nat.
Proof.
  intros st1 st2 st3.
  assert (Hcalls : Obs.speechCalls st3 = S (S (Obs.speechCalls Sample.counting)))
    by reflexivity.
  split; [apply (bool_decide_unpack _); vm_compute; exact I |].
  split; [apply (bool_decide_unpack _); vm_compute; exact I |].
  split; [reflexivity |]. split; [exact Hcalls |]. rewrite Hcalls. lia.
Qed.

(** *** The error notice *)

Lemma dismiss_notice st : Obs.notice_ok st → Obs.notice_ok (dismiss st).
Proof.
  intros Hok. unfold dismiss. destruct (dismissTimer st); [| exact Hok].
  unfold Obs.notice_ok, setErrorMessage. case_decide as Hd; simpl in *.
  - now rewrite Hd.
  - reflexivity.
Qed.

Lemma dismiss_clears st :
  Obs.notice_ok st → is_Some (dismissTimer st) → errorMessage (dismiss st) = None.
Proof.
  intros Hok [t Ht]. unfold dismiss. rewrite Ht.
  unfold setErrorMessage. case_decide as Hd; simpl in *; [exact Hd | reflexivity].
Qed.

Lemma startTimer_frame duration myOpId cb st :
  let st' := startTimer duration myOpId cb st in
  currentIndex st' = currentIndex st ∧ phase st' = phase st
  ∧ remainingSeconds st' = duration ∧ isPaused st' = isPaused st
  ∧ errorMessage st' = errorMessage st ∧ dismissTimer st' = dismissTimer st
  ∧ opIdRef st' = opIdRef st ∧ audioStopRef st' = audioStopRef st
  ∧ sources st' = sources st ∧ audioCache st' = audioCache st
  ∧ calls st' = calls st ∧ pending st' = pending st.
Proof. engine_cases; repeat split; reflexivity. Qed.

(** What the [catch] clause of the step branch does under a live
    generation. *)
Lemma startSilently_effect timers index step st :
  timers !! index = Some step →
  Obs.notice_ok st →
  let st' := startSilently timers index (opIdRef st) st in
  errorMessage st' = Some "Audio unavailable - starting silently."
  ∧ dismissTimer st' = Some 5000
  ∧ phase st' = COUNTDOWN
  ∧ remainingSeconds st' = durationSeconds step
  ∧ Obs.ticking st' =
      Some {| tickOpId := opIdRef st; onComplete := StepComplete index (opIdRef st) |}
  ∧ Obs.playCalls st' = Obs.playCalls st
  ∧ sources st' = sources st
  ∧ audioStopRef st' = audioStopRef st
  ∧ opIdRef st' = opIdRef st
  ∧ Obs.notice_ok st'.
Proof.
  intros Hstep Hok. unfold startSilently.
  rewrite decide_True by reflexivity. rewrite Hstep.
  set (noticed := setErrorMessage (Some "Audio unavailable - starting silently.") st).
  assert (Hnoticed : errorMessage noticed = Some "Audio unavailable - starting silently."
                     ∧ dismissTimer noticed = Some 5000
                     ∧ opIdRef noticed = opIdRef st ∧ sources noticed = sources st
                     ∧ audioStopRef noticed = audioStopRef st
                     ∧ calls noticed = calls st).
  { subst noticed. unfold setErrorMessage. case_decide as Hd; simpl.
    - unfold Obs.notice_ok in Hok. rewrite Hd in Hok. simpl in Hok. auto 10.
    - auto 10. }
  destruct Hnoticed as (Hmsg & Htimer & Hop & Hsrc & Hstop & Hcalls).
  set (timed := startTimer _ _ _ (set_phase COUNTDOWN noticed)).
  pose proof (startTimer_frame (durationSeconds step) (opIdRef st)
                (StepComplete index (opIdRef st)) (set_phase COUNTDOWN noticed))
    as (_ & Hp & Hr & _ & He & Hd & Ho & Ha & Hs & _ & Hc & _).
  pose proof (startTimer_ticking (durationSeconds step) (opIdRef st)
                (StepComplete index (opIdRef st)) (set_phase COUNTDOWN noticed))
    as Htick.
  fold timed in Hp, Hr, He, Hd, Ho, Ha, Hs, Hc, Htick.
  pose proof (preloadNextAudio_frame timers (index + 1) timed)
    as (_ & Hp' & Hr' & _ & He' & Hd' & Ho' & Ha' & Hi' & Hiv' & Hs' & _ & Hc').
  cbv zeta.
  assert (Hmsg' : errorMessage (preloadNextAudio timers (index + 1) timed)
                  = Some "Audio unavailable - starting silently.")
    by (rewrite He', He; exact Hmsg).
  assert (Htimer' : dismissTimer (preloadNextAudio timers (index + 1) timed) = Some 5000)
    by (rewrite Hd', Hd; exact Htimer).
  split; [exact Hmsg' |]. split; [exact Htimer' |].
  split; [rewrite Hp', Hp; reflexivity |].
  split; [rewrite Hr', Hr; reflexivity |].
  split; [unfold Obs.ticking in *; rewrite Hi', Hiv'; exact Htick |].
  split; [rewrite Hc'; unfold Obs.playCalls; rewrite Hc; simpl; now rewrite Hcalls |].
  split; [rewrite Hs', Hs; exact Hsrc |].
  split; [rewrite Ha', Ha; exact Hstop |].
  split; [rewrite Ho', Ho; exact Hop |].
  unfold Obs.notice_ok. rewrite Hmsg', Htimer'. reflexivity.
Qed.

(** What settling a failed preparation amounts to. *)
Lemma failed_preparation_settles timers settings index r st :
  StepSpeech index (opIdRef st) ∈ pending st →
  Obs.preparation_fails r →
  ∃ st0,
    settle timers settings (StepSpeech index (opIdRef st)) r st
    = startSilently timers index (opIdRef st0) st0
    ∧ opIdRef st0 = opIdRef st
    ∧ errorMessage st0 = errorMessage st ∧ dismissTimer st0 = dismissTimer st
    ∧ Obs.playCalls st0 = Obs.playCalls st
    ∧ sources st0 = sources st ∧ audioStopRef st0 = audioStopRef st.
Proof.
  intros Hin Hfail. rewrite settle_pending by exact Hin.
  destruct r as [base64 | e]; simpl in *.
  - destruct Hfail as [e He]. rewrite He.
    rewrite decide_False by auto.
    eexists (log (CallDecode base64) (set_pending _ st)).
    split; [reflexivity |]. rewrite playCalls_log by reflexivity.
    repeat split; reflexivity.
  - eexists (set_pending _ st). split; [reflexivity |]. repeat split; reflexivity.
Qed.

(** C4. Under a live generation, a failure while preparing a step's
    announcement (a rejected speech call, or a payload that does not
    decode) sets the error notice with a 5000 ms dismissal pending, which
    clears the notice when it fires; the phase becomes [COUNTDOWN], the
    countdown starts from the step's full [durationSeconds] under the same
    generation, and no announcement is played. *)
Theorem preparation_failure_starts_silently timers settings index step r st :
  timers !! index = Some step →
  StepSpeech index (opIdRef st) ∈ pending st →
  Obs.notice_ok st →
  Obs.preparation_fails r →
  let st' := settle timers settings (StepSpeech index (opIdRef st)) r st in
  errorMessage st' = Some "Audio unavailable - starting silently."
  ∧ dismissTimer st' = Some 5000
  ∧ errorMessage (dismiss st') = None
  ∧ phase st' = COUNTDOWN
  ∧ remainingSeconds st' = durationSeconds step
  ∧ Obs.ticking st' =
      Some {| tickOpId := opIdRef st; onComplete := StepComplete index (opIdRef st) |}
  ∧ Obs.playCalls st' = Obs.playCalls st
  ∧ sources st' = sources st
  ∧ audioStopRef st' = audioStopRef st
  ∧ opIdRef st' = opIdRef st.
Proof.
  intros Hstep Hin Hok Hfail st'.
  destruct (failed_preparation_settles timers settings index r st Hin Hfail)
    as (st0 & Hsettle & Hop & Hmsg & Htimer & Hplay & Hsrc & Hstop).
  assert (Hok0 : Obs.notice_ok st0) by (eapply notice_frame; eassumption).
  pose proof (startSilently_effect timers index step st0 Hstep Hok0)
    as (H1 & H2 & H3 & H4 & H5 & H6 & H7 & H8 & H9 & H10).
  subst st'. rewrite Hsettle. rewrite Hop in *.
  split; [exact H1 |]. split; [exact H2 |].
  split; [apply dismiss_clears; [exact H10 | rewrite H2; eauto] |].
  split; [exact H3 |]. split; [exact H4 |]. split; [exact H5 |].
  split; [congruence |]. split; [congruence |]. split; congruence.
Qed.

Lemma preparation_failure_starts_silently_witness :
  let st' := settle Sample.timers Sample.settings (StepSpeech 0 1)
               (Fulfilled "A") (mount Sample.timers Sample.settings) in
  phase st' = COUNTDOWN ∧ remainingSeconds st' = 90
  ∧ dismissTimer st' = Some 5000 ∧ Obs.playCalls st' = 0%nat.
Proof.
  intros st'.
  destruct (preparation_failure_starts_silently Sample.timers Sample.settings 0
              Sample.plank (Fulfilled "A") (mount Sample.timers Sample.settings))
    as (_ & Htimer & _ & Hphase & Hrem & _ & Hplay & _).
  - reflexivity.
  - vm_compute. apply list_elem_of_In. simpl. auto.
  - reflexivity.
  - simpl. eexists. reflexivity.
  - split; [exact Hphase |]. split; [exact Hrem |]. split; [exact Htimer |].
    exact Hplay.
Defined.

(** C3, as stated, fails: three failures in a row followed by an answer
    yield the audio, the fourth attempt being the third retry. *)
Lemma three_failures_do_not_surface : ¬ Obs.surfaces_after 3.
Proof.
  intros H. destruct (H Sample.flaky "Plank" 90) as [e He].
  - intros n Hn. exists "503".
    destruct n as [|[|[|n]]]; [reflexivity.. | lia].
  - vm_compute in He. discriminate.
Qed.

(** C3, amended. A step-announcement call whose underlying API call fails
    four times in a row (the first attempt and its three retries, after
    waits of 1, 2 and 4 seconds) rejects; the synthesis function never
    makes more than three retries. Under a live generation the advancing
    operation then reaches [COUNTDOWN] instead of staying in
    [PREPARING_AUDIO]. *)
Theorem four_failures_surface_then_countdown :
  Obs.surfaces_after 4
  ∧ (∀ ai taskName d,
       (Obs.attempts (generateTimerAnnouncement ai taskName d).2 ≤ 4)%nat)
  ∧ (∀ ai taskName d,
       Obs.fails_first 4 ai taskName d →
       (generateTimerAnnouncement ai taskName d).2
       = [Attempt 0; Backoff 1000; Attempt 1; Backoff 2000; Attempt 2;
          Backoff 4000; Attempt 3])
  ∧ (∀ timers settings ai index step st,
       timers !! index = Some step →
       Obs.fails_first 4 ai (name step) (durationSeconds step) →
       StepSpeech index (opIdRef st) ∈ pending st →
       Obs.notice_ok st →
       phase (settle timers settings (StepSpeech index (opIdRef st))
                (generateTimerAnnouncement ai (name step) (durationSeconds step)).1 st)
       = COUNTDOWN).
Proof.
  split; [| split; [| split]].
  - intros ai taskName d Hfail.
    destruct (four_failures_log ai taskName d Hfail) as [e ->]. eauto.
  - intros ai taskName d. apply retry_attempts_le.
  - intros ai taskName d Hfail.
    destruct (four_failures_log ai taskName d Hfail) as [e ->]. reflexivity.
  - intros timers settings ai index step st Hstep Hfail Hin Hok.
    destruct (four_failures_log ai (name step) (durationSeconds step) Hfail) as [e ->].
    cbn [fst].
    destruct (failed_preparation_settles timers settings index (Rejected e) st Hin I)
      as (st0 & -> & Hop & Hmsg & Htimer & _).
    assert (Hok0 : Obs.notice_ok st0) by (eapply notice_frame; eassumption).
    apply (startSilently_effect timers index step st0 Hstep Hok0).
Qed.

Lemma four_failures_surface_then_countdown_witness :
  (∃ e, (generateTimerAnnouncement Sample.down "Plank" 90).1 = Rejected e)
  ∧ phase (settle Sample.timers Sample.settings (StepSpeech 0 1)
             (generateTimerAnnouncement Sample.down "Plank" 90).1
             (mount Sample.timers Sample.settings)) = COUNTDOWN.
Proof.
  destruct four_failures_surface_then_countdown as (Hsurface & _ & _ & Hphase).
  assert (Hdown : Obs.fails_first 4 Sample.down "Plank" 90).
  { intros n _. eexists. reflexivity. }
  split.
  - apply Hsurface. exact Hdown.
  - apply (Hphase Sample.timers Sample.settings Sample.down 0%nat Sample.plank
             (mount Sample.timers Sample.settings)).
    + reflexivity.
    + exact Hdown.
    + vm_compute. apply list_elem_of_In. simpl. auto.
    + reflexivity.
Defined.

(** The notice and its timer agree in every state the component reaches. *)

Ltac notice_tac :=
  unfold Obs.notice_ok in *; engine_cases;
  repeat match goal with
         | H : errorMessage _ = _ |- _ => rewrite H in *
         end;
  simpl in *; try congruence; auto.

Lemma runSequence_notice timers settings index st :
  Obs.notice_ok st → Obs.notice_ok (runSequence timers settings index st).
Proof.
  intros Hok. enter_runSequence st s H.
  destruct H as (_ & _ & _ & _ & _ & _ & _ & Hs & _). specialize (Hs Hok).
  branch_cases; exact Hs.
Qed.

Lemma startSilently_notice timers index myOpId st :
  Obs.notice_ok st → Obs.notice_ok (startSilently timers index myOpId st).
Proof.
  intros Hok. unfold startSilently. case_decide; [| exact Hok].
  destruct (timers !! index) as [step|]; [| exact Hok].
  pose proof (setErrorMessage_notice (Some "Audio unavailable - starting silently.")
                st Hok) as Hnoticed.
  set (noticed := setErrorMessage _ st) in *.
  pose proof (startTimer_frame (durationSeconds step) myOpId
                (StepComplete index myOpId) (set_phase COUNTDOWN noticed))
    as (_ & _ & _ & _ & He & Hd & _).
  set (timed := startTimer _ _ _ _) in *.
  pose proof (preloadNextAudio_frame timers (index + 1) timed)
    as (_ & _ & _ & _ & He' & Hd' & _).
  eapply notice_frame; [| | exact Hnoticed].
  - rewrite He', He. reflexivity.
  - rewrite Hd', Hd. reflexivity.
Qed.

Lemma handleStepComplete_notice settings index myOpId st :
  Obs.notice_ok st → Obs.notice_ok (handleStepComplete settings index myOpId st).
Proof. intros Hok. notice_tac. Qed.

Lemma resume_notice timers settings a r st :
  Obs.notice_ok st → Obs.notice_ok (resume timers settings a r st).
Proof.
  intros Hok. destruct a; simpl.
  - destruct r; [| now apply startSilently_notice].
    case_decide; [exact Hok |].
    destruct (decodeGeminiAudio _); [| now apply startSilently_notice].
    notice_tac.
  - notice_tac.
  - notice_tac.
  - notice_tac.
  - case_decide; [exact Hok |]. case_decide.
    + notice_tac.
    + now apply runSequence_notice.
  - notice_tac.
Qed.

Lemma step_notice timers settings st e :
  Obs.notice_ok st → Obs.notice_ok (step timers settings st e).
Proof.
  intros Hok. destruct e; simpl.
  - case_decide; [exact Hok | now apply runSequence_notice].
  - notice_tac.
  - notice_tac.
  - unfold tick. destruct (intervals st !! interval) as [iv|]; [| exact Hok].
    case_decide; [notice_tac |].
    destruct (remainingSeconds st <=? 1); [| exact Hok].
    eapply notice_frame; [reflexivity | reflexivity |].
    assert (Hcleared : Obs.notice_ok
              match intervalRef st with
              | Some j => clearInterval j st
              | None => st
              end) by (destruct (intervalRef st); exact Hok).
    revert Hcleared. generalize (match intervalRef st with
                                 | Some j => clearInterval j st
                                 | None => st
                                 end). intros s Hs.
    destruct (onComplete iv); simpl.
    + now apply handleStepComplete_notice.
    + case_decide; [now apply runSequence_notice | exact Hs].
    + case_decide; [now apply runSequence_notice | now apply handleStepComplete_notice].
  - unfold settle. case_decide; [| exact Hok]. now apply resume_notice.
  - now apply dismiss_notice.
Qed.

Lemma run_notice timers settings es st :
  Obs.notice_ok st → Obs.notice_ok (run timers settings es st).
Proof.
  revert st. induction es as [|e es IH]; intros st Hok; [exact Hok |].
  apply IH. now apply step_notice.
Qed.

Lemma reachable_notice timers settings es :
  Obs.notice_ok (run timers settings es (mount timers settings)).
Proof. apply run_notice, runSequence_notice. reflexivity. Qed.

(** *** Superseded generations *)

(** A continuation of the sequencing path that resumes under a superseded
    generation changes neither the phase, the index, the remaining seconds
    nor the generation. *)
Lemma stale_continuation_is_inert timers settings a r st :
  match a with
  | StepSpeech _ myOpId | StepPlayback _ myOpId _ | CompletionSpeech myOpId
  | CompletionPlayback myOpId _ | AlarmDone _ myOpId => opIdRef st ≠ myOpId
  | PreloadSpeech _ => False
  end →
  let st' := resume timers settings a r st in
  phase st' = phase st ∧ currentIndex st' = currentIndex st
  ∧ remainingSeconds st' = remainingSeconds st ∧ opIdRef st' = opIdRef st.
Proof.
  intros Hstale. destruct a; simpl in *; try contradiction;
    unfold startSilently, finish, stop;
    repeat (case_decide || case_match); simplify_eq/=; auto.
Qed.

(* ================================================================= *)
(** * Further properties of the sequencing engine *)

(** ** Ticking *)

Lemma run_replicate_S timers settings n e st :
  run timers settings (replicate (S n) e) st
  = run timers settings (replicate n e) (step timers settings st e).
Proof. reflexivity. Qed.

Lemma run_app timers settings es1 es2 st :
  run timers settings (es1 ++ es2) st
  = run timers settings es2 (run timers settings es1 st).
Proof. unfold run. apply foldl_app. Qed.

Lemma tick_decrements timers settings i iv st :
  intervals st !! i = Some iv → tickOpId iv = opIdRef st →
  1 < remainingSeconds st →
  tick timers settings i st = set_remainingSeconds (remainingSeconds st - 1) st.
Proof.
  intros Hi Hop Hrem. unfold tick. rewrite Hi.
  rewrite decide_False by (intros H; apply H; symmetry; exact Hop).
  destruct (Z.leb_spec (remainingSeconds st) 1); [lia | reflexivity].
Qed.

Lemma tick_fires timers settings i iv st :
  intervals st !! i = Some iv → tickOpId iv = opIdRef st →
  intervalRef st = Some i →
  remainingSeconds st <= 1 →
  tick timers settings i st
  = set_remainingSeconds 0
      (fire timers settings (onComplete iv) (clearInterval i st)).
Proof.
  intros Hi Hop Href Hrem. unfold tick. rewrite Hi, Href.
  rewrite decide_False by (intros H; apply H; symmetry; exact Hop).
  destruct (Z.leb_spec (remainingSeconds st) 1); [reflexivity | lia].
Qed.

Lemma tick_cancelled timers settings i st :
  intervals st !! i = None → tick timers settings i st = st.
Proof. intros Hi. unfold tick. now rewrite Hi. Qed.

(** Ticks before the last one only count down. *)
Lemma ticks_count_down timers settings i iv (k : nat) st :
  intervals st !! i = Some iv → tickOpId iv = opIdRef st →
  ((0 < k)%nat → Z.of_nat k < remainingSeconds st) →
  run timers settings (replicate k (Tick i)) st
  = set_remainingSeconds (remainingSeconds st - Z.of_nat k) st.
Proof.
  revert st. induction k as [|k IH]; intros st Hi Hop Hk.
  - simpl. rewrite Z.sub_0_r. destruct st; reflexivity.
  - specialize (Hk ltac:(lia)).
    rewrite run_replicate_S. simpl step.
    rewrite (tick_decrements timers settings i iv) by (assumption || lia).
    rewrite IH by (simpl; (assumption || lia)).
    unfold set_remainingSeconds. simpl. f_equal. lia.
Qed.

(** The whole countdown: after [max 1 d] ticks the completion callback has
    been called, once, on the state whose interval is cleared. *)
Lemma countdown_runs_out timers settings i iv st :
  intervals st !! i = Some iv → tickOpId iv = opIdRef st →
  intervalRef st = Some i →
  let n := Z.to_nat (Z.max 1 (remainingSeconds st)) in
  run timers settings (replicate n (Tick i)) st
  = set_remainingSeconds 0
      (fire timers settings (onComplete iv)
         (clearInterval i
            (set_remainingSeconds (Z.min 1 (remainingSeconds st)) st))).
Proof.
  intros Hi Hop Href n.
  assert (Hn : n = S (Z.to_nat (Z.max 1 (remainingSeconds st) - 1))) by lia.
  rewrite Hn. clear Hn n.
  remember (Z.to_nat (Z.max 1 (remainingSeconds st) - 1)) as k eqn:Hk.
  replace (S k) with (k + 1)%nat by lia.
  rewrite replicate_add, run_app.
  rewrite (ticks_count_down timers settings i iv k st) by (assumption || lia).
  simpl replicate. unfold run. simpl foldl.
  rewrite (tick_fires timers settings i iv) by (simpl; (assumption || lia)).
  do 3 f_equal. unfold set_remainingSeconds. simpl. f_equal. lia.
Qed.

(** ** Invariants *)

Import Reach.

Lemma quiet_refl timers st : quiet timers st st.
Proof. repeat split; auto. Qed.

Lemma quiet_trans timers st1 st2 st3 :
  quiet timers st1 st2 → quiet timers st2 st3 → quiet timers st1 st3.
Proof.
  intros (H1 & H2 & H3 & H4 & H5 & H6 & H7) (K1 & K2 & K3 & K4 & K5 & K6 & K7).
  repeat split; try congruence.
  intros a Ha. destruct (K7 a Ha) as [Hin | Hok]; [auto |].
  right. now rewrite <- H3.
Qed.

Lemma quiet_good timers settings st st' :
  quiet timers st st' → Good timers settings st → Good timers settings st'.
Proof.
  intros (H1 & H2 & H3 & H4 & H5 & H6 & H7) (G1 & G2 & G3 & G4 & G5).
  unfold Good, ticker_ok, pending_ok, index_ok, cache_ok in *.
  rewrite H1, H2, H3, H4, H5, H6.
  split; [exact G1 |].
  split; [intros a Ha; destruct (H7 a Ha); auto |].
  split; [exact G3 |]. split; [exact G4 | exact G5].
Qed.

Lemma remove_first_subset a b l : b ∈ remove_first a l → b ∈ l.
Proof.
  induction l as [|c l IH]; simpl; [auto |].
  destruct (decide (a = c)) as [_ | _]; rewrite ?elem_of_cons; [auto |].
  intros [-> | Hin]; auto.
Qed.

Lemma quiet_await timers a st :
  await_ok timers (opIdRef st) a → quiet timers st (await a st).
Proof.
  intros Hok. repeat split. intros b Hb. simpl in Hb.
  apply elem_of_app in Hb as [Hb | Hb]; [auto |].
  apply list_elem_of_singleton in Hb. subst b. auto.
Qed.

Lemma quiet_log timers e st : quiet timers st (log e st).
Proof. repeat split. auto. Qed.

Lemma quiet_resumed timers a st :
  quiet timers st (set_pending (remove_first a (pending st)) st).
Proof.
  repeat split. intros b Hb. simpl in Hb. left. eapply remove_first_subset, Hb.
Qed.

Lemma quiet_setErrorMessage timers v st : quiet timers st (setErrorMessage v st).
Proof. unfold setErrorMessage. case_decide; repeat split; auto. Qed.

Lemma quiet_stop timers source st : quiet timers st (stop source st).
Proof. repeat split. auto. Qed.

Lemma quiet_set_phase timers p st : quiet timers st (set_phase p st).
Proof. repeat split. auto. Qed.

Lemma quiet_set_isPaused timers p st : quiet timers st (set_isPaused p st).
Proof. repeat split. auto. Qed.

Lemma quiet_set_audioStopRef timers p st : quiet timers st (set_audioStopRef p st).
Proof. repeat split. auto. Qed.

Lemma quiet_dismiss timers st : quiet timers st (dismiss st).
Proof.
  unfold dismiss. destruct (dismissTimer st); [| apply quiet_refl].
  eapply quiet_trans; [| apply quiet_setErrorMessage]. repeat split. auto.
Qed.

Lemma quiet_finish timers myOpId st : quiet timers st (finish myOpId st).
Proof. unfold finish. case_decide; [apply quiet_set_phase | apply quiet_refl]. Qed.

Lemma quiet_preloadNextAudio timers targetIndex st :
  quiet timers st (preloadNextAudio timers targetIndex st).
Proof.
  unfold preloadNextAudio.
  repeat (case_decide || case_match); try apply quiet_refl.
  - eapply quiet_trans; [apply quiet_log | apply quiet_await]. simpl. lia.
  - eapply quiet_trans; [apply quiet_log | apply quiet_await]. simpl. lia.
Qed.

Lemma quiet_handleStepComplete timers settings index myOpId st :
  quiet timers st (handleStepComplete settings index myOpId st).
Proof.
  unfold handleStepComplete. case_decide as Hd; [apply quiet_refl |].
  eapply quiet_trans; [apply quiet_log | apply quiet_await]. simpl.
  lia.
Qed.

Lemma quiet_announce timers settings index myOpId buffer st :
  quiet timers st (announce settings index myOpId buffer st).
Proof.
  unfold announce. case_decide as Hd; [apply quiet_refl |].
  unfold playAudioBuffer.
  repeat split. intros a Ha. simpl in Ha.
  apply elem_of_app in Ha as [Ha | Ha]; [auto |].
  apply list_elem_of_singleton in Ha. subst a. right. simpl. lia.
Qed.

Lemma quiet_playCompletion timers settings myOpId buffer st :
  quiet timers st (playCompletion settings myOpId buffer st).
Proof.
  unfold playCompletion. case_decide as Hd; [apply quiet_refl |].
  unfold playAudioBuffer.
  repeat split. intros a Ha. simpl in Ha.
  apply elem_of_app in Ha as [Ha | Ha]; [auto |].
  apply list_elem_of_singleton in Ha. subst a. right. simpl. lia.
Qed.

(** [startTimer] under the live generation. *)
Lemma startTimer_good timers settings duration cb st :
  Good timers settings st →
  (durations_nonneg timers settings → 0 <= duration) →
  Good timers settings (startTimer duration (opIdRef st) cb st).
Proof.
  intros (G1 & G2 & G3 & G4 & G5) Hd.
  unfold Good, ticker_ok, pending_ok, index_ok, cache_ok in *.
  unfold startTimer, clearInterval. simpl.
  destruct (intervalRef st) as [i|] eqn:Href; simpl;
    (split; [| split; [exact G2 | split; [exact G3 | split; [exact G4 | exact Hd]]]]);
    intros j iv; rewrite lookup_insert_Some; intros [[<- <-] | [Hne Hj]]; auto.
  - rewrite lookup_delete_Some in Hj. destruct Hj as [Hij Hj].
    destruct (G1 j iv Hj) as [Hr _]. congruence.
  - destruct (G1 j iv Hj) as [Hr _]. congruence.
Qed.

Lemma stopEverything_clears st :
  (∀ j iv, intervals st !! j = Some iv → intervalRef st = Some j) →
  let st' := stopEverything st in
  intervals st' = ∅ ∧ intervalRef st' = None
  ∧ opIdRef st' = opIdRef st ∧ pending st' = pending st
  ∧ currentIndex st' = currentIndex st ∧ audioCache st' = audioCache st
  ∧ remainingSeconds st' = remainingSeconds st.
Proof.
  intros Hone. unfold stopEverything, clearInterval, stop.
  assert (Hempty : ∀ m : gmap nat Interval,
            m = match intervalRef st with
                | Some i => delete i (intervals st)
                | None => intervals st
                end → m = ∅).
  { intros m ->. apply map_eq. intros j. rewrite lookup_empty.
    destruct (intervalRef st) as [i|] eqn:Href.
    - destruct (decide (i = j)) as [<- | Hne]; [apply lookup_delete_eq |].
      rewrite lookup_delete_ne by exact Hne.
      destruct (intervals st !! j) as [iv|] eqn:Hj; [| reflexivity].
      specialize (Hone j iv Hj). congruence.
    - destruct (intervals st !! j) as [iv|] eqn:Hj; [| reflexivity].
      specialize (Hone j iv Hj). congruence. }
  destruct (audioStopRef st); simpl;
    (destruct (intervalRef st) as [i|] eqn:Href; simpl;
     (split; [apply Hempty; reflexivity | auto 10])).
Qed.

(** The entry of [runSequence] leaves no interval registered. *)
Lemma entry_good timers settings st :
  Good timers settings st →
  let st' := set_isPaused false
               (setErrorMessage None
                  (stopEverything (set_opIdRef (S (opIdRef st)) st))) in
  Good timers settings st' ∧ opIdRef st' = S (opIdRef st)
  ∧ intervals st' = ∅ ∧ intervalRef st' = None.
Proof.
  intros (G1 & G2 & G3 & G4 & G5). cbv zeta.
  pose proof (stopEverything_clears (set_opIdRef (S (opIdRef st)) st)) as Hs.
  cbv zeta in Hs. simpl in Hs.
  specialize (Hs (fun j iv Hj => proj1 (G1 j iv Hj))).
  set (s := stopEverything _) in *.
  destruct Hs as (Hi & Hr & Ho & Hp & Hc & Ha & Hrem).
  assert (Hgood : Good timers settings s).
  { unfold Good, ticker_ok, pending_ok, index_ok, cache_ok.
    rewrite Hi, Ho, Hp, Hc, Ha, Hrem.
    split; [intros j iv; rewrite lookup_empty; discriminate |].
    split; [| auto].
    intros a Hin. specialize (G2 a Hin). destruct a; simpl in *; lia. }
  assert (Hq : quiet timers s (set_isPaused false (setErrorMessage None s))).
  { eapply quiet_trans; [apply quiet_setErrorMessage | apply quiet_set_isPaused]. }
  destruct Hq as (Q1 & Q2 & Q3 & Q4 & Q5 & Q6 & Q7).
  split; [eapply quiet_good; [| exact Hgood]; repeat split; assumption |].
  rewrite Q3, Q1, Q2. auto.
Qed.

Lemma runSequence_good timers settings index st :
  Good timers settings st → Good timers settings (runSequence timers settings index st).
Proof.
  intros HG. pose proof (entry_good timers settings st HG) as H. cbv zeta in H.
  unfold runSequence. cbv zeta.
  set (s := set_isPaused false _) in *. clearbody s.
  destruct H as (Hs & Hop & _).
  case_decide as Hlen.
  - destruct (audioCache (set_phase COMPLETION_ANNOUNCEMENT s) !! index).
    + eapply quiet_good; [| exact Hs].
      eapply quiet_trans; [apply quiet_set_phase | apply quiet_playCompletion].
    + eapply quiet_good; [| exact Hs].
      eapply quiet_trans; [apply quiet_set_phase |].
      eapply quiet_trans; [apply quiet_log | apply quiet_await]. simpl. lia.
  - destruct (timers !! index) as [step|] eqn:Hstep; [| exact Hs].
    assert (Hidx : Good timers settings (set_currentIndex index s)).
    { destruct Hs as (G1 & G2 & G3 & G4 & G5).
      unfold Good, ticker_ok, pending_ok, index_ok, cache_ok in *. simpl.
      split; [exact G1 |]. split; [exact G2 |]. split; [left; lia |].
      split; [exact G4 | exact G5]. }
    destruct (audioCache _ !! index).
    + eapply quiet_good; [| exact Hidx].
      eapply quiet_trans; [apply quiet_set_phase | apply quiet_announce].
    + eapply quiet_good; [| exact Hidx].
      eapply quiet_trans; [apply quiet_set_phase |].
      eapply quiet_trans; [apply quiet_log | apply quiet_await]. simpl. lia.
Qed.

Lemma set_audioCache_good timers settings i buffer st :
  (i ≤ length timers)%nat → Good timers settings st →
  Good timers settings (set_audioCache (<[i := buffer]> (audioCache st)) st).
Proof.
  intros Hi (G1 & G2 & G3 & G4 & G5).
  split; [exact G1 |]. split; [exact G2 |]. split; [exact G3 |].
  split; [| exact G5].
  intros j. simpl. rewrite lookup_insert. case_decide; [subst; auto | apply G4].
Qed.

Lemma set_currentIndex_good timers settings i st :
  (i < length timers)%nat → Good timers settings st →
  Good timers settings (set_currentIndex i st).
Proof.
  intros Hi (G1 & G2 & G3 & G4 & G5).
  split; [exact G1 |]. split; [exact G2 |]. split; [left; exact Hi |].
  split; [exact G4 | exact G5].
Qed.

Lemma set_remainingSeconds_good timers settings v st :
  0 <= v → Good timers settings st →
  Good timers settings (set_remainingSeconds v st).
Proof.
  intros Hv (G1 & G2 & G3 & G4 & G5).
  split; [exact G1 |]. split; [exact G2 |]. split; [exact G3 |].
  split; [exact G4 | intros _; exact Hv].
Qed.

Lemma clearInterval_good timers settings i st :
  Good timers settings st → Good timers settings (clearInterval i st).
Proof.
  intros (G1 & G2 & G3 & G4 & G5).
  split; [| split; [exact G2 | split; [exact G3 | split; [exact G4 | exact G5]]]].
  intros j iv. simpl. rewrite lookup_delete_Some. intros [_ Hj]. apply G1, Hj.
Qed.

Lemma clear_ref_good timers settings st :
  Good timers settings st →
  Good timers settings
    match intervalRef st with
    | Some j => clearInterval j st
    | None => st
    end.
Proof. intros HG. destruct (intervalRef st); [now apply clearInterval_good | exact HG]. Qed.

Lemma step_duration_nonneg timers settings index step :
  timers !! index = Some step →
  durations_nonneg timers settings → 0 <= durationSeconds step.
Proof.
  intros Hstep [Hall _]. rewrite Forall_forall in Hall.
  apply Hall. eapply list_elem_of_lookup_2, Hstep.
Qed.

Lemma startSilently_good timers settings index myOpId st :
  Good timers settings st → Good timers settings (startSilently timers index myOpId st).
Proof.
  intros HG. unfold startSilently. case_decide as Hop; [| exact HG].
  destruct (timers !! index) as [step|] eqn:Hstep; [| exact HG].
  eapply quiet_good; [apply quiet_preloadNextAudio |].
  set (s := set_phase COUNTDOWN (setErrorMessage _ st)).
  assert (Hs : Good timers settings s ∧ opIdRef s = myOpId).
  { split.
    - eapply quiet_good; [| exact HG].
      eapply quiet_trans; [apply quiet_setErrorMessage | apply quiet_set_phase].
    - subst s. unfold setErrorMessage. case_decide; simpl; exact Hop. }
  destruct Hs as [Hs <-]. apply startTimer_good; [exact Hs |].
  eapply step_duration_nonneg, Hstep.
Qed.

Lemma preloadSettled_good timers settings targetIndex r st :
  (targetIndex ≤ length timers)%nat →
  Good timers settings st → Good timers settings (preloadSettled targetIndex r st).
Proof.
  intros Ht HG. unfold preloadSettled. destruct r as [base64|]; [| exact HG].
  assert (Hlog : Good timers settings (log (CallDecode base64) st))
    by (eapply quiet_good; [apply quiet_log | exact HG]).
  destruct (decodeGeminiAudio base64); [| exact Hlog].
  now apply set_audioCache_good.
Qed.

Lemma resume_good timers settings a r st :
  await_ok timers (opIdRef st) a →
  Good timers settings st → Good timers settings (resume timers settings a r st).
Proof.
  intros Hok HG. destruct a as [index g | index g source | g | g source | index g | t];
    simpl in *.
  - destruct r as [base64|]; [| now apply startSilently_good].
    case_decide as Hop; [exact HG |].
    assert (Hlog : Good timers settings (log (CallDecode base64) st))
      by (eapply quiet_good; [apply quiet_log | exact HG]).
    destruct (decodeGeminiAudio base64) as [buffer|]; [| now apply startSilently_good].
    eapply quiet_good; [apply quiet_announce |].
    apply (set_audioCache_good timers settings index buffer
             (log (CallDecode base64) st)); [lia | exact Hlog].
  - assert (Hstop : Good timers settings (stop source st))
      by (eapply quiet_good; [apply quiet_stop | exact HG]).
    case_decide as Hop; [exact Hstop |].
    destruct (timers !! index) as [step|] eqn:Hstep; [| exact Hstop].
    eapply quiet_good; [apply quiet_preloadNextAudio |].
    set (s := set_phase COUNTDOWN (set_audioStopRef None (stop source st))).
    assert (Hs : Good timers settings s).
    { eapply quiet_good; [| exact Hstop].
      eapply quiet_trans; [apply quiet_set_audioStopRef | apply quiet_set_phase]. }
    assert (Hg : g = opIdRef s) by (subst s; simpl in *; congruence).
    rewrite Hg. apply startTimer_good; [exact Hs |].
    eapply step_duration_nonneg, Hstep.
  - destruct r as [base64|];
      [| eapply quiet_good; [apply quiet_finish | exact HG]].
    case_decide as Hop; [exact HG |].
    assert (Hlog : Good timers settings (log (CallDecode base64) st))
      by (eapply quiet_good; [apply quiet_log | exact HG]).
    destruct (decodeGeminiAudio base64) as [buffer|].
    + eapply quiet_good; [apply quiet_playCompletion | exact Hlog].
    + eapply quiet_good; [apply quiet_finish | exact Hlog].
  - eapply quiet_good; [| exact HG].
    eapply quiet_trans; [apply quiet_stop | apply quiet_finish].
  - case_decide as Hop; [exact HG |].
    case_decide as Hbuf; [| now apply runSequence_good].
    destruct Hbuf as [Hnext Hpos]. unfold totalSteps in Hnext.
    set (s := set_currentIndex (index + 1) (set_phase BUFFER st)).
    assert (Hs : Good timers settings s).
    { apply set_currentIndex_good; [exact Hnext |].
      eapply quiet_good; [apply quiet_set_phase | exact HG]. }
    assert (Hg : g = opIdRef s) by (subst s; simpl in *; congruence).
    rewrite Hg. apply startTimer_good; [exact Hs |]. intros [_ Hb]. exact Hb.
  - now apply preloadSettled_good.
Qed.

Lemma settle_good timers settings a r st :
  Good timers settings st → Good timers settings (settle timers settings a r st).
Proof.
  intros HG. unfold settle. case_decide as Hin; [| exact HG].
  apply resume_good.
  - simpl. destruct HG as (_ & G2 & _). apply G2, Hin.
  - eapply quiet_good; [apply quiet_resumed | exact HG].
Qed.

Lemma fire_good timers settings cb st :
  Good timers settings st → Good timers settings (fire timers settings cb st).
Proof.
  intros HG. destruct cb as [index g | next g | ph idx]; simpl.
  - eapply quiet_good; [apply quiet_handleStepComplete | exact HG].
  - case_decide; [now apply runSequence_good | exact HG].
  - case_decide; [now apply runSequence_good |].
    eapply quiet_good; [apply quiet_handleStepComplete | exact HG].
Qed.

Lemma tick_good timers settings i st :
  Good timers settings st → Good timers settings (tick timers settings i st).
Proof.
  intros HG. unfold tick. destruct (intervals st !! i) as [iv|]; [| exact HG].
  case_decide; [now apply clear_ref_good |].
  destruct (Z.leb_spec (remainingSeconds st) 1).
  - apply set_remainingSeconds_good; [lia |].
    apply fire_good. now apply clear_ref_good.
  - apply set_remainingSeconds_good; [lia | exact HG].
Qed.

Lemma togglePause_good timers settings st :
  Good timers settings st → Good timers settings (togglePause st).
Proof.
  intros HG. unfold togglePause. case_decide; [exact HG |].
  destruct (isPaused st).
  - assert (Hs : Good timers settings (set_isPaused false st))
      by (eapply quiet_good; [apply quiet_set_isPaused | exact HG]).
    change (opIdRef (set_isPaused false st)) with (opIdRef st).
    change (opIdRef st) with (opIdRef (set_isPaused false st)) at 1.
    apply startTimer_good; [exact Hs |]. simpl. apply HG.
  - assert (Hs : Good timers settings (set_isPaused true st))
      by (eapply quiet_good; [apply quiet_set_isPaused | exact HG]).
    apply (clear_ref_good timers settings (set_isPaused true st) Hs).
Qed.

Lemma cleanup_good timers settings st :
  Good timers settings st → Good timers settings (cleanup st).
Proof.
  intros (G1 & G2 & G3 & G4 & G5). unfold cleanup.
  pose proof (stopEverything_clears st (fun j iv Hj => proj1 (G1 j iv Hj)))
    as (Hi & Hr & Ho & Hp & Hc & Ha & Hrem).
  set (s := stopEverything st) in *.
  unfold Good, ticker_ok, pending_ok, index_ok, cache_ok in *. simpl.
  rewrite Hi, Ho, Hp, Hc, Ha, Hrem.
  split; [intros j iv; rewrite lookup_empty; discriminate |].
  split; [| auto].
  intros a Hin. specialize (G2 a Hin). destruct a; simpl in *; lia.
Qed.

Lemma step_good timers settings st e :
  Good timers settings st → Good timers settings (step timers settings st e).
Proof.
  intros HG. destruct e; simpl.
  - case_decide; [exact HG | now apply runSequence_good].
  - now apply togglePause_good.
  - now apply cleanup_good.
  - now apply tick_good.
  - now apply settle_good.
  - eapply quiet_good; [apply quiet_dismiss | exact HG].
Qed.

Lemma initial_good timers settings : Good timers settings initial.
Proof.
  split; [intros j iv; simpl; rewrite lookup_empty; discriminate |].
  split; [intros a; simpl; intros Ha; inversion Ha |].
  split; [right; reflexivity |].
  split; [| intros _; simpl; lia].
  intros i. simpl. rewrite lookup_empty. intros [x Hx]. discriminate.
Qed.

Lemma reachable_good timers settings st :
  reachable timers settings st → Good timers settings st.
Proof.
  intros [es ->].
  assert (Hrun : ∀ es s, Good timers settings s →
                         Good timers settings (run timers settings es s)).
  { clear es. induction es as [|e es IH]; intros s Hs; [exact Hs |].
    apply IH. now apply step_good. }
  apply Hrun. apply runSequence_good, initial_good.
Qed.

(** ** Reachable states *)

Lemma sample_counting_reachable :
  reachable Sample.timers Sample.settings Sample.counting.
Proof. exists [Settle (StepSpeech 0 1) (Rejected "503")]. reflexivity. Qed.

(** X1. At any moment at most one interval is registered: the one whose
    handle [intervalRef] holds, and it ticks under the current generation,
    so that the callback's branch for a superseded generation is never
    taken. *)
Theorem one_interval_under_live_generation timers settings st :
  reachable timers settings st →
  (∀ j iv, intervals st !! j = Some iv →
     intervalRef st = Some j ∧ tickOpId iv = opIdRef st)
  ∧ (intervals st = ∅ ∨ ∃ j iv, intervals st = {[j := iv]})
  ∧ (∀ j, tick timers settings j st = st
          ∨ ∃ iv, intervals st !! j = Some iv ∧ opIdRef st = tickOpId iv).
Proof.
  intros Hreach. destruct (reachable_good timers settings st Hreach) as (G1 & _).
  split; [exact G1 |]. split.
  - destruct (intervalRef st) as [i|] eqn:Href.
    + destruct (intervals st !! i) as [iv|] eqn:Hi.
      * right. exists i, iv. apply map_eq. intros j.
        destruct (decide (i = j)) as [<- | Hne].
        -- now rewrite lookup_singleton_eq.
        -- rewrite lookup_singleton_ne by exact Hne.
           destruct (intervals st !! j) as [iv'|] eqn:Hj; [| reflexivity].
           destruct (G1 j iv' Hj). congruence.
      * left. apply map_eq. intros j. rewrite lookup_empty.
        destruct (intervals st !! j) as [iv'|] eqn:Hj; [| reflexivity].
        destruct (G1 j iv' Hj) as [Heq _]. congruence.
    + left. apply map_eq. intros j. rewrite lookup_empty.
      destruct (intervals st !! j) as [iv'|] eqn:Hj; [| reflexivity].
      destruct (G1 j iv' Hj). congruence.
  - intros j. destruct (intervals st !! j) as [iv|] eqn:Hj.
    + right. exists iv. split; [reflexivity |]. destruct (G1 j iv Hj). congruence.
    + left. now apply tick_cancelled.
Qed.

Lemma one_interval_under_live_generation_witness :
  intervals Sample.counting
  = {[1%nat := {| tickOpId := 1; onComplete := StepComplete 0 1 |}]}.
Proof.
  destruct (one_interval_under_live_generation Sample.timers Sample.settings
              Sample.counting sample_counting_reachable)
    as (_ & [Hempty | (j & iv & Hone)] & _).
  - exfalso. assert (H : intervals Sample.counting !! 1%nat = None)
      by (rewrite Hempty; apply lookup_empty).
    vm_compute in H. discriminate.
  - assert (H : intervals Sample.counting !! 1%nat
              = Some {| tickOpId := 1; onComplete := StepComplete 0 1 |})
      by (vm_compute; reflexivity).
    rewrite Hone in H. apply lookup_singleton_Some in H as [<- <-]. exact Hone.
Defined.

(** X2. The index shown always names a step of the list (when there is
    one): it is never moved to the completion sentinel, and the cache holds
    no entry beyond that sentinel. *)
Theorem index_and_cache_in_range timers settings st :
  reachable timers settings st →
  (timers ≠ [] → is_Some (timers !! currentIndex st))
  ∧ (timers = [] → currentIndex st = 0%nat)
  ∧ (∀ i, is_Some (audioCache st !! i) → (i ≤ length timers)%nat).
Proof.
  intros Hreach.
  destruct (reachable_good timers settings st Hreach) as (_ & _ & G3 & G4 & _).
  split; [| split; [| exact G4]].
  - intros Hne. apply lookup_lt_is_Some_2. destruct G3 as [Hlt | H0]; [exact Hlt |].
    rewrite H0. destruct timers; [congruence | simpl; lia].
  - intros ->. destruct G3 as [Hlt | H0]; [simpl in Hlt; lia | exact H0].
Qed.

Lemma index_and_cache_in_range_witness :
  is_Some (Sample.timers !! currentIndex Sample.counting).
Proof.
  apply (proj1 (index_and_cache_in_range Sample.timers Sample.settings
                  Sample.counting sample_counting_reachable)).
  discriminate.
Defined.

(** X3. When no step has a negative duration and the rest interval is not
    negative, the remaining seconds shown are never negative. *)
Theorem remaining_never_negative timers settings st :
  durations_nonneg timers settings →
  reachable timers settings st →
  0 <= remainingSeconds st.
Proof.
  intros Hnn Hreach.
  destruct (reachable_good timers settings st Hreach) as (_ & _ & _ & _ & G5).
  exact (G5 Hnn).
Qed.

Lemma remaining_never_negative_witness : 0 <= remainingSeconds Sample.counting.
Proof.
  apply (remaining_never_negative Sample.timers Sample.settings Sample.counting).
  - split; [repeat constructor; simpl; lia | simpl; lia].
  - exists [Settle (StepSpeech 0 1) (Rejected "503")]. reflexivity.
Defined.

(** ** Leaving the run *)

Lemma frozen_refl st : frozen st st.
Proof. repeat split; auto. Qed.

Lemma frozen_trans st1 st2 st3 : frozen st1 st2 → frozen st2 st3 → frozen st1 st3.
Proof.
  intros (H1 & H2 & H3 & H4 & H5 & H6 & H7 & H8 & H9 & H10 & H11 & H12)
         (K1 & K2 & K3 & K4 & K5 & K6 & K7 & K8 & K9 & K10 & K11 & K12).
  unfold frozen.
  split; [congruence |]. split; [congruence |]. split; [congruence |].
  split; [congruence |]. split; [congruence |]. split; [congruence |].
  split; [congruence |]. split; [congruence |]. split; [congruence |].
  split; [auto |]. split; [auto |].
  intros e He. destruct (K12 e He) as [Hin | Hdec]; auto.
Qed.

Lemma frozen_stop source st : frozen st (stop source st).
Proof.
  unfold frozen, stop. simpl.
  do 9 (split; [reflexivity |]).
  split; [| auto].
  intros x Hx. apply list_elem_of_filter in Hx. tauto.
Qed.

Lemma frozen_resumed a st :
  frozen st (set_pending (remove_first a (pending st)) st).
Proof.
  unfold frozen. simpl.
  do 9 (split; [reflexivity |]).
  split; [auto |]. split; [| auto].
  intros b Hb. eapply remove_first_subset, Hb.
Qed.

(** A continuation that resumes under a superseded generation, and the
    end of a prefetch, start nothing. *)
Lemma resume_superseded_frozen timers settings a r st :
  (∀ g, generation a = Some g → g ≠ opIdRef st) →
  frozen st (resume timers settings a r st).
Proof.
  intros Hstale.
  destruct a as [index g | index g source | g | g source | index g | t]; simpl;
    try (specialize (Hstale g eq_refl)).
  - unfold startSilently. destruct r.
    + rewrite decide_True by congruence. apply frozen_refl.
    + rewrite decide_False by congruence. apply frozen_refl.
  - rewrite decide_True by (simpl; congruence). apply frozen_stop.
  - unfold finish. destruct r.
    + rewrite decide_True by congruence. apply frozen_refl.
    + rewrite decide_False by congruence. apply frozen_refl.
  - unfold finish. rewrite decide_False by (simpl; congruence). apply frozen_stop.
  - rewrite decide_True by congruence. apply frozen_refl.
  - unfold preloadSettled. destruct r as [base64|]; [| apply frozen_refl].
    assert (Hlog : ∀ e, e ∈ calls st ++ [CallDecode base64] →
                        e ∈ calls st ∨ Obs.isDecodeCall e = true).
    { intros e He. apply elem_of_app in He as [He | He]; [auto |].
      apply list_elem_of_singleton in He. subst e. auto. }
    destruct (decodeGeminiAudio base64); unfold frozen; simpl;
      (do 9 (split; [reflexivity |])); auto.
Qed.

Lemma step_superseded timers settings st e :
  superseded st → after_exit e →
  frozen st (step timers settings st e) ∧ superseded (step timers settings st e).
Proof.
  intros [Hnone Hstale] He. destruct e; simpl in *; try contradiction.
  - rewrite tick_cancelled by (rewrite Hnone; apply lookup_empty).
    split; [apply frozen_refl | split; assumption].
  - unfold settle. case_decide as Hin;
      [| split; [apply frozen_refl | split; assumption]].
    set (s := set_pending (remove_first a (pending st)) st).
    assert (Hres : frozen s (resume timers settings a r s)).
    { apply resume_superseded_frozen. intros g Hg.
      specialize (Hstale a g Hin Hg). simpl. lia. }
    assert (Hfrozen : frozen st (resume timers settings a r s))
      by (eapply frozen_trans; [apply frozen_resumed | exact Hres]).
    split; [exact Hfrozen |].
    destruct Hfrozen as (_ & _ & _ & _ & _ & Hop & Hint & _ & _ & _ & Hpend & _).
    split; [now rewrite Hint |].
    intros b g Hb Hg. rewrite Hop. eapply Hstale; [apply Hpend, Hb | exact Hg].
Qed.

(** X4. Leaving the run is final. Teardown releases the playback handle
    and leaves no interval registered; whatever fires or settles
    afterwards changes neither the phase, the index, the remaining
    seconds, the pause flag nor the generation, registers no interval and
    starts no playback, speech request or alarm. *)
Theorem exit_is_final timers settings st es :
  reachable timers settings st →
  Forall after_exit es →
  let exited := cleanup st in
  intervals exited = ∅
  ∧ intervalRef exited = None
  ∧ audioStopRef exited = None
  ∧ (∀ source, audioStopRef st = Some source → source ∉ sources exited)
  ∧ opIdRef exited = S (opIdRef st)
  ∧ frozen exited (run timers settings es exited).
Proof.
  intros Hreach Hes exited.
  destruct (reachable_good timers settings st Hreach) as (G1 & G2 & _).
  pose proof (stopEverything_clears st (fun j iv Hj => proj1 (G1 j iv Hj)))
    as (Hi & Hr & Ho & Hp & _).
  pose proof (stopEverything_effect st) as (Hstop & _ & _ & _ & _ & _ & _ & _ & _ & Hsil).
  assert (Hsup : superseded exited).
  { subst exited. unfold cleanup. split; [exact Hi |].
    intros a g Ha Hg. simpl in *. rewrite Hp in Ha. rewrite Ho.
    specialize (G2 a Ha). destruct a; simpl in *; simplify_eq; lia. }
  split; [exact Hi |]. split; [exact Hr |]. split; [exact Hstop |].
  split; [exact Hsil |]. split; [subst exited; unfold cleanup; simpl; now rewrite Ho |].
  clearbody exited. clear - Hes Hsup.
  revert exited Hsup. induction Hes as [|e es He Hes IH]; intros s Hsup.
  - apply frozen_refl.
  - destruct (step_superseded timers settings s e Hsup He) as [Hf Hs].
    eapply frozen_trans; [exact Hf |]. apply IH, Hs.
Qed.

Lemma exit_is_final_witness :
  let exited := cleanup Sample.counting in
  phase (run Sample.timers Sample.settings
           [Tick 1; Settle (PreloadSpeech 1) (Fulfilled "AAD/fw=="); Tick 1] exited)
  = COUNTDOWN
  ∧ intervals exited = ∅.
Proof.
  intros exited.
  destruct (exit_is_final Sample.timers Sample.settings Sample.counting
              [Tick 1; Settle (PreloadSpeech 1) (Fulfilled "AAD/fw=="); Tick 1])
    as (Hnone & _ & _ & _ & _ & Hfrozen).
  - exists [Settle (StepSpeech 0 1) (Rejected "503")]. reflexivity.
  - repeat constructor.
  - split; [| exact Hnone]. destruct Hfrozen as [Hphase _].
    fold exited in Hphase. rewrite Hphase. reflexivity.
Defined.

(** ** Counting down *)

(** X5. A step's countdown takes [max 1 d] ticks from [d] remaining
    seconds. The ticks before the last only lower the remaining seconds by
    one each; the last one sets them to zero, clears the interval and
    sounds the alarm, once; ticks that arrive later do nothing. *)
Theorem countdown_sounds_alarm_once timers settings i index st :
  intervalRef st = Some i →
  intervals st !! i
  = Some {| tickOpId := opIdRef st; onComplete := StepComplete index (opIdRef st) |} →
  let d := remainingSeconds st in
  let n := Z.to_nat (Z.max 1 d) in
  let st' := run timers settings (replicate n (Tick i)) st in
  (∀ k, (k < n)%nat →
     run timers settings (replicate k (Tick i)) st
     = set_remainingSeconds (d - Z.of_nat k) st)
  ∧ remainingSeconds st' = 0
  ∧ intervals st' !! i = None
  ∧ calls st' = calls st ++ [CallPlayAlarm (alarmSound settings) (volume settings)]
  ∧ pending st' = pending st ++ [AlarmDone index (opIdRef st)]
  ∧ phase st' = phase st ∧ currentIndex st' = currentIndex st
  ∧ opIdRef st' = opIdRef st
  ∧ tick timers settings i st' = st'.
Proof.
  intros Href Hi d n st'.
  split.
  { intros k Hk.
    apply (ticks_count_down timers settings i _ k st Hi eq_refl). subst n d. lia. }
  assert (Hst' : st' = set_remainingSeconds 0
                         (fire timers settings (StepComplete index (opIdRef st))
                            (clearInterval i
                               (set_remainingSeconds (Z.min 1 d) st)))).
  { subst st' n d.
    exact (countdown_runs_out timers settings i _ st Hi eq_refl Href). }
  assert (Hgone : intervals st' !! i = None).
  { rewrite Hst'. simpl. unfold handleStepComplete. simpl.
    rewrite decide_False by auto. simpl. apply lookup_delete_eq. }
  split; [rewrite Hst'; reflexivity |].
  split; [exact Hgone |].
  rewrite (tick_cancelled timers settings i st' Hgone).
  rewrite Hst'. simpl. unfold handleStepComplete. simpl.
  rewrite decide_False by auto. simpl. auto 10.
Qed.

Lemma countdown_sounds_alarm_once_witness :
  remainingSeconds Sample.ringing = 0
  ∧ calls Sample.ringing
    = calls Sample.counting ++ [CallPlayAlarm bell (8 # 10)%Q].
Proof.
  destruct (countdown_sounds_alarm_once Sample.timers Sample.settings 1 0
              Sample.counting eq_refl eq_refl)
    as (_ & Hzero & _ & Hcalls & _).
  split; [exact Hzero | exact Hcalls].
Defined.

(** What pausing and resuming a ticking countdown amounts to. *)
Lemma pause_then_resume i iv st :
  intervalRef st = Some i → intervals st !! i = Some iv →
  (∀ j iv', intervals st !! j = Some iv' → j = i) →
  isPaused st = false → phase st = COUNTDOWN ∨ phase st = BUFFER →
  let paused := togglePause st in
  let resumed := togglePause paused in
  paused = set_intervals ∅ (set_isPaused true st)
  ∧ resumed
    = set_intervalRef (Some (nextInterval st))
        (set_nextInterval (S (nextInterval st))
           (set_intervals
              {[nextInterval st :=
                  {| tickOpId := opIdRef st;
                     onComplete := Resumed (phase st) (currentIndex st) |}]}
              (set_isPaused false st))).
Proof.
  intros Href Hi Hone Hpaused Hphase paused resumed.
  assert (Hempty : delete i (intervals st) = ∅).
  { apply map_eq. intros j. rewrite lookup_empty.
    destruct (decide (i = j)) as [<- | Hne]; [apply lookup_delete_eq |].
    rewrite lookup_delete_ne by exact Hne.
    destruct (intervals st !! j) as [iv'|] eqn:Hj; [| reflexivity].
    specialize (Hone j iv' Hj). congruence. }
  assert (Hp : paused = set_intervals ∅ (set_isPaused true st)).
  { subst paused. unfold togglePause.
    rewrite decide_False by (intros [H1 H2]; destruct Hphase; congruence).
    rewrite Hpaused. simpl. rewrite Href. unfold clearInterval. simpl.
    now rewrite Hempty. }
  split; [exact Hp |].
  subst resumed. rewrite Hp. unfold togglePause. simpl.
  rewrite decide_False by (intros [H1 H2]; destruct Hphase; congruence).
  unfold startTimer, clearInterval. simpl. rewrite Href. simpl.
  rewrite delete_empty, insert_empty.
  destruct st; reflexivity.
Qed.

(** X6. Pausing freezes the countdown: while paused, ticks of the old
    interval change nothing and the remaining seconds stay as they were.
    Resuming neither skips nor repeats a second: the countdown continues
    from the frozen value and, in [COUNTDOWN], sounds the alarm after
    exactly that many further ticks, [d] ticks in all. *)
Theorem pause_freezes_resume_continues timers settings i iv st (k m : nat) :
  intervalRef st = Some i →
  intervals st !! i = Some iv → tickOpId iv = opIdRef st →
  (∀ j iv', intervals st !! j = Some iv' → j = i) →
  isPaused st = false → phase st = COUNTDOWN →
  Z.of_nat k < remainingSeconds st →
  let d := remainingSeconds st in
  let paused := togglePause (run timers settings (replicate k (Tick i)) st) in
  let resumed := togglePause (run timers settings (replicate m (Tick i)) paused) in
  let i' := nextInterval st in
  let done :=
    run timers settings (replicate (Z.to_nat (d - Z.of_nat k)) (Tick i')) resumed in
  isPaused paused = true
  ∧ remainingSeconds paused = d - Z.of_nat k
  ∧ run timers settings (replicate m (Tick i)) paused = paused
  ∧ isPaused resumed = false
  ∧ remainingSeconds resumed = d - Z.of_nat k
  ∧ opIdRef resumed = opIdRef st
  ∧ (∀ j, (j < Z.to_nat (d - Z.of_nat k))%nat →
       calls (run timers settings (replicate j (Tick i')) resumed) = calls st)
  ∧ remainingSeconds done = 0
  ∧ calls done = calls st ++ [CallPlayAlarm (alarmSound settings) (volume settings)]
  ∧ pending done = pending st ++ [AlarmDone (currentIndex st) (opIdRef st)].
Proof.
  intros Href Hi Hop Hone Hpaused Hphase Hk d paused.
  set (counted := run timers settings (replicate k (Tick i)) st) in *.
  assert (Hcounted : counted = set_remainingSeconds (d - Z.of_nat k) st).
  { subst counted d. apply (ticks_count_down timers settings i iv); auto. }
  destruct (pause_then_resume i iv counted) as [Hp Hr];
    try (rewrite Hcounted; simpl; auto; fail).
  fold paused in Hp, Hr.
  assert (Hidle : run timers settings (replicate m (Tick i)) paused = paused).
  { clear - Hp. induction m as [|m IH]; [reflexivity |].
    rewrite run_replicate_S. simpl step.
    rewrite tick_cancelled; [exact IH |].
    rewrite Hp. simpl. apply lookup_empty. }
  cbv zeta. rewrite Hidle.
  set (resumed := togglePause paused) in *.
  set (i' := nextInterval st).
  set (done := run timers settings _ resumed).
  assert (Hrem : remainingSeconds resumed = d - Z.of_nat k)
    by (rewrite Hr, Hcounted; reflexivity).
  assert (Hi' : intervals resumed !! i'
                = Some {| tickOpId := opIdRef resumed;
                          onComplete := Resumed COUNTDOWN (currentIndex st) |}).
  { rewrite Hr, Hcounted. simpl. rewrite Hphase. apply lookup_singleton_eq. }
  assert (Href' : intervalRef resumed = Some i')
    by (rewrite Hr, Hcounted; reflexivity).
  split; [rewrite Hp; reflexivity |].
  split; [rewrite Hp, Hcounted; reflexivity |].
  split; [reflexivity |].
  split; [rewrite Hr; reflexivity |].
  split; [exact Hrem |].
  split; [rewrite Hr, Hcounted; reflexivity |].
  split.
  { intros j Hj.
    rewrite (ticks_count_down timers settings i' _ j resumed Hi' eq_refl) by lia.
    rewrite Hr, Hcounted. reflexivity. }
  assert (Hdone : done = set_remainingSeconds 0
                           (fire timers settings (Resumed COUNTDOWN (currentIndex st))
                              (clearInterval i'
                                 (set_remainingSeconds
                                    (Z.min 1 (remainingSeconds resumed)) resumed)))).
  { subst done.
    replace (Z.to_nat (d - Z.of_nat k))
      with (Z.to_nat (Z.max 1 (remainingSeconds resumed))) by lia.
    exact (countdown_runs_out timers settings i' _ resumed Hi' eq_refl Href'). }
  rewrite Hdone. simpl.
  unfold handleStepComplete. simpl. rewrite decide_False by auto. simpl.
  rewrite Hr, Hcounted. simpl. auto.
Qed.

Lemma pause_freezes_resume_continues_witness :
  let paused :=
    togglePause (run Sample.timers Sample.settings (replicate 30 (Tick 1))
                   Sample.counting) in
  remainingSeconds paused = 60
  ∧ run Sample.timers Sample.settings (replicate 5 (Tick 1)) paused = paused
  ∧ remainingSeconds
      (run Sample.timers Sample.settings (replicate 60 (Tick 2))
         (togglePause
            (run Sample.timers Sample.settings (replicate 5 (Tick 1)) paused)))
    = 0.
Proof.
  intros paused.
  destruct (pause_freezes_resume_continues Sample.timers Sample.settings 1
              {| tickOpId := 1; onComplete := StepComplete 0 1 |}
              Sample.counting 30 5)
    as (_ & Hrem & Hidle & _ & _ & _ & _ & Hzero & _).
  - reflexivity.
  - reflexivity.
  - reflexivity.
  - intros j iv' Hj.
    destruct (reachable_good _ _ _ sample_counting_reachable) as (G1 & _).
    destruct (G1 j iv' Hj) as [Href _]. vm_compute in Href. congruence.
  - reflexivity.
  - reflexivity.
  - vm_compute. reflexivity.
  - split; [exact Hrem |]. split; [exact Hidle | exact Hzero].
Defined.

(** ** From one step to the next *)

(** X7. What follows a step's alarm. With a further step and a positive
    rest interval the run rests: phase [BUFFER], the index already that of
    the coming step, the rest counted down under the same generation.
    With a further step and no rest interval it starts that step at once.
    After the last step it goes to the completion announcement, whatever
    the rest interval: no rest follows the last step. *)
Theorem after_the_alarm timers settings index r st :
  AlarmDone index (opIdRef st) ∈ pending st →
  let st' := settle timers settings (AlarmDone index (opIdRef st)) r st in
  ((index + 1 < length timers)%nat → 0 < bufferSeconds settings →
     phase st' = BUFFER ∧ currentIndex st' = (index + 1)%nat
     ∧ remainingSeconds st' = bufferSeconds settings
     ∧ opIdRef st' = opIdRef st
     ∧ Obs.ticking st'
       = Some {| tickOpId := opIdRef st;
                 onComplete := BufferElapsed (index + 1) (opIdRef st) |})
  ∧ ((index + 1 < length timers)%nat → bufferSeconds settings <= 0 →
     currentIndex st' = (index + 1)%nat
     ∧ (phase st' = PREPARING_AUDIO ∨ phase st' = ANNOUNCING)
     ∧ opIdRef st' = S (opIdRef st) ∧ Obs.ticking st' = None)
  ∧ ((length timers ≤ index + 1)%nat →
     phase st' = COMPLETION_ANNOUNCEMENT
     ∧ currentIndex st' = currentIndex st
     ∧ opIdRef st' = S (opIdRef st) ∧ Obs.ticking st' = None).
Proof.
  intros Hin st'. subst st'. rewrite settle_pending by exact Hin.
  set (s := set_pending _ st).
  assert (Hs : opIdRef s = opIdRef st ∧ currentIndex s = currentIndex st)
    by (split; reflexivity).
  destruct Hs as [Hop Hidx]. rewrite <- Hop, <- Hidx. clearbody s.
  simpl. rewrite decide_False by auto. unfold totalSteps.
  split; [| split].
  - intros Hnext Hpos. rewrite decide_True by auto.
    pose proof (startTimer_frame (bufferSeconds settings) (opIdRef s)
                  (BufferElapsed (index + 1) (opIdRef s))
                  (set_currentIndex (index + 1) (set_phase BUFFER s)))
      as (H1 & H2 & H3 & _ & _ & _ & H7 & _).
    rewrite startTimer_ticking. auto.
  - intros Hnext Hzero. rewrite decide_False by lia.
    pose proof (runSequence_advances timers settings (index + 1) s)
      as (Hstep & _ & _ & Htick & _ & Hgen).
    destruct (Hstep Hnext). auto.
  - intros Hlast. rewrite decide_False by lia.
    pose proof (runSequence_advances timers settings (index + 1) s)
      as (_ & Hdone & _ & Htick & _ & Hgen).
    destruct (Hdone Hlast). auto.
Qed.

Lemma after_the_alarm_witness :
  let st' := settle Sample.timers Sample.settings (AlarmDone 0 1)
               (Fulfilled EmptyString) Sample.ringing in
  phase st' = BUFFER ∧ remainingSeconds st' = 5.
Proof.
  intros st'.
  destruct (after_the_alarm Sample.timers Sample.settings 0
              (Fulfilled EmptyString) Sample.ringing) as (Hrest & _).
  - vm_compute. apply list_elem_of_In. simpl. auto.
  - destruct Hrest as (Hphase & _ & Hrem & _); [simpl; lia | reflexivity |].
    split; [exact Hphase | exact Hrem].
Defined.

(** X8. A rest interval that runs out starts the step it announced,
    whether it ran through or was paused and resumed on the way: after
    [max 1 d] ticks from [d] remaining seconds the advancing operation has
    been entered for the index shown, under a new generation. *)
Theorem rest_runs_out_into_announced_step timers settings i cb st :
  intervalRef st = Some i →
  intervals st !! i = Some {| tickOpId := opIdRef st; onComplete := cb |} →
  cb = BufferElapsed (currentIndex st) (opIdRef st)
  ∨ cb = Resumed BUFFER (currentIndex st) →
  (currentIndex st < length timers)%nat →
  let n := Z.to_nat (Z.max 1 (remainingSeconds st)) in
  let st' := run timers settings (replicate n (Tick i)) st in
  (∀ k, (k < n)%nat →
     run timers settings (replicate k (Tick i)) st
     = set_remainingSeconds (remainingSeconds st - Z.of_nat k) st)
  ∧ currentIndex st' = currentIndex st
  ∧ (phase st' = PREPARING_AUDIO ∨ phase st' = ANNOUNCING)
  ∧ opIdRef st' = S (opIdRef st)
  ∧ remainingSeconds st' = 0
  ∧ Obs.ticking st' = None ∧ intervals st' !! i = None.
Proof.
  intros Href Hi Hcb Hidx n st'.
  split.
  { intros k Hk.
    apply (ticks_count_down timers settings i _ k st Hi eq_refl). subst n. lia. }
  assert (Hst' : st' = set_remainingSeconds 0
                         (fire timers settings cb
                            (clearInterval i
                               (set_remainingSeconds
                                  (Z.min 1 (remainingSeconds st)) st)))).
  { subst st' n. exact (countdown_runs_out timers settings i _ st Hi eq_refl Href). }
  set (s := clearInterval i _) in Hst'.
  assert (Hfire : fire timers settings cb s
                  = runSequence timers settings (currentIndex st) s).
  { destruct Hcb as [-> | ->]; simpl; [| reflexivity].
    now rewrite decide_True by reflexivity. }
  rewrite Hfire in Hst'.
  pose proof (runSequence_advances timers settings (currentIndex st) s)
    as (Hstep & _ & Hclr & Htick & _ & Hgen).
  destruct (Hstep Hidx) as [Hindex Hphase].
  rewrite Hst'. simpl.
  split; [exact Hindex |]. split; [exact Hphase |]. split; [exact Hgen |].
  split; [reflexivity |]. split; [exact Htick |].
  assert (Hs : intervals s !! i = None) by (subst s; simpl; apply lookup_delete_eq).
  clear - Hs. revert Hs. unfold runSequence.
  generalize (S (opIdRef s)). intros g Hs.
  assert (Hentry : intervals (set_isPaused false (setErrorMessage None
                      (stopEverything (set_opIdRef g s)))) !! i = None).
  { unfold setErrorMessage, stopEverything, clearInterval, stop. simpl.
    repeat (case_decide || case_match); simpl;
      rewrite ?lookup_delete_None; auto. }
  revert Hentry. cbv zeta. generalize (set_isPaused false (setErrorMessage None
                      (stopEverything (set_opIdRef g s)))).
  intros s' Hs'.
  unfold announce, playCompletion, playAudioBuffer, await, log.
  repeat (case_decide || case_match); simplify_eq/=; assumption.
Qed.

Lemma rest_runs_out_into_announced_step_witness :
  let resting := settle Sample.timers Sample.settings (AlarmDone 0 1)
                   (Fulfilled EmptyString) Sample.ringing in
  currentIndex (run Sample.timers Sample.settings (replicate 5 (Tick 2)) resting)
  = 1%nat.
Proof.
  intros resting.
  destruct (rest_runs_out_into_announced_step Sample.timers Sample.settings 2
              (BufferElapsed 1 1) resting)
    as (_ & Hindex & _); [reflexivity | reflexivity | left; reflexivity
                         | vm_compute; lia |].
  exact Hindex.
Defined.

(** ** Announcements *)

(** X9. Entering the advancing operation for a step. On a cache hit no
    speech is requested: the cached buffer is played at the configured
    volume and the phase is [ANNOUNCING] at once. On a miss the step's
    announcement is requested with its name and duration and the phase is
    [PREPARING_AUDIO]; nothing is played yet. *)
Theorem runSequence_starts_step timers settings index step st :
  timers !! index = Some step →
  let st' := runSequence timers settings index st in
  currentIndex st' = index
  ∧ opIdRef st' = S (opIdRef st)
  ∧ isPaused st' = false ∧ errorMessage st' = None
  ∧ (∀ buffer, audioCache st !! index = Some buffer →
       phase st' = ANNOUNCING
       ∧ calls st' = calls st ++ [CallPlayBuffer (nextSource st) buffer (volume settings)]
       ∧ audioStopRef st' = Some (nextSource st)
       ∧ pending st' = pending st ++ [StepPlayback index (S (opIdRef st)) (nextSource st)])
  ∧ (audioCache st !! index = None →
       phase st' = PREPARING_AUDIO
       ∧ calls st' = calls st ++ [CallTimerAnnouncement (name step) (durationSeconds step)]
       ∧ audioStopRef st' = None
       ∧ pending st' = pending st ++ [StepSpeech index (S (opIdRef st))]).
Proof.
  intros Hstep st'. subst st'.
  assert (Hlt : (index < length timers)%nat) by (eapply lookup_lt_Some; eauto).
  assert (Hentry : ∀ s, s = set_isPaused false (setErrorMessage None
                      (stopEverything (set_opIdRef (S (opIdRef st)) st))) →
            opIdRef s = S (opIdRef st) ∧ errorMessage s = None
            ∧ isPaused s = false ∧ audioStopRef s = None
            ∧ audioCache s = audioCache st ∧ calls s = calls st
            ∧ pending s = pending st ∧ nextSource s = nextSource st).
  { intros s ->. unfold setErrorMessage, stopEverything, clearInterval, stop.
    simpl. repeat (case_decide || case_match); simpl in *; auto 10. }
  unfold runSequence. cbv zeta.
  specialize (Hentry _ eq_refl). revert Hentry.
  generalize (set_isPaused false (setErrorMessage None
                (stopEverything (set_opIdRef (S (opIdRef st)) st)))).
  intros s (Hop & Hmsg & Hpaused & Hstop & Hcache & Hcalls & Hpend & Hnext).
  rewrite decide_False by lia. rewrite Hstep. simpl. rewrite Hcache.
  destruct (audioCache st !! index) as [buffer|] eqn:Hc.
  - unfold announce, playAudioBuffer. simpl.
    rewrite decide_False by auto. simpl.
    rewrite Hcalls, Hpend, Hnext.
    split; [reflexivity |]. split; [exact Hop |]. split; [exact Hpaused |].
    split; [exact Hmsg |]. split; [| discriminate].
    intros b [= <-]. auto.
  - simpl. rewrite Hcalls, Hpend.
    split; [reflexivity |]. split; [exact Hop |]. split; [exact Hpaused |].
    split; [exact Hmsg |]. split; [discriminate |]. auto.
Qed.

Lemma runSequence_starts_step_witness :
  phase (runSequence Sample.timers Sample.settings 1 Sample.counting)
  = PREPARING_AUDIO.
Proof.
  destruct (runSequence_starts_step Sample.timers Sample.settings 1
              Sample.stretch Sample.counting eq_refl)
    as (_ & _ & _ & _ & _ & Hmiss).
  apply Hmiss. reflexivity.
Defined.

(** X10. The speech for a step arrives. Under the generation that asked
    for it, the payload is decoded once, the buffer is stored in the cache
    under the step's index and played at the configured volume, and the
    phase becomes [ANNOUNCING]. Under a superseded generation the payload
    is dropped: nothing is decoded, cached or played. *)
Theorem speech_arrives timers settings index g base64 buffer st :
  StepSpeech index g ∈ pending st →
  decodeGeminiAudio base64 = Fulfilled buffer →
  let parked := set_pending (remove_first (StepSpeech index g) (pending st)) st in
  let st' := settle timers settings (StepSpeech index g) (Fulfilled base64) st in
  (g = opIdRef st →
     phase st' = ANNOUNCING
     ∧ audioCache st' = <[index := buffer]> (audioCache st)
     ∧ audioCache st' !! index = Some buffer
     ∧ calls st'
       = calls st ++ [CallDecode base64;
                      CallPlayBuffer (nextSource st) buffer (volume settings)]
     ∧ audioStopRef st' = Some (nextSource st)
     ∧ pending st' = pending parked ++ [StepPlayback index g (nextSource st)]
     ∧ opIdRef st' = opIdRef st)
  ∧ (g ≠ opIdRef st → st' = parked).
Proof.
  intros Hin Hdecode parked st'. subst st'.
  rewrite settle_pending by exact Hin. fold parked. simpl.
  split.
  - intros ->. rewrite decide_False by (subst parked; simpl; auto).
    rewrite Hdecode. unfold announce, playAudioBuffer. simpl.
    rewrite decide_False by auto. simpl.
    rewrite lookup_insert_eq. rewrite <- app_assoc. simpl. auto 10.
  - intros Hstale. rewrite decide_True by (subst parked; simpl; congruence).
    reflexivity.
Qed.

Lemma speech_arrives_witness :
  let st' := settle Sample.timers Sample.settings (StepSpeech 0 1)
               (Fulfilled "AAD/fw==") (mount Sample.timers Sample.settings) in
  phase st' = ANNOUNCING
  ∧ channelData <$> audioCache st' !! 0%nat = Some [0 # 32768; 32767 # 32768].
Proof.
  intros st'.
  destruct (speech_arrives Sample.timers Sample.settings 0 1 "AAD/fw=="
              {| numberOfChannels := 1; sampleRate := 24000;
                 channelData := [0 # 32768; 32767 # 32768] |}
              (mount Sample.timers Sample.settings)) as [Hlive _].
  - vm_compute. apply list_elem_of_In. simpl. auto.
  - reflexivity.
  - destruct Hlive as (Hphase & _ & Hhit & _); [reflexivity |].
    fold st' in Hphase, Hhit. split; [exact Hphase | now rewrite Hhit].
Defined.

(** X11. The announcement ends. Under the live generation the stop handle
    is released, the phase becomes [COUNTDOWN], the countdown starts from
    the step's [durationSeconds], and the next announcement (the
    completion clip after the last step) is requested in the background,
    unless the cache already holds it. Under a superseded generation
    nothing but the source's end is recorded. *)
Theorem announcement_ends timers settings index step g source st :
  timers !! index = Some step →
  StepPlayback index g source ∈ pending st →
  let parked :=
    set_pending (remove_first (StepPlayback index g source) (pending st)) st in
  let st' := settle timers settings (StepPlayback index g source) (Fulfilled EmptyString) st in
  (g = opIdRef st →
     phase st' = COUNTDOWN
     ∧ remainingSeconds st' = durationSeconds step
     ∧ audioStopRef st' = None
     ∧ (source ∉ sources st')
     ∧ Obs.ticking st'
       = Some {| tickOpId := g; onComplete := StepComplete index g |}
     ∧ opIdRef st' = opIdRef st
     ∧ calls st'
       = calls st ++
         match audioCache st !! (index + 1)%nat, timers !! (index + 1)%nat with
         | Some _, _ => []
         | None, Some next =>
             [CallTimerAnnouncement (name next) (durationSeconds next)]
         | None, None => [CallCompletionAnnouncement]
         end)
  ∧ (g ≠ opIdRef st → st' = stop source parked).
Proof.
  intros Hstep Hin parked st'. subst st'.
  rewrite settle_pending by exact Hin. fold parked. simpl.
  assert (Hlt : (index < length timers)%nat) by (eapply lookup_lt_Some; eauto).
  split.
  - intros ->. rewrite decide_False by (subst parked; simpl; auto).
    rewrite Hstep.
    pose proof (startTimer_frame (durationSeconds step) (opIdRef st)
                  (StepComplete index (opIdRef st))
                  (set_phase COUNTDOWN (set_audioStopRef None (stop source parked))))
      as (_ & Hp' & Hr' & _ & _ & _ & Ho' & Ha' & Hs' & Hc' & Hcalls' & _).
    pose proof (startTimer_ticking (durationSeconds step) (opIdRef st)
                  (StepComplete index (opIdRef st))
                  (set_phase COUNTDOWN (set_audioStopRef None (stop source parked))))
      as Htick.
    set (timed := startTimer _ _ _ _) in *. clearbody timed.
    simpl in Hp', Hr', Ho', Ha', Hs', Hc', Hcalls'.
    pose proof (preloadNextAudio_frame timers (index + 1) timed)
      as (_ & Hp & Hr & _ & _ & _ & Ho & Ha & Hi & Hiv & Hs & _).
    split; [rewrite Hp, Hp'; reflexivity |].
    split; [rewrite Hr, Hr'; reflexivity |].
    split; [rewrite Ha, Ha'; reflexivity |].
    split; [rewrite Hs, Hs'; rewrite list_elem_of_filter; tauto |].
    split; [unfold Obs.ticking in *; rewrite Hi, Hiv; exact Htick |].
    split; [rewrite Ho, Ho'; reflexivity |].
    unfold preloadNextAudio. rewrite Hc'.
    destruct (audioCache st !! (index + 1)%nat) as [b|] eqn:Hcached.
    + rewrite decide_True by eauto. rewrite Hcalls'. now rewrite app_nil_r.
    + rewrite decide_False by (intros [? ?]; discriminate).
      destruct (timers !! (index + 1)%nat) as [next|] eqn:Hnext.
      * rewrite decide_False
          by (apply lookup_lt_Some in Hnext; lia).
        rewrite decide_True by (eapply lookup_lt_Some; eauto).
        simpl. now rewrite Hcalls'.
      * apply lookup_ge_None in Hnext.
        rewrite decide_True by lia. simpl. now rewrite Hcalls'.
  - intros Hstale. rewrite decide_True by (subst parked; simpl; congruence).
    reflexivity.
Qed.

Lemma announcement_ends_witness :
  let announcing := settle Sample.timers Sample.settings (StepSpeech 0 1)
                      (Fulfilled "AAD/fw==") (mount Sample.timers Sample.settings) in
  let st' := settle Sample.timers Sample.settings (StepPlayback 0 1 1)
               (Fulfilled EmptyString) announcing in
  phase st' = COUNTDOWN ∧ remainingSeconds st' = 90
  ∧ calls st' = calls announcing ++ [CallTimerAnnouncement "Stretch" 45].
Proof.
  intros announcing st'.
  destruct (announcement_ends Sample.timers Sample.settings 0 Sample.plank 1 1
              announcing eq_refl) as [Hlive _].
  - vm_compute. apply list_elem_of_In. simpl. auto.
  - destruct Hlive as (Hphase & Hrem & _ & _ & _ & _ & Hcalls); [reflexivity |].
    split; [exact Hphase |]. split; [exact Hrem | exact Hcalls].
Defined.

(** ** The end of the run *)

(** X12. Reaching the end. For an index at or past the end of the list the
    advancing operation enters [COMPLETION_ANNOUNCEMENT] and leaves the
    index as it was; it plays the completion clip from the cache when it is
    there and requests it otherwise. A failure of that request or of the
    decoding is swallowed: the phase becomes [COMPLETED] without a notice
    and without playback. When the clip has played, the phase becomes
    [COMPLETED]. *)
Theorem completion_is_reached timers settings index r source st :
  (length timers ≤ index)%nat →
  let entered := runSequence timers settings index st in
  let g := S (opIdRef st) in
  phase entered = COMPLETION_ANNOUNCEMENT
  ∧ currentIndex entered = currentIndex st
  ∧ opIdRef entered = g
  ∧ (audioCache st !! index = None →
       calls entered = calls st ++ [CallCompletionAnnouncement]
       ∧ pending entered = pending st ++ [CompletionSpeech g]
       ∧ (Obs.preparation_fails r →
          let st' := settle timers settings (CompletionSpeech g) r entered in
          phase st' = COMPLETED
          ∧ errorMessage st' = None
          ∧ Obs.playCalls st' = Obs.playCalls st))
  ∧ (∀ buffer, audioCache st !! index = Some buffer →
       calls entered
       = calls st ++ [CallPlayBuffer (nextSource st) buffer (volume settings)]
       ∧ pending entered = pending st ++ [CompletionPlayback g (nextSource st)])
  ∧ (∀ s, opIdRef s = g → CompletionPlayback g source ∈ pending s →
       phase (settle timers settings (CompletionPlayback g source) r s) = COMPLETED).
Proof.
  intros Hlen entered g.
  assert (Hentry : ∀ s, s = set_isPaused false (setErrorMessage None
                      (stopEverything (set_opIdRef (S (opIdRef st)) st))) →
            opIdRef s = S (opIdRef st) ∧ errorMessage s = None
            ∧ currentIndex s = currentIndex st
            ∧ audioCache s = audioCache st ∧ calls s = calls st
            ∧ pending s = pending st ∧ nextSource s = nextSource st).
  { intros s ->. unfold setErrorMessage, stopEverything, clearInterval, stop.
    simpl. repeat (case_decide || case_match); simpl in *; auto 10. }
  subst entered. unfold runSequence. cbv zeta.
  specialize (Hentry _ eq_refl). revert Hentry.
  generalize (set_isPaused false (setErrorMessage None
                (stopEverything (set_opIdRef (S (opIdRef st)) st)))).
  intros s (Hop & Hmsg & Hidx & Hcache & Hcalls & Hpend & Hnext).
  rewrite decide_True by exact Hlen. simpl. rewrite Hcache.
  assert (Hplayback : ∀ s0, opIdRef s0 = g → CompletionPlayback g source ∈ pending s0 →
            phase (settle timers settings (CompletionPlayback g source) r s0)
            = COMPLETED).
  { intros s0 Hg Hin. rewrite settle_pending by exact Hin. simpl.
    unfold finish. simpl. rewrite decide_True by exact Hg. reflexivity. }
  destruct (audioCache st !! index) as [buffer|] eqn:Hc.
  - unfold playCompletion, playAudioBuffer. simpl.
    rewrite decide_False by auto. simpl. rewrite Hcalls, Hpend, Hnext, Hop.
    split; [reflexivity |]. split; [exact Hidx |]. split; [reflexivity |].
    split; [discriminate |]. split; [| exact Hplayback].
    intros b [= <-]. auto.
  - simpl. rewrite Hcalls, Hpend, Hop.
    split; [reflexivity |]. split; [exact Hidx |]. split; [reflexivity |].
    split; [| split; [discriminate | exact Hplayback]].
    intros _. split; [reflexivity |]. split; [reflexivity |].
    intros Hfail.
    set (e := await (CompletionSpeech g) (log CallCompletionAnnouncement
                                            (set_phase COMPLETION_ANNOUNCEMENT s))).
    assert (Hin : CompletionSpeech g ∈ pending e).
    { subst e. simpl. apply elem_of_app. right. apply list_elem_of_singleton.
      reflexivity. }
    rewrite settle_pending by exact Hin. simpl.
    assert (Hcount : Obs.playCalls e = Obs.playCalls st).
    { subst e. rewrite playCalls_await, playCalls_log by reflexivity.
      unfold Obs.playCalls. simpl. now rewrite Hcalls. }
    destruct r as [base64 | err]; simpl in Hfail.
    + destruct Hfail as [err Herr]. rewrite Herr.
      rewrite decide_False by (simpl; auto).
      unfold finish. simpl. rewrite decide_True by exact Hop. simpl.
      split; [reflexivity |]. split; [exact Hmsg |].
      rewrite <- Hcount. unfold Obs.playCalls. simpl.
      rewrite !filter_app. simpl. rewrite !filter_cons_False by (simpl; discriminate).
      rewrite !filter_nil, !app_nil_r. reflexivity.
    + unfold finish. simpl. rewrite decide_True by exact Hop. simpl.
      split; [reflexivity |]. split; [exact Hmsg | exact Hcount].
Qed.

Lemma completion_is_reached_witness :
  let entered := runSequence Sample.timers Sample.settings 3 Sample.counting in
  phase entered = COMPLETION_ANNOUNCEMENT
  ∧ phase (settle Sample.timers Sample.settings (CompletionSpeech 2)
             (Rejected "503") entered) = COMPLETED.
Proof.
  intros entered.
  destruct (completion_is_reached Sample.timers Sample.settings 3 (Rejected "503") 0
              Sample.counting) as (Hphase & _ & _ & Hmiss & _).
  - simpl. lia.
  - split; [exact Hphase |].
    destruct Hmiss as (_ & _ & Hfail); [reflexivity |].
    apply Hfail. exact I.
Defined.

(** ** One announcement at a time *)






































(* ================================================================= *)
(** * Further properties of the services *)

Import RetryLog.

Section RetryShape.
Context {T : Type}.
Implicit Types (fn : nat → Settled T).

(** The attempts before the [k]-th all fail. *)
Lemma retry_shape fn retries delay attempt (k : nat) :
  (k ≤ retries)%nat →
  (∀ j, (j < k)%nat → ∃ e, fn (attempt + j)%nat = Rejected e) →
  (k = retries ∨ ∃ v, fn (attempt + k)%nat = Fulfilled v) →
  let '(r, log) := retry fn retries delay attempt in
  r = fn (attempt + k)%nat
  ∧ attempted log = seq attempt (S k)
  ∧ waits log = (fun j => delay * 2 ^ Z.of_nat j) <$> seq 0 k.
Proof.
  revert retries delay attempt.
  induction k as [|k IH]; intros retries delay attempt Hk Hfail Hlast.
  - rewrite Nat.add_0_r. destruct retries as [|retries]; simpl.
    + destruct (fn attempt); auto.
    + destruct Hlast as [Heq | [v Hv]]; [discriminate |].
      rewrite Nat.add_0_r in Hv. rewrite Hv. auto.
  - destruct retries as [|retries]; [lia |]. simpl.
    destruct (Hfail 0%nat ltac:(lia)) as [e He].
    rewrite Nat.add_0_r in He. rewrite He.
    specialize (IH retries (delay * 2) (S attempt) ltac:(lia)).
    destruct (retry fn retries (delay * 2) (S attempt)) as [r log].
    destruct IH as (Hr & Hatt & Hwaits).
    + intros j Hj. replace (S attempt + j)%nat with (attempt + S j)%nat by lia.
      apply Hfail. lia.
    + destruct Hlast as [Heq | [v Hv]]; [left; lia | right; exists v].
      now replace (S attempt + k)%nat with (attempt + S k)%nat by lia.
    + replace (attempt + S k)%nat with (S attempt + k)%nat by lia.
      split; [exact Hr |]. simpl. rewrite Hatt, Hwaits.
      split; [reflexivity |]. f_equal; [lia |].
      rewrite <- fmap_S_seq, <- list_fmap_compose.
      apply list_fmap_ext. intros _ j _. simpl.
      rewrite Nat2Z.inj_succ, Z.pow_succ_r by lia. lia.
Qed.

Lemma doubling_sum delay (k : nat) :
  foldr Z.add 0 ((fun j => delay * 2 ^ Z.of_nat j) <$> seq 0 k)
  = delay * (2 ^ Z.of_nat k - 1).
Proof.
  induction k as [|k IH]; [simpl; lia |].
  rewrite seq_S, fmap_app, foldr_app. simpl.
  assert (Hshift : ∀ (l : list Z) a, foldr Z.add a l = foldr Z.add 0 l + a).
  { induction l as [|x l IHl]; intros a; simpl; [lia | rewrite IHl; lia]. }
  rewrite Hshift, IH, Nat2Z.inj_succ, Z.pow_succ_r by lia. lia.
Qed.

(** X13. [retry] hands back the first attempt that succeeds. If the
    attempts before the [k]-th fail and the [k]-th succeeds, with [k] not
    above the number of retries, the result is that success; exactly
    [k + 1] attempts are made, numbered in order, and the waits between
    them double from the initial delay, [delay * (2^k - 1)] in all. *)
Theorem retry_returns_first_success fn retries delay attempt (k : nat) v :
  (k ≤ retries)%nat →
  (∀ j, (j < k)%nat → ∃ e, fn (attempt + j)%nat = Rejected e) →
  fn (attempt + k)%nat = Fulfilled v →
  (retry fn retries delay attempt).1 = Fulfilled v
  ∧ attempted (retry fn retries delay attempt).2 = seq attempt (S k)
  ∧ waits (retry fn retries delay attempt).2
    = (fun j => delay * 2 ^ Z.of_nat j) <$> seq 0 k
  ∧ total_wait (retry fn retries delay attempt).2 = delay * (2 ^ Z.of_nat k - 1).
Proof.
  intros Hk Hfail Hv.
  pose proof (retry_shape fn retries delay attempt k Hk Hfail
                (or_intror (ex_intro _ v Hv))) as H.
  destruct (retry fn retries delay attempt) as [r log]. simpl.
  destruct H as (Hr & Hatt & Hwaits).
  split; [congruence |]. split; [exact Hatt |]. split; [exact Hwaits |].
  unfold total_wait. rewrite Hwaits. apply doubling_sum.
Qed.

(** X14. When the first attempt and every retry fail, [retry] rejects with
    the error of the last attempt, after [retries + 1] attempts and waits
    that double from the initial delay, [delay * (2^retries - 1)] in all. *)
Theorem retry_exhausted_last_error fn retries delay attempt :
  (∀ j, (j ≤ retries)%nat → ∃ e, fn (attempt + j)%nat = Rejected e) →
  (retry fn retries delay attempt).1 = fn (attempt + retries)%nat
  ∧ attempted (retry fn retries delay attempt).2 = seq attempt (S retries)
  ∧ waits (retry fn retries delay attempt).2
    = (fun j => delay * 2 ^ Z.of_nat j) <$> seq 0 retries
  ∧ total_wait (retry fn retries delay attempt).2
    = delay * (2 ^ Z.of_nat retries - 1).
Proof.
  intros Hfail.
  pose proof (retry_shape fn retries delay attempt retries (le_n _)
                (fun j Hj => Hfail j (Nat.lt_le_incl _ _ Hj)) (or_introl eq_refl))
    as H.
  destruct (retry fn retries delay attempt) as [r log]. simpl.
  destruct H as (Hr & Hatt & Hwaits).
  split; [exact Hr |]. split; [exact Hatt |]. split; [exact Hwaits |].
  unfold total_wait. rewrite Hwaits. apply doubling_sum.
Qed.

(** A fulfilled [retry] is the success of one of its attempts. *)
Lemma retry_fulfilled fn retries delay attempt v :
  (retry fn retries delay attempt).1 = Fulfilled v →
  ∃ n, (attempt ≤ n ≤ attempt + retries)%nat ∧ fn n = Fulfilled v.
Proof.
  revert delay attempt.
  induction retries as [|r IH]; intros delay attempt; simpl.
  - destruct (fn attempt) as [w|e] eqn:Hfn; simpl; [| discriminate].
    intros [= <-]. exists attempt. split; [lia | exact Hfn].
  - destruct (fn attempt) as [w|e] eqn:Hfn; simpl.
    + intros [= <-]. exists attempt. split; [lia | exact Hfn].
    + specialize (IH (delay * 2) (S attempt)).
      destruct (retry fn r (delay * 2) (S attempt)) as [res l]. simpl in *.
      intros Hres. destruct (IH Hres) as (n & Hn & Hv).
      exists n. split; [lia | exact Hv].
Qed.

End RetryShape.

Lemma retry_returns_first_success_witness :
  (generateTimerAnnouncement Sample.flaky "Plank" 90).1 = Fulfilled "AAD/fw=="
  ∧ total_wait (generateTimerAnnouncement Sample.flaky "Plank" 90).2 = 7000.
Proof.
  destruct (retry_returns_first_success
              (timerApiCall Sample.flaky "Plank" 90) 3 1000 0 3 "AAD/fw==")
    as (Hr & _ & _ & Hw).
  - lia.
  - intros j Hj. exists "503". destruct j as [|[|[|j]]]; [reflexivity.. | lia].
  - reflexivity.
  - split; [exact Hr | exact Hw].
Defined.

Lemma retry_exhausted_last_error_witness :
  (transcribeAudio Sample.down "UklGRg==" "audio/webm").1
  = Rejected "Transcription timed out"
  ∧ total_wait (transcribeAudio Sample.down "UklGRg==" "audio/webm").2 = 1500.
Proof.
  destruct (retry_exhausted_last_error
              (transcribeApiCall Sample.down "UklGRg==" "audio/webm") 2 500 0)
    as (Hr & _ & _ & Hw).
  - intros j _. eexists. reflexivity.
  - split; [exact Hr | exact Hw].
Defined.

(** X15. A speech call that fulfils hands back a payload that is not
    empty: a response without audio data counts as a failed attempt, for
    the step announcement and for the completion announcement alike. The
    payload is what one of the at most four attempts received within the
    time limit. *)
Theorem speech_payload_never_empty ai taskName d :
  (∀ b, (generateTimerAnnouncement ai taskName d).1 = Fulfilled b →
     b ≠ EmptyString
     ∧ ∃ n t response, (n ≤ 3)%nat
         ∧ ai (speechRequest (timerPrompt taskName d)) n
           = Settles t (Fulfilled response)
         ∧ t < TIMEOUT_MS ∧ inlineData response = Some b)
  ∧ (∀ b, (generateCompletionAnnouncement ai).1 = Fulfilled b →
     b ≠ EmptyString
     ∧ ∃ n t response, (n ≤ 3)%nat
         ∧ ai (speechRequest completionPrompt) n = Settles t (Fulfilled response)
         ∧ t < TIMEOUT_MS ∧ inlineData response = Some b).
Proof.
  assert (Hcall : ∀ req msg1 msg2 n b,
            match withTimeout (ai req n) TIMEOUT_MS msg1 with
            | Rejected e => Rejected e
            | Fulfilled response =>
                match Js.truthy (inlineData response) with
                | None => Rejected msg2
                | Some base64Audio => Fulfilled base64Audio
                end
            end = Fulfilled b →
            b ≠ EmptyString
            ∧ ∃ t response, ai req n = Settles t (Fulfilled response)
                ∧ t < TIMEOUT_MS ∧ inlineData response = Some b).
  { intros req msg1 msg2 n b. unfold withTimeout.
    destruct (ai req n) as [t [response | e] |]; try discriminate.
    - destruct (Z.ltb_spec t TIMEOUT_MS); [| discriminate].
      destruct (inlineData response) as [[|c s]|] eqn:Hdata; simpl; try discriminate.
      intros [= <-]. split; [discriminate |]. eauto.
    - destruct (t <? TIMEOUT_MS); discriminate. }
  split; intros b Hb.
  - apply retry_fulfilled in Hb as (n & Hn & Hv).
    destruct (Hcall _ _ _ _ _ Hv) as (Hne & t & response & H).
    split; [exact Hne |]. exists n, t, response. split; [lia | exact H].
  - apply retry_fulfilled in Hb as (n & Hn & Hv).
    destruct (Hcall _ _ _ _ _ Hv) as (Hne & t & response & H).
    split; [exact Hne |]. exists n, t, response. split; [lia | exact H].
Qed.

Lemma speech_payload_never_empty_witness :
  "AAD/fw==" ≠ EmptyString.
Proof.
  apply (proj1 (speech_payload_never_empty Sample.flaky "Plank" 90) "AAD/fw==").
  reflexivity.
Defined.

(** ** Trimming *)

Lemma trimStart_leading s : leading_space (Js.trimStart s) = false.
Proof.
  induction s as [|c r IH]; simpl; [reflexivity |].
  destruct (Js.isWhiteSpace c) eqn:Hc; [exact IH | simpl; exact Hc].
Qed.

Lemma trimEnd_trailing s : trailing_space (Js.trimEnd s) = false.
Proof.
  induction s as [|c r IH]; simpl; [reflexivity |].
  destruct (Js.trimEnd r) as [|c' r'] eqn:Hr.
  - destruct (Js.isWhiteSpace c) eqn:Hc; simpl; [reflexivity | exact Hc].
  - simpl. simpl in IH. exact IH.
Qed.

Lemma trimEnd_leading s : leading_space s = false → leading_space (Js.trimEnd s) = false.
Proof.
  destruct s as [|c r]; simpl; [reflexivity |]. intros Hc.
  destruct (Js.trimEnd r); simpl; [rewrite Hc; simpl; exact Hc | exact Hc].
Qed.

(** X16. A transcription that fulfils carries no white space at either
    end: it is the trimmed text of an attempt that answered within 15
    seconds, or the empty string when that text is missing or blank. *)
Theorem transcription_is_trimmed ai base64Audio mimeType s :
  (transcribeAudio ai base64Audio mimeType).1 = Fulfilled s →
  leading_space s = false ∧ trailing_space s = false
  ∧ ∃ n t response, (n ≤ 2)%nat
      ∧ ai (transcribeRequest base64Audio mimeType) n = Settles t (Fulfilled response)
      ∧ t < 15000
      ∧ s = match text response with
            | Some x => Js.trim x
            | None => EmptyString
            end.
Proof.
  intros Hs. apply retry_fulfilled in Hs as (n & Hn & Hv).
  unfold transcribeApiCall, withTimeout in Hv.
  destruct (ai (transcribeRequest base64Audio mimeType) n)
    as [t [response | e] |] eqn:Hai; try discriminate.
  2:{ destruct (t <? 15000); discriminate. }
  destruct (Z.ltb_spec t 15000); [| discriminate].
  injection Hv as <-.
  assert (Hval : Js.or_else (Js.trim <$> text response) EmptyString
                 = match text response with
                   | Some x => Js.trim x
                   | None => EmptyString
                   end).
  { destruct (text response) as [x|]; simpl; [| reflexivity].
    destruct (Js.trim x); reflexivity. }
  rewrite Hval.
  split; [| split].
  - destruct (text response) as [x|]; [| reflexivity].
    apply trimEnd_leading, trimStart_leading.
  - destruct (text response) as [x|]; [| reflexivity]. apply trimEnd_trailing.
  - exists n, t, response. split; [lia |]. auto.
Qed.

Lemma transcription_is_trimmed_witness :
  (transcribeAudio SampleSetup.spoken "UklGRg==" "audio/webm").1
  = Fulfilled "Wash dishes"
  ∧ leading_space "Wash dishes" = false.
Proof.
  split; [reflexivity |].
  apply (transcription_is_trimmed SampleSetup.spoken "UklGRg==" "audio/webm"
           "Wash dishes").
  reflexivity.
Defined.

(* ================================================================= *)
(** * Properties of the setup view *)

Import TimerSetup.

(** X17. The add-step form accepts a step exactly when its name has some
    text and the minutes and seconds fields, read as [parseInt] reads them
    (an unreadable field counting as 0), give a positive number of
    seconds. An accepted step goes to the end of the list with the name as
    typed and that duration, the earlier steps staying as they were, and
    the form is reset; a refused submission changes nothing. *)
Theorem addTimer_accepts_iff uuid f :
  let duration :=
    JsNumber.parseIntOr0 (newMinutes f) * 60 + JsNumber.parseIntOr0 (newSeconds f) in
  (Js.trim (newName f) ≠ EmptyString ∧ 0 < duration →
     App.timers (app (addTimer uuid f))
     = App.timers (app f)
       ++ [{| id := uuid; Types.name := newName f; durationSeconds := duration |}]
     ∧ newName (addTimer uuid f) = EmptyString
     ∧ newMinutes (addTimer uuid f) = "0"
     ∧ newSeconds (addTimer uuid f) = "0"
     ∧ savedChains (addTimer uuid f) = savedChains f
     ∧ App.settings (app (addTimer uuid f)) = App.settings (app f))
  ∧ (Js.trim (newName f) = EmptyString ∨ duration <= 0 → addTimer uuid f = f).
Proof.
  intros duration. unfold addTimer. fold duration. split.
  - intros [Hname Hpos]. rewrite decide_False by exact Hname.
    destruct (Z.leb_spec duration 0); [lia |]. simpl. auto 10.
  - intros [Hblank | Hzero].
    + now rewrite decide_True by exact Hblank.
    + case_decide; [reflexivity |].
      destruct (Z.leb_spec duration 0); [reflexivity | lia].
Qed.

Lemma addTimer_accepts_iff_witness :
  App.timers (app (addTimer "u1" SampleSetup.typed))
  = [{| id := "u1"; Types.name := " Wash dishes"; durationSeconds := 150 |}].
Proof.
  apply (proj1 (addTimer_accepts_iff "u1" SampleSetup.typed)).
  split; [discriminate | reflexivity].
Defined.

(** ** What the setup view keeps *)

Lemma chain_names_insert (l : list SavedChain) i c c' :
  l !! i = Some c' → name c' = name c → name <$> <[i := c]> l = name <$> l.
Proof.
  intros Hi Hname. rewrite list_fmap_insert. apply list_insert_id.
  rewrite list_lookup_fmap, Hi. simpl. now rewrite Hname.
Qed.

Lemma Forall_filter_keep {A} (P Q : A → Prop) `{∀ x, Decision (Q x)} (l : list A) :
  Forall P l → Forall P (filter Q l).
Proof.
  rewrite !Forall_forall. intros Hall x Hx.
  apply list_elem_of_filter in Hx as [_ Hx]. auto.
Qed.

Lemma handleSave_ok confirmed now f : setup_ok f → setup_ok (handleSave confirmed now f).
Proof.
  intros (Hsteps & Hbuf & [Hchains Hnames] & Hmirror). unfold handleSave.
  case_decide as Hguard; [repeat split; assumption |].
  assert (Hname : Js.trim (saveName f) ≠ EmptyString) by tauto.
  assert (Hlen : length (App.timers (app f)) ≠ 0%nat) by tauto.
  set (newChain := {| name := Js.trim (saveName f); timers := App.timers (app f);
                      settings := Some (App.settings (app f)); createdAt := now |}).
  assert (Hnew : chain_ok newChain).
  { split; [exact Hname |]. split; [| split; [exact Hsteps | exact Hbuf]].
    simpl. destruct (App.timers (app f)); [contradiction | discriminate]. }
  destruct (list_find _ (savedChains f)) as [[i c]|] eqn:Hfind.
  - destruct confirmed; [| repeat split; assumption].
    apply list_find_Some in Hfind as (Hi & Hc & _).
    split; [exact Hsteps |]. split; [exact Hbuf |]. split; [| reflexivity].
    split; simpl.
    + now apply Forall_insert.
    + rewrite (chain_names_insert _ i newChain c Hi Hc). exact Hnames.
  - apply list_find_None in Hfind.
    split; [exact Hsteps |]. split; [exact Hbuf |]. split; [| reflexivity].
    split; simpl.
    + apply Forall_app. split; [exact Hchains | constructor; [exact Hnew | constructor]].
    + rewrite fmap_app. apply NoDup_app. split; [exact Hnames |]. split.
      * intros x Hx Hx'. apply list_elem_of_singleton in Hx'. simpl in Hx'. subst x.
        apply list_elem_of_fmap in Hx as (c & Hc & Hin).
        rewrite Forall_forall in Hfind. apply (Hfind c Hin). now symmetry.
      * apply NoDup_singleton.
Qed.

Lemma handleDeleteChain_ok chainName confirmed f :
  setup_ok f → setup_ok (handleDeleteChain chainName confirmed f).
Proof.
  intros (Hsteps & Hbuf & [Hchains Hnames] & Hmirror). unfold handleDeleteChain.
  destruct confirmed; [| repeat split; assumption].
  split; [exact Hsteps |]. split; [exact Hbuf |]. split; [| reflexivity].
  split; simpl.
  - now apply Forall_filter_keep.
  - eapply sublist_NoDup; [exact Hnames |]. apply fmap_sublist, sublist_filter.
Qed.

Lemma handleLoad_ok chain f :
  chain ∈ savedChains f → setup_ok f → setup_ok (handleLoad chain f).
Proof.
  intros Hin (Hsteps & Hbuf & [Hchains Hnames] & Hmirror).
  rewrite Forall_forall in Hchains.
  destruct (Hchains chain Hin) as (_ & _ & Hok & Hset).
  split; [exact Hok |]. split; [| split; [split; [now apply Forall_forall | exact Hnames] | exact Hmirror]].
  simpl. destruct (settings chain); simpl; [exact Hset | lia].
Qed.

Lemma act_ok f a : setup_ok f → setup_ok (act f a).
Proof.
  intros Hok. pose proof Hok as (Hsteps & Hbuf & Hchains & Hmirror).
  destruct a as [n m s | v | v | sound | uuid | k | uuid k | c now | k | k c]; simpl.
  - exact Hok.
  - exact Hok.
  - split; [exact Hsteps |]. split; [simpl; lia | split; assumption].
  - exact Hok.
  - unfold addTimer. case_decide as Hname; [exact Hok |].
    destruct (Z.leb_spec (JsNumber.parseIntOr0 (newMinutes f) * 60
                          + JsNumber.parseIntOr0 (newSeconds f)) 0); [exact Hok |].
    split; [| split; [exact Hbuf | split; assumption]].
    simpl. apply Forall_app. split; [exact Hsteps |].
    constructor; [split; [exact Hname | simpl; lia] | constructor].
  - destruct (App.timers (app f) !! k); [| exact Hok].
    split; [| split; [exact Hbuf | split; assumption]].
    simpl. now apply Forall_filter_keep.
  - destruct (App.timers (app f) !! k) as [timer|] eqn:Hk; [| exact Hok].
    split; [| split; [exact Hbuf | split; assumption]].
    simpl. apply Forall_app. split; [exact Hsteps |].
    rewrite Forall_forall in Hsteps.
    constructor; [| constructor].
    apply (Hsteps timer). eapply list_elem_of_lookup_2, Hk.
  - now apply handleSave_ok.
  - destruct (savedChains f !! k) as [chain|] eqn:Hk; [| exact Hok].
    apply handleLoad_ok; [eapply list_elem_of_lookup_2, Hk | exact Hok].
  - destruct (savedChains f !! k); [| exact Hok]. now apply handleDeleteChain_ok.
Qed.

(** X18. Whatever is done in the setup view, starting from stored routines
    that are in order (none stored is in order): every step of the list
    has a name with some text and a positive duration, the rest interval
    is not negative, the saved routines have distinct, non-empty names and
    at least one step each, and local storage holds exactly the routines
    shown. In particular the run that follows never counts below zero
    seconds, and it is entered exactly when the list has a step. *)
Theorem setup_keeps_routines_in_order a stored actions :
  Forall step_ok (App.timers a) →
  0 <= bufferSeconds (App.settings a) →
  chains_ok (default [] stored) →
  let f := session actions (mount a stored) in
  Forall step_ok (App.timers (app f))
  ∧ 0 <= bufferSeconds (App.settings (app f))
  ∧ chains_ok (savedChains f)
  ∧ savedChains f = default [] (storage f)
  ∧ Reach.durations_nonneg (App.timers (app f)) (App.settings (app f))
  ∧ (App.status (App.handleStart (app f)) = RUNNING ↔
     App.timers (app f) ≠ [] ∨ App.status (app f) = RUNNING).
Proof.
  intros Hsteps Hbuf Hstored f.
  assert (Hmount : setup_ok (mount a stored)).
  { unfold mount. destruct stored as [loaded|]; simpl in *.
    - split; [exact Hsteps |]. split; [exact Hbuf |]. split; [exact Hstored | reflexivity].
    - split; [exact Hsteps |]. split; [exact Hbuf |]. split; [exact Hstored | reflexivity]. }
  assert (Hok : setup_ok f).
  { subst f. revert Hmount. generalize (mount a stored).
    induction actions as [|x actions IH]; intros s Hs; [exact Hs |].
    apply IH. now apply act_ok. }
  destruct Hok as (H1 & H2 & H3 & H4).
  split; [exact H1 |]. split; [exact H2 |]. split; [exact H3 |]. split; [exact H4 |].
  split.
  - split; [| exact H2]. eapply Forall_impl; [exact H1 |].
    intros t [_ Ht]. simpl. lia.
  - unfold App.handleStart. case_decide as Hlen.
    + simpl. split; [intros _; left | reflexivity].
      destruct (App.timers (app f)); [simpl in Hlen; lia | discriminate].
    + split; [auto |]. intros [Hne | Hrun]; [| exact Hrun].
      destruct (App.timers (app f)); [contradiction | simpl in Hlen; lia].
Qed.

Lemma setup_keeps_routines_in_order_witness :
  let f := session [TypeStep " Wash dishes" "2" "30"; SubmitStep "u1";
                    TypeSaveName " Morning "; Save true 5; Duplicate "u2" 0]
             (mount App.initial None) in
  Forall step_ok (App.timers (app f))
  ∧ savedChains f = default [] (storage f).
Proof.
  intros f.
  destruct (setup_keeps_routines_in_order App.initial None
              [TypeStep " Wash dishes" "2" "30"; SubmitStep "u1";
               TypeSaveName " Morning "; Save true 5; Duplicate "u2" 0])
    as (Hsteps & _ & _ & Hmirror & _).
  - constructor.
  - simpl. lia.
  - split; constructor.
  - split; [exact Hsteps | exact Hmirror].
Defined.



(** X20. Deleting a routine, once confirmed, removes the routine of that
    name and nothing else, from the list shown and from local storage
    alike; the others keep their order. When the names are distinct and
    the name is listed, exactly one routine goes. A declined confirmation
    changes nothing. *)
Theorem delete_removes_that_routine chainName confirmed f :
  let f' := handleDeleteChain chainName confirmed f in
  (confirmed = false → f' = f)
  ∧ (confirmed = true →
     (∀ c, c ∈ savedChains f' ↔ c ∈ savedChains f ∧ name c ≠ chainName)
     ∧ savedChains f' `sublist_of` savedChains f
     ∧ storage f' = Some (savedChains f')
     ∧ app f' = app f
     ∧ (NoDup (name <$> savedChains f) → chainName ∈ name <$> savedChains f →
        S (length (savedChains f')) = length (savedChains f))).
Proof.
  intros f'. subst f'. unfold handleDeleteChain. split.
  - intros ->. reflexivity.
  - intros ->. simpl.
    split; [intros c; rewrite list_elem_of_filter; tauto |].
    split; [apply sublist_filter |]. split; [reflexivity |]. split; [reflexivity |].
    generalize (savedChains f). clear. intros l.
    induction l as [|c l IH]; simpl; intros Hnd Hin; [inversion Hin |].
    apply NoDup_cons in Hnd as [Hc Hnd]. rewrite filter_cons.
    destruct (decide (name c ≠ chainName)) as [Hne | Heq].
    + simpl. f_equal. apply IH; [exact Hnd |].
      apply elem_of_cons in Hin as [Hin | Hin]; [congruence | exact Hin].
    + apply dec_stable in Heq. f_equal.
      assert (Hall : filter (fun c0 => name c0 ≠ chainName) l = l); [| now rewrite Hall].
      clear IH Hin Hnd. induction l as [|d l IHl]; [reflexivity |].
      rewrite filter_cons. rewrite fmap_cons, not_elem_of_cons in Hc.
      destruct Hc as [Hd Hc]. rewrite decide_True by congruence.
      f_equal. apply IHl, Hc.
Qed.

Lemma delete_removes_that_routine_witness :
  let f := handleSave false 5
             (setSaveName " Morning " (addTimer "u1" SampleSetup.typed)) in
  savedChains (handleDeleteChain "Morning" true f) = []
  ∧ handleDeleteChain "Morning" false f = f.
Proof.
  intros f.
  destruct (delete_removes_that_routine "Morning" true f) as [_ Hyes].
  destruct (delete_removes_that_routine "Morning" false f) as [Hno _].
  split; [| apply Hno; reflexivity].
  destruct (Hyes eq_refl) as (_ & _ & _ & _ & Hlen).
  specialize (Hlen ltac:(vm_compute; repeat constructor; apply not_elem_of_nil)
                   ltac:(vm_compute; apply list_elem_of_In; simpl; auto)).
  destruct (savedChains (handleDeleteChain "Morning" true f)) as [|c l] eqn:Hl;
    [reflexivity |].
  vm_compute in Hlen. discriminate.
Defined.

(** X21. Removing a step removes every step with that identifier and no
    other, keeping the order. When the identifiers are distinct, as fresh
    identifiers make them, removing the [k]-th step deletes exactly that
    position; and a step added or copied under a fresh identifier keeps
    the identifiers distinct. *)
Theorem removeTimer_removes_that_step k timer uuid f :
  App.timers (app f) !! k = Some timer →
  let ids l := id <$> l in
  (∀ t, t ∈ App.timers (app (removeTimer (id timer) f))
        ↔ t ∈ App.timers (app f) ∧ id t ≠ id timer)
  ∧ (NoDup (ids (App.timers (app f))) →
     App.timers (app (removeTimer (id timer) f)) = delete k (App.timers (app f))
     ∧ NoDup (ids (App.timers (app (removeTimer (id timer) f))))
     ∧ (uuid ∉ ids (App.timers (app f)) →
        NoDup (ids (App.timers (app (duplicateTimer uuid timer f))))
        ∧ NoDup (ids (App.timers (app (addTimer uuid f))))))
  ∧ savedChains (removeTimer (id timer) f) = savedChains f.
Proof.
  intros Hk ids. unfold removeTimer. simpl.
  split; [intros t; rewrite list_elem_of_filter; tauto |].
  split; [| reflexivity].
  intros Hnd.
  assert (Hdel : filter (fun t => id t ≠ id timer) (App.timers (app f))
                 = delete k (App.timers (app f))).
  { revert k Hk Hnd. subst ids. generalize (App.timers (app f)). intros l.
    induction l as [|t l IH]; intros k Hk Hnd; [discriminate |].
    simpl in Hnd. apply NoDup_cons in Hnd as [Ht Hnd]. rewrite filter_cons.
    destruct k as [|k]; simpl in Hk.
    - injection Hk as ->. rewrite decide_False by auto. simpl.
      clear IH. induction l as [|d l IHl]; [reflexivity |].
      rewrite filter_cons. rewrite fmap_cons, not_elem_of_cons in Ht.
      destruct Ht as [Hd Ht]. apply NoDup_cons in Hnd as [_ Hnd].
      rewrite decide_True by congruence. f_equal. apply IHl; assumption.
    - rewrite decide_True.
      + simpl. f_equal. apply IH; assumption.
      + intros Heq. apply Ht. rewrite Heq. apply list_elem_of_fmap.
        exists timer. split; [reflexivity | eapply list_elem_of_lookup_2, Hk]. }
  split; [exact Hdel |]. split.
  - rewrite Hdel. eapply sublist_NoDup; [exact Hnd |].
    apply fmap_sublist, sublist_delete.
  - intros Hfresh. split.
    + subst ids. simpl. rewrite fmap_app. apply NoDup_app.
      split; [exact Hnd |]. split; [| apply NoDup_singleton].
      intros x Hx Hx'. apply list_elem_of_singleton in Hx'. simpl in Hx'. congruence.
    + unfold addTimer. repeat (case_decide || case_match); try exact Hnd.
      subst ids. simpl. rewrite fmap_app. apply NoDup_app.
      split; [exact Hnd |]. split; [| apply NoDup_singleton].
      intros x Hx Hx'. apply list_elem_of_singleton in Hx'. simpl in Hx'. congruence.
Qed.

Lemma removeTimer_removes_that_step_witness :
  let f := duplicateTimer "u2" {| id := "u1"; Types.name := " Wash dishes";
                                   durationSeconds := 150 |}
             (addTimer "u1" SampleSetup.typed) in
  App.timers (app (removeTimer "u1" f))
  = [{| id := "u2"; Types.name := " Wash dishes"; durationSeconds := 150 |}].
Proof.
  intros f.
  destruct (removeTimer_removes_that_step 0
              {| id := "u1"; Types.name := " Wash dishes"; durationSeconds := 150 |}
              "u3" f eq_refl) as (_ & Hdel & _).
  destruct Hdel as (Heq & _).
  - vm_compute. repeat constructor.
    + intros Hin. apply list_elem_of_In in Hin. simpl in Hin.
      destruct Hin as [Heq | []]. discriminate.
    + apply not_elem_of_nil.
  - exact Heq.
Defined.
